(** * Steady-state transport on pore networks: boundary conditions,
      linear-system assembly and rate evaluation

    A shallow embedding of [openpnm/algorithms/_generic_transport.py]
    (class [GenericTransport]).

    Conventions of the embedding
    - a float is an exact rational ([Q]); comparisons of computed numbers
      are stated with [==] ([Qeq]);
    - an entry of a boundary-condition array is an [option Q]: [None] is a
      non-finite float (the [np.nan] the code writes, and likewise an
      infinity), the only thing [np.isfinite] can tell apart;
    - a numpy 1-d array is a [list]; reading and writing by index use
      stdpp's lookup [!!] and insert [<[i:=v]>], with the [IndexError] and
      the broadcasting [ValueError] numpy raises written out;
    - a Python call that can raise returns a [result]; a method that
      mutates [self] returns the new object next to its result, also when it
      raises, because the mutation done before the raise stays. *)

From Stdlib Require Import QArith Qabs.
From stdpp Require Import base list sorting strings.

Local Open Scope nat_scope.

(** ** Python exceptions and results *)

Inductive exn : Type :=
  | Exception (msg : string)   (* [raise Exception(msg)] of the source *)
  | IndexError                 (* numpy: index out of bounds, or indexing a 0-d array *)
  | ValueError                 (* numpy: shape mismatch while broadcasting *)
  | ZeroDivisionError.         (* Python: scalar division by zero *)

Inductive result (A : Type) : Type :=
  | Ok (a : A)
  | Raise (e : exn).
Arguments Ok {A} a.
Arguments Raise {A} e.

Definition bind {A B : Type} (r : result A) (k : A -> result B) : result B :=
  match r with
  | Ok a => k a
  | Raise e => Raise e
  end.

Notation "'try' x <- r 'in' k" := (bind r (fun x => k))
  (at level 10, x name, r at level 100, k at level 200).

Definition raises {A : Type} (r : result A) : Prop :=
  match r with Ok _ => False | Raise _ => True end.

(** ** The numpy operations the source uses *)

(** [np.isfinite] on one entry and on an array. *)
Definition finite (v : option Q) : bool :=
  match v with Some _ => true | None => false end.

Definition isfinite (a : list (option Q)) : list bool := map finite a.

(** [a[idx]] for an array of integer indices. *)
Fixpoint take {A : Type} (a : list A) (idx : list nat) : result (list A) :=
  match idx with
  | [] => Ok []
  | i :: idx' =>
      match a !! i with
      | None => Raise IndexError
      | Some v => try vs <- take a idx' in Ok (v :: vs)
      end
  end.

(** [a[mask]] for a boolean mask of the length of [a]. *)
Fixpoint compress {A : Type} (a : list A) (mask : list bool) : list A :=
  match a, mask with
  | x :: a', m :: mask' => if m then x :: compress a' mask' else compress a' mask'
  | _, _ => []
  end.

(** [np.setdiff1d(a, b)]: the sorted, unique values of [a] that are not in
    [b]. *)
Definition setdiff1d (a b : list nat) : list nat :=
  merge_sort le (remove_dups (list_difference a b)).

(** What is assigned: a scalar (0-d array) or a 1-d array. *)
Inductive ndvalues : Type :=
  | Scalar (v : option Q)
  | Vector (vs : list (option Q)).

Definition size (values : ndvalues) : nat :=
  match values with
  | Scalar _ => 1
  | Vector vs => length vs
  end.

(** Broadcasting of the assigned values to [n] places. *)
Definition broadcast_to (values : ndvalues) (n : nat) : result (list (option Q)) :=
  match values with
  | Scalar v => Ok (replicate n v)
  | Vector vs =>
      if length vs =? n then Ok vs
      else match vs with
           | [v] => Ok (replicate n v)
           | _ => Raise ValueError
           end
  end.

(** The writes of [a[idx] = vs] once shapes agree: in index order, so the
    last write to a repeated index stays. *)
Definition scatter {A : Type} (a : list A) (idx : list nat) (vs : list A) : list A :=
  foldl (fun acc iv => <[iv.1 := iv.2]> acc) a (zip idx vs).

(** [a[idx] = values] for an array of integer indices. *)
Definition put (a : list (option Q)) (idx : list nat) (values : ndvalues)
  : result (list (option Q)) :=
  if forallb (fun i => i <? length a) idx
  then try vs <- broadcast_to values (length idx) in Ok (scatter a idx vs)
  else Raise IndexError.

(** ** The algorithm object *)

(** A sparse matrix in COO format: [A.row], [A.col] and [A.data] zipped. *)
Record coo_matrix : Type := {
  shape : nat;
  triples : list (nat * nat * Q)
}.

Inductive bctype : Type := Value | Rate.
Inductive mode : Type := merge | overwrite.

Record GenericTransport : Type := {
  Np : nat;                        (* number of pores of the network *)
  bc_rate : list (option Q);       (* self['pore.bc_rate'] *)
  bc_value : list (option Q);      (* self['pore.bc_value'] *)
  _A : option coo_matrix;
  _b : option (list Q);
  _pure_A : option coo_matrix;
  _pure_b : option (list Q);
  x : option (list Q)              (* self[settings['quantity']] *)
}.

(** [np.nan] assigned to a whole pore array. *)
Definition all_nan (n : nat) : list (option Q) := replicate n None.

(** [__new__] and [__init__]. *)
Definition init (n : nat) : GenericTransport :=
  {| Np := n; bc_rate := all_nan n; bc_value := all_nan n;
     _A := None; _b := None; _pure_A := None; _pure_b := None; x := None |}.

(** [self[f"pore.bc_{bctype}"]], read and assigned. *)
Definition bc (t : bctype) (self : GenericTransport) : list (option Q) :=
  match t with Value => bc_value self | Rate => bc_rate self end.

Definition set_bc (t : bctype) (a : list (option Q)) (self : GenericTransport)
  : GenericTransport :=
  match t with
  | Value => {| Np := Np self; bc_rate := bc_rate self; bc_value := a;
                _A := _A self; _b := _b self; _pure_A := _pure_A self;
                _pure_b := _pure_b self; x := x self |}
  | Rate => {| Np := Np self; bc_rate := a; bc_value := bc_value self;
               _A := _A self; _b := _b self; _pure_A := _pure_A self;
               _pure_b := _pure_b self; x := x self |}
  end.

(** [np.setdiff1d(['value', 'rate'], bctype).item()]. *)
Definition othertype (t : bctype) : bctype :=
  match t with Value => Rate | Rate => Value end.

(** [reset(bcs, results)]. *)
Definition reset (self : GenericTransport) (bcs results : bool) : GenericTransport :=
  {| Np := Np self;
     bc_rate := if bcs then all_nan (Np self) else bc_rate self;
     bc_value := if bcs then all_nan (Np self) else bc_value self;
     _A := None; _b := None; _pure_A := None; _pure_b := None;
     x := if results then None else x self |}.

(** [_set_BC(pores, bctype, bcvalues, mode)]. The second component is what
    the call does: it raises, or it returns after warning about the pores
    [inds] it skipped (no warning when [inds] is empty). *)
Definition _set_BC (self : GenericTransport) (pores : list nat) (t : bctype)
    (bcvalues : ndvalues) (m : mode) : GenericTransport * result (list nat) :=
  let values := bcvalues in
  if (1 <? size values) && negb (size values =? length pores)
  then (self, Raise (Exception "The number of values must match the number of locations"))
  else
    let self1 :=
      match m with
      | merge => self
      | overwrite => set_bc t (all_nan (Np self)) self
      end in
    let existing_bcs := isfinite (bc (othertype t) self1) in
    match take existing_bcs pores with
    | Raise e => (self1, Raise e)
    | Ok hit =>
        let inds := compress pores hit in
        let pores' := if 0 <? length inds then setdiff1d pores inds else pores in
        match put (bc t self1) pores' values with
        | Raise e => (self1, Raise e)
        | Ok a => (set_bc t a self1, Ok inds)
        end
    end.

(** [set_value_BC(pores, values, mode)]. *)
Definition set_value_BC (self : GenericTransport) (pores : list nat)
    (values : ndvalues) (m : mode) : GenericTransport * result (list nat) :=
  _set_BC self pores Value values m.

(** The [rates] and [total_rate] arguments of [set_rate_BC], each given or
    left at [None]. Leaving both at [None] hands [None] to numpy as the
    value to store and is not an input of the embedding. *)
Inductive rate_args : Type :=
  | by_rates (rates : ndvalues)
  | by_total_rate (total_rate : Q)
  | by_both (rates : ndvalues) (total_rate : Q).

(** [set_rate_BC(pores, rates, total_rate, mode)]; [total_rate] is a Python
    scalar, so dividing it by an empty [pores.size] raises. *)
Definition set_rate_BC (self : GenericTransport) (pores : list nat)
    (args : rate_args) (m : mode) : GenericTransport * result (list nat) :=
  match args with
  | by_both _ _ =>
      (self, Raise (Exception "Cannot specify both arguments: rate and total_rate"))
  | by_total_rate total_rate =>
      if length pores =? 0 then (self, Raise ZeroDivisionError)
      else
        let rates := (total_rate / inject_Z (Z.of_nat (length pores)))%Q in
        _set_BC self pores Rate (Scalar (Some rates)) m
  | by_rates rates => _set_BC self pores Rate rates m
  end.

(** [remove_BC(pores, bctype)]: [bctype] is a list of 'all', 'value',
    'rate'; [pores = None] stands for all pores. *)
Inductive bcsel : Type := sel_all | sel_value | sel_rate.

Definition bcsel_eqb (a b : bcsel) : bool :=
  match a, b with
  | sel_all, sel_all | sel_value, sel_value | sel_rate, sel_rate => true
  | _, _ => false
  end.

(** [self[f"pore.bc_{t}"][pores] = np.nan]. *)
Definition nan_at (self : GenericTransport) (t : bctype) (pores : list nat)
  : GenericTransport * result unit :=
  match put (bc t self) pores (Scalar None) with
  | Ok a => (set_bc t a self, Ok tt)
  | Raise e => (self, Raise e)
  end.

Definition remove_BC (self : GenericTransport) (pores : option (list nat))
    (sel : list bcsel) : GenericTransport * result unit :=
  let sel := if existsb (bcsel_eqb sel_all) sel then [sel_value; sel_rate] else sel in
  let pores := match pores with Some ps => ps | None => seq 0 (Np self) end in
  match (if existsb (bcsel_eqb sel_value) sel
         then nan_at self Value pores else (self, Ok tt)) with
  | (self, Raise e) => (self, Raise e)
  | (self, Ok _) =>
      if existsb (bcsel_eqb sel_rate) sel
      then nan_at self Rate pores else (self, Ok tt)
  end.

(** ** Sparse matrices (scipy.sparse, COO format) *)

Definition Qsum (l : list Q) : Q := foldr Qplus 0%Q l.

(** The sum of the stored data at the places [sel] picks. A COO matrix may
    store a place more than once: its value there is the sum. *)
Definition sum_at (sel : nat -> nat -> bool) (ts : list (nat * nat * Q)) : Q :=
  Qsum (map (fun t => if sel t.1.1 t.1.2 then t.2 else 0%Q) ts).

(** The value of [A] at row [i], column [j]. *)
Definition entry (A : coo_matrix) (i j : nat) : Q :=
  sum_at (fun r c => (r =? i) && (c =? j)) (triples A).

(** [A.diagonal()]. *)
Definition diagonal (A : coo_matrix) : list Q :=
  map (fun i => entry A i i) (seq 0 (shape A)).

(** [A.sum(axis=0)]: the sum of each column. *)
Definition sum_axis0 (A : coo_matrix) : list Q :=
  map (fun j => sum_at (fun _ c => c =? j) (triples A)) (seq 0 (shape A)).

(** [A * v] for a vector [v]: the matrix-vector product. *)
Definition dot (A : coo_matrix) (v : list Q) : list Q :=
  map (fun i => Qsum (map (fun t => if t.1.1 =? i then (t.2 * nth t.1.2 v 0)%Q else 0%Q)
                          (triples A)))
      (seq 0 (shape A)).

(** [A.setdiag(values)]: the stored diagonal places are dropped and the new
    diagonal is appended. *)
Definition setdiag (A : coo_matrix) (values : list Q) : coo_matrix :=
  let max_index := Nat.min (shape A) (length values) in
  {| shape := shape A;
     triples :=
       List.filter (fun t => negb (t.1.1 =? t.1.2) || (max_index <=? t.1.1)) (triples A)
       ++ map (fun i => (i, i, nth i values 0%Q)) (seq 0 max_index) |}.

(** [A.eliminate_zeros()]. *)
Definition eliminate_zeros (A : coo_matrix) : coo_matrix :=
  {| shape := shape A;
     triples := List.filter (fun t => negb (Qeq_bool t.2 0)) (triples A) |}.

(** [scipy.sparse.csgraph.laplacian(am)] (not normed, axis 0) on a COO
    matrix: the data are negated and the diagonal is set to the column sums
    without the diagonal. *)
Definition laplacian (am : coo_matrix) : coo_matrix :=
  let w := zip_with Qminus (sum_axis0 am) (diagonal am) in
  let m := {| shape := shape am;
              triples := map (fun t => (t.1, (- t.2)%Q)) (triples am) |} in
  setdiag m w.

(** Modelled from the spec: [network.create_adjacency_matrix(weights, fmt='coo')],
    the Graph Adjacency Builder, whose code is not part of the sources at
    hand. Every edge is stored with its weight in both directions; an edge
    that names a node out of range, or a weight array that is not one value
    per edge, is an error. *)
Definition create_adjacency_matrix (N : nat) (conns : list (nat * nat))
    (weights : list Q) : result coo_matrix :=
  if negb (length weights =? length conns)
  then Raise (Exception "Received weights are of incorrect length")
  else if forallb (fun e => (e.1 <? N) && (e.2 <? N)) conns
  then Ok {| shape := N;
             triples := zip_with (fun e w => (e.1, e.2, w)) conns weights
                        ++ zip_with (fun e w => (e.2, e.1, w)) conns weights |}
  else Raise (Exception "InvalidTopology").

(** The total weight of the edges that join [i] and [j], in either
    orientation. *)
Definition weight_between (conns : list (nat * nat)) (weights : list Q) (i j : nat) : Q :=
  Qsum (map (fun ew : nat * nat * Q =>
               if ((ew.1.1 =? i) && (ew.1.2 =? j)) || ((ew.1.1 =? j) && (ew.1.2 =? i))
               then ew.2 else 0%Q)
            (zip conns weights)).

(** ** Assembly of the linear system *)

Definition with_A (self : GenericTransport) (pure_A A : option coo_matrix)
  : GenericTransport :=
  {| Np := Np self; bc_rate := bc_rate self; bc_value := bc_value self;
     _A := A; _b := _b self; _pure_A := pure_A; _pure_b := _pure_b self;
     x := x self |}.

Definition with_b (self : GenericTransport) (pure_b b : option (list Q))
  : GenericTransport :=
  {| Np := Np self; bc_rate := bc_rate self; bc_value := bc_value self;
     _A := _A self; _b := b; _pure_A := _pure_A self; _pure_b := pure_b;
     x := x self |}.

Definition with_x (self : GenericTransport) (x' : option (list Q))
  : GenericTransport :=
  {| Np := Np self; bc_rate := bc_rate self; bc_value := bc_value self;
     _A := _A self; _b := _b self; _pure_A := _pure_A self;
     _pure_b := _pure_b self; x := x' |}.

(** [_build_A()]. [cache] is [settings['cache']] as it stands once the
    conductance has been looked up among the iterative properties; [conns]
    is the network's 'throat.conns' and [g] the conductance array of the
    phase. *)
Definition _build_A (self : GenericTransport) (cache : bool)
    (conns : list (nat * nat)) (g : list Q) : GenericTransport * result unit :=
  let pure_A := if cache then _pure_A self else None in
  match pure_A with
  | Some A => (with_A self (Some A) (Some A), Ok tt)
  | None =>
      match create_adjacency_matrix (Np self) conns g with
      | Raise e => (with_A self None (_A self), Raise e)
      | Ok am => (with_A self (Some (laplacian am)) (Some (laplacian am)), Ok tt)
      end
  end.

(** [_build_b()]. *)
Definition _build_b (self : GenericTransport) : GenericTransport :=
  let b := replicate (Np self) 0%Q in
  with_b self (Some b) (Some b).

(** [a.mean()]. *)
Definition mean (a : list Q) : Q := (Qsum a / inject_Z (Z.of_nat (length a)))%Q.

(** [a[ind] = v[ind]] for a boolean mask [ind] and arrays of one length. *)
Definition assign_where (ind : list bool) (a v : list Q) : list Q :=
  zip_with (fun (m : bool) (p : Q * Q) => if m then p.2 else p.1) ind (zip a v).

(** [to_indices(mask)]: the places where the mask holds. *)
Definition to_indices (mask : list bool) : list nat :=
  compress (seq 0 (length mask)) mask.

(** [np.isin(a, P)] on one element. *)
Definition isin (i : nat) (P : list nat) : bool := bool_decide (i ∈ P).

(** The values of a boundary-condition array with 0 where it is not
    finite: only its finite places are ever read. *)
Definition finite_part (a : list (option Q)) : list Q := map (default 0%Q) a.

(** The right-hand side [_apply_BCs()] leaves in [self.b]; [A] and [b] are
    what the properties [self.A] and [self.b] hold when it is called. *)
Definition _apply_BCs_b (A : coo_matrix) (b : list Q)
    (bc_rate bc_value : list (option Q)) : list Q :=
  (* Update b *)
  let ind := isfinite bc_rate in
  let b := assign_where ind b (finite_part bc_rate) in
  let f := mean (diagonal A) in
  (* Update b (impose bc values) *)
  let ind := isfinite bc_value in
  let b := assign_where ind b (map (fun v => (v * f)%Q) (finite_part bc_value)) in
  (* Update b (substract quantities from b to keep A symmetric) *)
  let x_BC := assign_where ind (replicate (length b) 0%Q) (finite_part bc_value) in
  assign_where (map negb ind) b (zip_with Qminus b (dot A x_BC)).

(** The matrix [_apply_BCs()] leaves in [self.A]. *)
Definition _apply_BCs_A (A : coo_matrix) (bc_value : list (option Q)) : coo_matrix :=
  let f := mean (diagonal A) in
  let ind := isfinite bc_value in
  (* Update A *)
  let P_bc := to_indices ind in
  (* Remove entries from A for all BC rows/cols *)
  let A1 := {| shape := shape A;
               triples := map (fun t => if isin t.1.1 P_bc || isin t.1.2 P_bc
                                        then (t.1, 0%Q) else t) (triples A) |} in
  (* Add diagonal entries back into A *)
  let datadiag := diagonal A1 in
  let datadiag := scatter datadiag P_bc (replicate (length P_bc) f) in
  eliminate_zeros (setdiag A1 datadiag).

(** The sum over the pores [j] that hold a value of [A[i,j] * value[j]]. *)
Definition value_terms (A : coo_matrix) (bc_value : list (option Q)) (i : nat) : Q :=
  Qsum (map (fun j => match bc_value !! j with
                      | Some (Some v) => (entry A i j * v)%Q
                      | _ => 0%Q
                      end)
            (seq 0 (shape A))).

(** The right-hand side as the specification words it, for comparison with
    [_apply_BCs_b]: a pore with a rate holds the rate, a pore with a value
    holds the value times [f], and a pore with no condition holds the
    baseline less the value terms. *)
Definition b_as_specified (A : coo_matrix) (b : list Q)
    (bc_rate bc_value : list (option Q)) : list Q :=
  map (fun i => match bc_value !! i, bc_rate !! i with
                | Some (Some v), _ => (v * mean (diagonal A))%Q
                | _, Some (Some r) => r
                | _, _ => (nth i b 0 - value_terms A bc_value i)%Q
                end)
      (seq 0 (shape A)).

(** [_update_A_and_b()]. *)
Definition _update_A_and_b (self : GenericTransport) (cache : bool)
    (conns : list (nat * nat)) (g : list Q) : GenericTransport * result unit :=
  match _build_A self cache conns g with
  | (self, Raise e) => (self, Raise e)
  | (self, Ok _) =>
      let self := _build_b self in
      match _A self, _b self with
      | Some A, Some b =>
          let b' := _apply_BCs_b A b (bc_rate self) (bc_value self) in
          let A' := _apply_BCs_A A (bc_value self) in
          (with_b (with_A self (_pure_A self) (Some A')) (_pure_b self) (Some b'), Ok tt)
      | _, _ => (self, Ok tt)
      end
  end.

(** ** Settings and the solve *)

(** The class [GenericTransportSettings]; a setting that names something
    holds a string or Python's [None]. *)
Record GenericTransportSettings : Type := {
  prefix : string;
  phase : option string;
  quantity : option string;
  conductance : option string;
  cache : bool;
  variable_props : list string
}.

(** The class attributes: what a setting holds until it is configured. *)
Definition default_settings : GenericTransportSettings :=
  {| prefix := "transport"; phase := Some ""; quantity := Some "";
     conductance := Some ""; cache := true; variable_props := [] |}.

(** The settings [__init__(phase)] leaves: [settings['phase'] = phase.name]. *)
Definition init_settings (phase_name : string) : GenericTransportSettings :=
  {| prefix := prefix default_settings; phase := Some phase_name;
     quantity := quantity default_settings;
     conductance := conductance default_settings;
     cache := cache default_settings;
     variable_props := variable_props default_settings |}.

(** [_validate_settings()]. *)
Definition _validate_settings (settings : GenericTransportSettings) : result unit :=
  match quantity settings with
  | None => Raise (Exception "'quantity' hasn't been defined on this algorithm")
  | Some _ =>
      match conductance settings with
      | None => Raise (Exception "'conductance' hasn't been defined on this algorithm")
      | Some _ =>
          match phase settings with
          | None => Raise (Exception "'phase' hasn't been defined on this algorithm")
          | Some _ => Ok tt
          end
      end
  end.

Section Run.

(** The collaborators of [run]: the health checks of
    [_validate_data_health], which may build [A] and [b] on the way (the
    method itself is embedded after this section, and [run] is used with
    it), and the solver's [solve(A, b, x0)], which returns the solution and
    an exit code. *)
Variable _validate_data_health : GenericTransport -> GenericTransport * result unit.
Variable solve : coo_matrix -> list Q -> list Q -> list Q * nat.

(** [_run_special(solver, x0, w)]. *)
Definition _run_special (self : GenericTransport) (cache : bool)
    (conns : list (nat * nat)) (g : list Q) (x0 : list Q) (w : Q)
  : GenericTransport * result unit :=
  match _validate_data_health self with
  | (self, Raise e) => (self, Raise e)
  | (self, Ok _) =>
      match _A self, _b self with
      | Some A, Some b =>
          let x_new := (solve A b x0).1 in
          let old := default x_new (x self) in
          let self :=
            with_x self
              (Some (zip_with (fun n o => (w * n + (1 - w) * o)%Q) x_new old)) in
          _update_A_and_b self cache conns g
      | _, _ => (self, Ok tt)
      end
  end.

(** [run(solver, x0)]. *)
Definition run (self : GenericTransport) (settings : GenericTransportSettings)
    (conns : list (nat * nat)) (g : list Q) (x0 : option (list Q))
  : GenericTransport * result unit :=
  (* Perform pre-solve validations *)
  match _validate_settings settings with
  | Raise e => (self, Raise e)
  | Ok _ =>
      match _validate_data_health self with
      | (self, Raise e) => (self, Raise e)
      | (self, Ok _) =>
          let x0 := default (replicate (Np self) 0%Q) x0 in
          let self := with_x self (Some x0) in
          (* Build A and b, then solve the system of equations *)
          match _update_A_and_b self (cache settings) conns g with
          | (self, Raise e) => (self, Raise e)
          | (self, Ok _) => _run_special self (cache settings) conns g x0 1%Q
          end
      end
  end.

End Run.

(** ** The health checks *)

(** The property [self.A]: the matrix is built when none is held. *)
Definition self_A (self : GenericTransport) (cache : bool)
    (conns : list (nat * nat)) (g : list Q)
  : GenericTransport * result (option coo_matrix) :=
  match _A self with
  | None =>
      match _build_A self cache conns g with
      | (self, Raise e) => (self, Raise e)
      | (self, Ok _) => (self, Ok (_A self))
      end
  | Some A => (self, Ok (Some A))
  end.

(** The property [self.b]: the right-hand side is built when none is held. *)
Definition self_b (self : GenericTransport) : GenericTransport * option (list Q) :=
  match _b self with
  | None => let self := _build_b self in (self, _b self)
  | Some b => (self, Some b)
  end.

Section Health.

(** The collaborator of the health checks: [is_fully_connected(network,
    pores_BC)] of [openpnm.topotools], given the network's 'throat.conns'
    and the mask of the pores that carry a condition. *)
Variable is_fully_connected : list (nat * nat) -> list bool -> bool.

(** [_validate_topology_health()]. The mask [~np.isnan(...)] is read on the
    entries as the embedding has them, [None] being the NaN of a pore
    without a condition. *)
Definition _validate_topology_health (self : GenericTransport)
    (conns : list (nat * nat)) : result unit :=
  let Ps := zip_with orb (isfinite (bc_rate self)) (isfinite (bc_value self)) in
  if negb (is_fully_connected conns Ps) then
    Raise (Exception ("Your network is clustered. Run h = net.check_network_"
                      ++ "health() followed by op.topotools.trim(net, pores=h['"
                      ++ "trim_pores']) to make your network fully connected."))
  else Ok tt.

(** [_validate_data_health()]: the topology check, then [self.A] and
    [self.b], which build the system when it is not there yet. The data of
    [A] and [b] are rationals here, so [np.isfinite(...).all()] holds and
    the method returns; the search for the origin of NaNs that follows in
    the source is never entered. *)
Definition _validate_data_health (cache : bool) (conns : list (nat * nat))
    (g : list Q) (self : GenericTransport) : GenericTransport * result unit :=
  (* Validate network topology health *)
  match _validate_topology_health self conns with
  | Raise e => (self, Raise e)
  | Ok _ =>
      (* Short-circuit subsequent checks if data are healthy *)
      match self_A self cache conns g with
      | (self, Raise e) => (self, Raise e)
      | (self, Ok _) => let self := (self_b self).1 in (self, Ok tt)
      end
  end.

End Health.

(** ** Rates *)

(** A numpy value of dimension 0 or 1; [np.sum] of an array is of
    dimension 0. *)
Inductive ndarray : Type :=
  | dim0 (q : Q)
  | dim1 (l : list Q).

(** [phase[settings['conductance']]]: one value per throat, or one per
    throat and direction. *)
Inductive conductance_array : Type :=
  | per_throat (g : list Q)
  | per_direction (g : list (Q * Q)).

(** [quantity[P12]]: both ends of every throat looked up. *)
Definition take_ends (quantity : list Q) (P12 : list (nat * nat))
  : result (list (Q * Q)) :=
  try X1 <- take quantity (map fst P12) in
  try X2 <- take quantity (map snd P12) in
  Ok (zip X1 X2).

(** [np.tile(g, (2, 1)).T]. *)
Definition tile2 (g : list Q) : list (Q * Q) := map (fun q => (q, q)) g.

(** [np.flip(g, axis=1)]. *)
Definition flip1 (g : list (Q * Q)) : list (Q * Q) := map (fun p => (p.2, p.1)) g.

(** [np.diff(a, axis=1)] of a two-column array. *)
Definition diff1 (a : list (Q * Q)) : list Q := map (fun p => (p.2 - p.1)%Q) a.

(** [.squeeze()] of an (Nt, 1) array: a single throat leaves dimension 0. *)
Definition squeeze (a : list Q) : ndarray :=
  match a with
  | [q] => dim0 q
  | _ => dim1 a
  end.

(** The throat rates [Qt] of [rate]; the conductance has one row per
    throat. *)
Definition throat_rates (Nt : nat) (g : conductance_array) (X12 : list (Q * Q))
  : result ndarray :=
  try g2 <- match g with
            | per_throat g => Ok (tile2 g)
            | per_direction g => if Nt =? 0 then Raise ValueError else Ok g
            end in
  (* The next line is critical for rates to be correct *)
  let g2 := flip1 g2 in
  Ok (squeeze (diff1 (zip_with (fun a b => (a.1 * b.1, a.2 * b.2)%Q) g2 X12))).

(** [np.add.at(a, idx, v)]: every index receives its value, repeated
    indices accumulate. *)
Definition add_at (a : list Q) (idx : list nat) (v : list Q) : result (list Q) :=
  if forallb (fun i => i <? length a) idx
  then Ok (foldl (fun acc iv => <[iv.1 := (nth iv.1 acc 0 + iv.2)%Q]> acc) a (zip idx v))
  else Raise IndexError.

(** A dimension-0 value stretched over [n] places, a dimension-1 value as
    it is. *)
Definition stretch (a : ndarray) (n : nat) : list Q :=
  match a with
  | dim0 q => replicate n q
  | dim1 l => l
  end.

(** [np.sum] when the mode is 'group'. *)
Definition group_if (mode : string) (R : list Q) : ndarray :=
  if String.eqb mode "group" then dim0 (Qsum R) else dim1 R.

(** [np.array(R, ndmin=1)]. *)
Definition array_ndmin1 (R : ndarray) : ndarray :=
  match R with
  | dim0 q => dim1 [q]
  | dim1 l => dim1 l
  end.

(** [rate(pores, throats, mode)]; [N] is [self.Np], [P12] the network's
    'throat.conns', [g] the conductance and [quantity] the solved field. *)
Definition rate (N : nat) (P12 : list (nat * nat)) (g : conductance_array)
    (quantity : list Q) (pores throats : list nat) (mode : string)
  : result ndarray :=
  if (0 <? length throats) && (0 <? length pores)
  then Raise (Exception "Must specify either pores or throats, not both")
  else if (length throats =? length pores) && (length pores =? 0)
  then Raise (Exception "Must specify either pores or throats")
  else
    try X12 <- take_ends quantity P12 in
    try Qt <- throat_rates (length P12) g X12 in
    if 0 <? length throats then
      try R <- match Qt with
               | dim0 _ => Raise IndexError
               | dim1 l => take l throats
               end in
      Ok (array_ndmin1 (group_if mode (map Qabs R)))
    else
      let Qp := replicate N 0%Q in
      let Qt := stretch Qt (length P12) in
      try Qp <- add_at Qp (map fst P12) (map Qopp Qt) in
      try Qp <- add_at Qp (map snd P12) Qt in
      try R <- take Qp pores in
      Ok (array_ndmin1 (group_if mode R)).

(** The rate [Qt] of one throat: its ends [e], its conductance [g] in the
    two directions, the field [quantity]. *)
Definition throat_rate (quantity : list Q) (e : nat * nat) (g : Q * Q) : Q :=
  (g.1 * nth e.2 quantity 0 - g.2 * nth e.1 quantity 0)%Q.

(** The balance of pore [i]: every throat adds its rate with sign -1 at its
    first end and with sign +1 at its second end. *)
Definition net_rate (P12 : list (nat * nat)) (g : list (Q * Q)) (quantity : list Q)
    (i : nat) : Q :=
  Qsum (map (fun eg : nat * nat * (Q * Q) =>
               let Qt := throat_rate quantity eg.1 eg.2 in
               ((if eg.1.1 =? i then - Qt else 0) + (if eg.1.2 =? i then Qt else 0))%Q)
            (zip P12 g)).

(** The flux through each throat as the specification words it, for
    comparison with [rate]: what flows from the first end of the throat to
    its second end, [g * (x[first end] - x[second end])]. *)
Definition flux_as_specified (P12 : list (nat * nat)) (g : list Q)
    (quantity : list Q) : list Q :=
  map (fun ew : nat * nat * Q =>
         (ew.2 * (nth ew.1.1 quantity 0 - nth ew.1.2 quantity 0))%Q)
      (zip P12 g).

(** The balance as the specification words it, for comparison with [rate]:
    the fluxes [Qt] added with sign +1 at the end each throat leaves from,
    its first, and with sign -1 at the end it goes to, its second. *)
Definition balance_as_specified (N : nat) (P12 : list (nat * nat)) (Qt : list Q)
  : list Q :=
  map (fun i => Qsum (map (fun eq : nat * nat * Q =>
                             ((if eq.1.1 =? i then eq.2 else 0)
                              + (if eq.1.2 =? i then - eq.2 else 0))%Q)
                          (zip P12 Qt)))
      (seq 0 N).

(** ** The boundary-condition store as a state machine *)

Inductive call : Type :=
  | call_set_value_BC (pores : list nat) (values : ndvalues) (m : mode)
  | call_set_rate_BC (pores : list nat) (args : rate_args) (m : mode)
  | call_remove_BC (pores : option (list nat)) (sel : list bcsel)
  | call_reset (bcs results : bool).

(** The object a call leaves behind, whether it returns or raises. *)
Definition after (self : GenericTransport) (c : call) : GenericTransport :=
  match c with
  | call_set_value_BC pores values m => (set_value_BC self pores values m).1
  | call_set_rate_BC pores args m => (set_rate_BC self pores args m).1
  | call_remove_BC pores sel => (remove_BC self pores sel).1
  | call_reset bcs results => reset self bcs results
  end.

Inductive reachable (n : nat) : GenericTransport -> Prop :=
  | reachable_init : reachable n (init n)
  | reachable_call (self : GenericTransport) (c : call) :
      reachable n self -> reachable n (after self c).

(** A pore carries a finite condition of kind [t]. *)
Definition has_bc (t : bctype) (self : GenericTransport) (i : nat) : Prop :=
  exists q : Q, bc t self !! i = Some (Some q).

(** No pore carries both a finite value and a finite rate. *)
Definition one_kind (self : GenericTransport) : Prop :=
  forall i : nat, ~ (has_bc Value self i /\ has_bc Rate self i).

(** ** Sizes and selections *)

(** The arrays of boundary conditions have one entry per pore. *)
Definition well_sized (n : nat) (self : GenericTransport) : Prop :=
  Np self = n /\ length (bc_value self) = n /\ length (bc_rate self) = n.

(** ['value' in bctype] and ['rate' in bctype] of [remove_BC], once 'all'
    has been replaced by both. *)
Definition selects (sel : list bcsel) (t : bctype) : bool :=
  existsb (bcsel_eqb sel_all) sel
  || existsb (bcsel_eqb match t with Value => sel_value | Rate => sel_rate end) sel.

(** * Properties *)

(** ** The numpy operations *)

Section Indexing.

Context {A : Type}.
Implicit Types (a vs : list A) (idx : list nat).

Lemma take_in_range a idx vs :
  take a idx = Ok vs -> forall i, i ∈ idx -> i < length a.
Proof.
  revert vs. induction idx as [|j idx IH]; intros vs H i Hi.
  - by apply elem_of_nil in Hi.
  - simpl in H. destruct (a !! j) as [v|] eqn:Hj; [|discriminate].
    destruct (take a idx) as [ws|] eqn:Hw; [|discriminate].
    apply elem_of_cons in Hi as [->|Hi].
    + by eapply lookup_lt_Some.
    + by eapply IH.
Qed.

Lemma take_total a idx :
  (forall i, i ∈ idx -> i < length a) -> exists vs, take a idx = Ok vs.
Proof.
  induction idx as [|j idx IH]; intros H.
  - by eexists.
  - destruct IH as [ws Hw].
    { intros i Hi. apply H. by right. }
    destruct (lookup_lt_is_Some_2 a j) as [v Hv].
    { apply H. by left. }
    exists (v :: ws). simpl. by rewrite Hv, Hw.
Qed.

Lemma take_length a idx vs : take a idx = Ok vs -> length vs = length idx.
Proof.
  revert vs. induction idx as [|j idx IH]; intros vs H; simpl in H.
  - by inversion H.
  - destruct (a !! j); [|discriminate].
    destruct (take a idx) as [ws|]; [|discriminate].
    inversion H; subst. simpl. f_equal. by apply IH.
Qed.

Lemma length_scatter a idx vs : length (scatter a idx vs) = length a.
Proof.
  unfold scatter. revert a. induction (zip idx vs) as [|[i v] l IH]; intros a.
  - done.
  - simpl. rewrite IH. by rewrite length_insert.
Qed.

Lemma scatter_lookup_notin a idx vs i :
  i ∉ idx -> scatter a idx vs !! i = a !! i.
Proof.
  unfold scatter. revert a vs. induction idx as [|j idx IH]; intros a vs Hi.
  - done.
  - destruct vs as [|v vs]; [done|]. simpl.
    apply not_elem_of_cons in Hi as [Hne Hi].
    rewrite IH by done. by apply list_lookup_insert_ne.
Qed.

Lemma scatter_lookup_cases a idx vs i :
  scatter a idx vs !! i = a !! i
  \/ (i ∈ idx /\ exists v, v ∈ vs /\ scatter a idx vs !! i = Some v).
Proof.
  unfold scatter. revert a vs. induction idx as [|j idx IH]; intros a vs.
  - by left.
  - destruct vs as [|v vs]; [by left|]. simpl.
    destruct (IH (<[j:=v]> a) vs) as [Heq|(Hi & w & Hw & Heq)].
    + rewrite Heq. destruct (decide (i = j)) as [->|Hne].
      * destruct (decide (j < length a)) as [Hlt|Hge].
        -- right. split; [by left|]. exists v. split; [by left|].
           by apply list_lookup_insert_eq.
        -- left. rewrite list_insert_ge by lia. done.
      * left. by apply list_lookup_insert_ne.
    + right. split; [by right|]. exists w. split; [by right|done].
Qed.

Lemma scatter_replicate a idx v i :
  i ∈ idx -> i < length a ->
  scatter a idx (replicate (length idx) v) !! i = Some v.
Proof.
  revert a. induction idx as [|j idx IH]; intros a Hi Hlt.
  - by apply elem_of_nil in Hi.
  - change (scatter (<[j:=v]> a) idx (replicate (length idx) v) !! i = Some v).
    destruct (decide (i ∈ idx)) as [Hin|Hnin].
    + apply IH; [done|]. by rewrite length_insert.
    + apply elem_of_cons in Hi as [->|Hi]; [|done].
      rewrite scatter_lookup_notin by done.
      by apply list_lookup_insert_eq.
Qed.

End Indexing.

Lemma compress_take (a : list bool) (idx : list nat) (hit : list bool) (p : nat) :
  take a idx = Ok hit ->
  p ∈ compress idx hit <-> p ∈ idx /\ a !! p = Some true.
Proof.
  revert hit. induction idx as [|j idx IH]; intros hit H; simpl in H.
  - inversion H; subst; simpl. rewrite elem_of_nil. tauto.
  - destruct (a !! j) as [m|] eqn:Hj; [|discriminate].
    destruct (take a idx) as [ws|] eqn:Hw; [|discriminate].
    inversion H; subst; simpl. specialize (IH ws eq_refl).
    destruct m.
    + rewrite !elem_of_cons, IH. split.
      * intros [->|[? ?]]; auto.
      * intros [[->|?] ?]; auto.
    + rewrite IH, elem_of_cons. split.
      * intros [? ?]; auto.
      * intros [[->|?] ?]; [congruence|auto].
Qed.

Lemma isfinite_lookup (a : list (option Q)) (i : nat) :
  isfinite a !! i = Some true <-> exists q, a !! i = Some (Some q).
Proof.
  unfold isfinite. rewrite list_lookup_fmap.
  destruct (a !! i) as [[q|]|]; simpl; split;
    first [ by eauto | intros [? ?]; congruence | congruence ].
Qed.

Lemma elem_of_setdiff1d (a b : list nat) (p : nat) :
  p ∈ setdiff1d a b <-> p ∈ a /\ p ∉ b.
Proof.
  unfold setdiff1d.
  rewrite (merge_sort_Permutation le), elem_of_remove_dups.
  apply list_elem_of_difference.
Qed.

(** The pores [_set_BC] writes to are the given pores that do not carry the
    other kind. *)
Lemma targets_spec (o : list (option Q)) (pores : list nat) (hit : list bool) (p : nat) :
  take (isfinite o) pores = Ok hit ->
  let inds := compress pores hit in
  p ∈ (if 0 <? length inds then setdiff1d pores inds else pores)
  <-> p ∈ pores /\ ~ (exists q, o !! p = Some (Some q)).
Proof.
  intros H inds.
  assert (Hinds : forall p, p ∈ inds <-> p ∈ pores /\ exists q, o !! p = Some (Some q)).
  { intros p'. unfold inds. rewrite (compress_take _ _ _ _ H).
    by rewrite isfinite_lookup. }
  destruct (0 <? length inds) eqn:Hlen.
  - rewrite elem_of_setdiff1d, Hinds. tauto.
  - apply Nat.ltb_ge in Hlen.
    assert (inds = []) as Hnil by (destruct inds; [done|simpl in Hlen; lia]).
    split.
    + intros Hp. split; [done|]. intros Hq.
      assert (p ∈ inds) as Hin by (apply Hinds; done).
      rewrite Hnil in Hin. by apply elem_of_nil in Hin.
    + tauto.
Qed.

Lemma put_Ok_inv (a : list (option Q)) (idx : list nat) (values : ndvalues)
    (a' : list (option Q)) :
  put a idx values = Ok a' ->
  exists vs, broadcast_to values (length idx) = Ok vs /\ a' = scatter a idx vs.
Proof.
  unfold put. destruct (forallb _ idx); [|discriminate].
  destruct (broadcast_to values (length idx)) as [vs|]; simpl; [|discriminate].
  intros H. inversion H. eauto.
Qed.

Lemma put_length (a : list (option Q)) (idx : list nat) (values : ndvalues)
    (a' : list (option Q)) :
  put a idx values = Ok a' -> length a' = length a.
Proof.
  intros H. apply put_Ok_inv in H as (vs & _ & ->). apply length_scatter.
Qed.

Lemma put_scalar_Ok (a : list (option Q)) (idx : list nat) (v : option Q) :
  (forall i, i ∈ idx -> i < length a) ->
  put a idx (Scalar v) = Ok (scatter a idx (replicate (length idx) v)).
Proof.
  intros H. unfold put.
  replace (forallb (fun i => i <? length a) idx) with true; [done|].
  symmetry. apply forallb_forall. intros i Hi.
  apply Nat.ltb_lt, H. by apply list_elem_of_In.
Qed.

(** Clearing by [np.nan] leaves no finite entry. *)
Lemma all_nan_lookup (n i : nat) (q : Q) : all_nan n !! i <> Some (Some q).
Proof.
  unfold all_nan. intros H. apply lookup_replicate in H as [? _]. discriminate.
Qed.

Lemma put_nan_finite (a : list (option Q)) (idx : list nat) (a' : list (option Q))
    (i : nat) (q : Q) :
  put a idx (Scalar None) = Ok a' ->
  a' !! i = Some (Some q) -> a !! i = Some (Some q).
Proof.
  intros H Hi. apply put_Ok_inv in H as (vs & Hvs & ->).
  simpl in Hvs. inversion Hvs; subst vs.
  destruct (scatter_lookup_cases a idx (replicate (length idx) None) i)
    as [Heq|(_ & w & Hw & Heq)].
  - by rewrite <- Heq.
  - apply elem_of_replicate in Hw as [-> _]. congruence.
Qed.

(** ** The boundary-condition store *)

Lemma bc_set_bc_same (t : bctype) (a : list (option Q)) (self : GenericTransport) :
  bc t (set_bc t a self) = a.
Proof. by destruct t. Qed.

Lemma bc_set_bc_other (t : bctype) (a : list (option Q)) (self : GenericTransport) :
  bc (othertype t) (set_bc t a self) = bc (othertype t) self.
Proof. by destruct t. Qed.

Lemma Np_set_bc (t : bctype) (a : list (option Q)) (self : GenericTransport) :
  Np (set_bc t a self) = Np self.
Proof. by destruct t. Qed.

Lemma one_kind_by_type (t : bctype) (self : GenericTransport) :
  one_kind self <->
  forall i, ~ (has_bc t self i /\ has_bc (othertype t) self i).
Proof.
  unfold one_kind. destruct t; simpl; split; intros H i [? ?]; apply (H i); auto.
Qed.

Lemma one_kind_init (n : nat) : one_kind (init n).
Proof.
  intros i [[q Hq] _]. simpl in Hq. by apply all_nan_lookup in Hq.
Qed.

Lemma one_kind_clear (t : bctype) (self : GenericTransport) (n : nat) :
  one_kind (set_bc t (all_nan n) self).
Proof.
  apply (one_kind_by_type t). intros i [[q Hq] _].
  rewrite bc_set_bc_same in Hq. by apply all_nan_lookup in Hq.
Qed.

Lemma one_kind__set_BC (self : GenericTransport) (pores : list nat) (t : bctype)
    (values : ndvalues) (m : mode) :
  one_kind self -> one_kind (_set_BC self pores t values m).1.
Proof.
  intros Hinv. unfold _set_BC.
  destruct (_ && _); [done|].
  set (self1 := match m with merge => self | overwrite => _ end).
  assert (Hinv1 : one_kind self1).
  { destruct m; [done|]. apply one_kind_clear. }
  destruct (take _ pores) as [hit|] eqn:Htake; [|done].
  destruct (put _ _ values) as [a|] eqn:Hput; [|done].
  simpl. apply (one_kind_by_type t). intros i [[q Hq] [r Hr]].
  rewrite bc_set_bc_same in Hq. rewrite bc_set_bc_other in Hr.
  apply put_Ok_inv in Hput as (vs & _ & ->).
  destruct (scatter_lookup_cases (bc t self1)
              (if 0 <? length (compress pores hit)
               then setdiff1d pores (compress pores hit) else pores) vs i)
    as [Heq|(Hin & _)].
  - apply (proj1 (one_kind_by_type t self1) Hinv1 i).
    split; [exists q; congruence|by exists r].
  - apply (targets_spec _ _ _ _ Htake) in Hin as [_ Hno]. apply Hno. eauto.
Qed.

Lemma one_kind_remove_BC (self : GenericTransport) (pores : option (list nat))
    (sel : list bcsel) :
  one_kind self -> one_kind (remove_BC self pores sel).1.
Proof.
  intros Hinv. unfold remove_BC.
  set (ps := match pores with Some ps => ps | None => _ end).
  set (sel' := if existsb _ sel then _ else sel).
  assert (Hnan : forall t s, one_kind s -> one_kind (nan_at s t ps).1).
  { intros t s Hs. unfold nan_at.
    destruct (put (bc t s) ps (Scalar None)) as [a|] eqn:Hput; [|done].
    simpl. apply (one_kind_by_type t). intros i [[q Hq] [r Hr]].
    rewrite bc_set_bc_same in Hq. rewrite bc_set_bc_other in Hr.
    apply (put_nan_finite _ _ _ _ _ Hput) in Hq.
    apply (proj1 (one_kind_by_type t s) Hs i). split; [by exists q|by exists r]. }
  assert (H1 : one_kind (if existsb (bcsel_eqb sel_value) sel'
                         then nan_at self Value ps else (self, Ok tt)).1).
  { destruct (existsb (bcsel_eqb sel_value) sel'); [by apply Hnan|done]. }
  destruct (if existsb (bcsel_eqb sel_value) sel' then _ else _) as [s1 [[]|e]];
    [|done].
  destruct (existsb (bcsel_eqb sel_rate) sel'); [by apply Hnan|done].
Qed.

Lemma one_kind_reset (self : GenericTransport) (bcs results : bool) :
  one_kind self -> one_kind (reset self bcs results).
Proof.
  intros Hinv i [[q Hq] [r Hr]]. simpl in Hq, Hr. destruct bcs.
  - by apply all_nan_lookup in Hq.
  - apply (Hinv i). split; [by exists q|by exists r].
Qed.

Lemma one_kind_after (self : GenericTransport) (c : call) :
  one_kind self -> one_kind (after self c).
Proof.
  intros Hinv. destruct c as [pores values m|pores args m|pores sel|bcs results]; simpl.
  - by apply one_kind__set_BC.
  - unfold set_rate_BC. destruct args as [rates|total_rate|rates total_rate].
    + by apply one_kind__set_BC.
    + destruct (length pores =? 0); [done|]. by apply one_kind__set_BC.
    + done.
  - by apply one_kind_remove_BC.
  - by apply one_kind_reset.
Qed.

(** C3. A pore holds at most one kind of boundary condition at a time: this
    holds on the object [__init__] builds (both arrays all NaN) and after
    any sequence of calls to [set_value_BC], [set_rate_BC] (both go through
    [_set_BC], in 'merge' and in 'overwrite' mode), [remove_BC] and [reset],
    whether the calls return or raise. No reachable object has a finite
    value and a finite rate on one pore. *)
Theorem one_kind_reachable (n : nat) (self : GenericTransport) :
  reachable n self -> one_kind self.
Proof.
  induction 1 as [|self c _ IH].
  - apply one_kind_init.
  - by apply one_kind_after.
Qed.

Lemma one_kind_reachable_witness :
  one_kind
    (after (after (init 3) (call_set_value_BC [0; 1] (Scalar (Some 10%Q)) merge))
       (call_set_rate_BC [1; 2] (by_rates (Scalar (Some 5%Q))) overwrite)).
Proof.
  apply (one_kind_reachable 3).
  apply reachable_call. apply reachable_call. apply reachable_init.
Defined.

Lemma length_remove_dups (l : list nat) : length (remove_dups l) <= length l.
Proof.
  induction l as [|a l IH]; simpl; [done|].
  destruct (decide_rel elem_of a l); simpl; lia.
Qed.

Lemma length_list_difference (l k : list nat) (p : nat) :
  p ∈ l -> p ∈ k -> length (list_difference l k) < length l.
Proof.
  intros Hl Hk. induction l as [|a l IH]; [by apply elem_of_nil in Hl|].
  assert (Hle : forall l', length (list_difference l' k) <= length l').
  { induction l' as [|b l' IH']; simpl; [done|].
    destruct (decide_rel elem_of b k); simpl; lia. }
  simpl. destruct (decide_rel elem_of a k) as [Ha|Ha].
  - specialize (Hle l). lia.
  - apply elem_of_cons in Hl as [->|Hl]; [done|]. simpl. specialize (IH Hl). lia.
Qed.

(** What [_set_BC] does once the number of values has been accepted. *)
Lemma _set_BC_unfold (self : GenericTransport) (pores : list nat) (t : bctype)
    (values : ndvalues) (m : mode) :
  size values <= 1 \/ size values = length pores ->
  let self1 := match m with
               | merge => self
               | overwrite => set_bc t (all_nan (Np self)) self
               end in
  _set_BC self pores t values m =
  match take (isfinite (bc (othertype t) self1)) pores with
  | Raise e => (self1, Raise e)
  | Ok hit =>
      let inds := compress pores hit in
      let pores' := if 0 <? length inds then setdiff1d pores inds else pores in
      match put (bc t self1) pores' values with
      | Raise e => (self1, Raise e)
      | Ok a => (set_bc t a self1, Ok inds)
      end
  end.
Proof.
  intros Hsize. unfold _set_BC.
  replace ((1 <? size values) && negb (size values =? length pores)) with false; [done|].
  symmetry. apply andb_false_iff. destruct Hsize as [H|H].
  - left. apply Nat.ltb_ge. lia.
  - right. apply negb_false_iff, Nat.eqb_eq. done.
Qed.

(** The skipped pores [_set_BC] reports are the given pores that carry the
    other kind. *)
Lemma inds_spec (o : list (option Q)) (pores : list nat) (hit : list bool) (p : nat) :
  take (isfinite o) pores = Ok hit ->
  p ∈ compress pores hit <-> p ∈ pores /\ exists q, o !! p = Some (Some q).
Proof.
  intros H. rewrite (compress_take _ _ _ _ H). by rewrite isfinite_lookup.
Qed.

(** A call in 'merge' mode with one scalar for all pores: it returns, the
    pores that carry the other kind are reported and keep what they have,
    the other given pores receive the scalar, and nothing else changes. *)
Lemma _set_BC_merge_scalar (self : GenericTransport) (pores : list nat) (t : bctype)
    (v : option Q) :
  length (bc t self) = length (bc (othertype t) self) ->
  (forall p, p ∈ pores -> p < length (bc t self)) ->
  exists self' inds,
    _set_BC self pores t (Scalar v) merge = (self', Ok inds)
    /\ (forall p, p ∈ inds <-> p ∈ pores /\ has_bc (othertype t) self p)
    /\ bc (othertype t) self' = bc (othertype t) self
    /\ (forall p, p ∈ pores -> ~ has_bc (othertype t) self p -> bc t self' !! p = Some v)
    /\ (forall i, i ∉ pores \/ has_bc (othertype t) self i ->
                  bc t self' !! i = bc t self !! i).
Proof.
  intros Hlen Hrange.
  rewrite _set_BC_unfold by (left; simpl; lia). simpl.
  destruct (take_total (isfinite (bc (othertype t) self)) pores) as [hit Htake].
  { intros p Hp. unfold isfinite. rewrite length_map, <- Hlen. by apply Hrange. }
  rewrite Htake.
  set (inds := compress pores hit).
  set (pores' := if 0 <? length inds then setdiff1d pores inds else pores).
  assert (Htargets : forall p, p ∈ pores' <->
            p ∈ pores /\ ~ has_bc (othertype t) self p).
  { intros p. apply (targets_spec _ _ _ p Htake). }
  rewrite put_scalar_Ok by (intros i Hi; apply Hrange, Htargets, Hi).
  eexists _, _. split; [reflexivity|]. split; [|split; [|split]].
  - intros p. apply (inds_spec _ _ _ p Htake).
  - apply bc_set_bc_other.
  - intros p Hp Hno. rewrite bc_set_bc_same.
    apply scatter_replicate; [by apply Htargets|by apply Hrange].
  - intros i Hi. rewrite bc_set_bc_same. apply scatter_lookup_notin.
    rewrite Htargets. tauto.
Qed.

(** A call in 'merge' mode with one value per pore (more than one): as soon
    as one given pore carries the other kind the call raises, because the
    pores are filtered and the values are not. *)
Lemma _set_BC_merge_vector_conflict (self : GenericTransport) (pores : list nat)
    (t : bctype) (vs : list (option Q)) (p : nat) :
  length vs = length pores -> 1 < length vs ->
  length (bc t self) = length (bc (othertype t) self) ->
  (forall p, p ∈ pores -> p < length (bc t self)) ->
  p ∈ pores -> has_bc (othertype t) self p ->
  _set_BC self pores t (Vector vs) merge = (self, Raise ValueError).
Proof.
  intros Hlen Hbig Hsame Hrange Hp Hbc.
  rewrite _set_BC_unfold by (right; done). simpl.
  destruct (take_total (isfinite (bc (othertype t) self)) pores) as [hit Htake].
  { intros i Hi. unfold isfinite. rewrite length_map, <- Hsame. by apply Hrange. }
  rewrite Htake.
  assert (Hin : p ∈ compress pores hit) by (apply (inds_spec _ _ _ p Htake); done).
  assert ((0 <? length (compress pores hit)) = true) as ->.
  { apply Nat.ltb_lt. destruct (compress pores hit); [by apply elem_of_nil in Hin|simpl; lia]. }
  assert (Hshort : length (setdiff1d pores (compress pores hit)) < length pores).
  { unfold setdiff1d. rewrite (merge_sort_Permutation le).
    eapply Nat.le_lt_trans; [apply length_remove_dups|].
    by apply (length_list_difference _ _ p). }
  unfold put.
  replace (forallb _ _) with true.
  2:{ symmetry. apply forallb_forall. intros i Hi. apply list_elem_of_In in Hi.
      apply elem_of_setdiff1d in Hi as [Hi _]. apply Nat.ltb_lt.
      by apply Hrange. }
  simpl.
  assert ((length vs =? length (setdiff1d pores (compress pores hit))) = false) as ->.
  { apply Nat.eqb_neq. lia. }
  destruct vs as [|v1 [|v2 vs]]; simpl in Hbig; [lia|lia|done].
Qed.

(** C4. In 'merge' mode a call that gives one value per pore and meets a
    pore carrying the other kind should skip that pore, warn, and write the
    rest. Here pore 0 holds a value and [set_rate_BC] is given pores 0, 1
    with rates 5, 6: the call raises numpy's shape-mismatch error and pore 1
    does not receive its rate. *)
Theorem merge_array_conflict_raises :
  let self := (set_value_BC (init 3) [0] (Scalar (Some 10%Q)) merge).1 in
  set_rate_BC self [0; 1] (by_rates (Vector [Some 5%Q; Some 6%Q])) merge
  = (self, Raise ValueError)
  /\ bc_rate self !! 1 = Some None.
Proof. split; reflexivity. Qed.

(** C7. In 'overwrite' mode, once the number of values has been accepted,
    [_set_BC] first clears the targeted kind on all pores and then does what
    'merge' mode does on the cleared object: the other kind is left as it
    was, every pore outside the given ones ends without the targeted kind,
    a given pore that carries the other kind is not written (and is among
    the reported pores when the call returns), and with one scalar for all
    pores every other given pore receives it. *)
Theorem overwrite_clears_then_merges (self : GenericTransport) (pores : list nat)
    (t : bctype) (values : ndvalues) :
  size values <= 1 \/ size values = length pores ->
  let cleared := set_bc t (all_nan (Np self)) self in
  let out := _set_BC self pores t values overwrite in
  out = _set_BC cleared pores t values merge
  /\ bc (othertype t) out.1 = bc (othertype t) self
  /\ (forall i, i ∉ pores -> ~ has_bc t out.1 i)
  /\ (forall i, has_bc (othertype t) self i -> ~ has_bc t out.1 i)
  /\ (forall inds, out.2 = Ok inds ->
        forall p, p ∈ inds <-> p ∈ pores /\ has_bc (othertype t) self p)
  /\ (forall v inds, values = Scalar v -> out.2 = Ok inds ->
        forall p, p ∈ pores -> ~ has_bc (othertype t) self p ->
                  bc t out.1 !! p = Some v).
Proof.
  intros Hsize cleared out.
  assert (Hout : out = _set_BC cleared pores t values merge).
  { unfold out. by rewrite !_set_BC_unfold. }
  split; [done|].
  assert (Hother : bc (othertype t) cleared = bc (othertype t) self)
    by apply bc_set_bc_other.
  assert (Hclear : forall i, ~ has_bc t cleared i).
  { intros i [q Hq]. unfold cleared in Hq. rewrite bc_set_bc_same in Hq.
    by apply all_nan_lookup in Hq. }
  rewrite Hout, _set_BC_unfold by done. simpl. rewrite Hother.
  destruct (take _ pores) as [hit|e] eqn:Htake; simpl.
  2:{ repeat split; try done; intros; by apply Hclear. }
  set (inds := compress pores hit).
  set (pores' := if 0 <? length inds then setdiff1d pores inds else pores).
  assert (Htargets : forall p, p ∈ pores' <->
            p ∈ pores /\ ~ has_bc (othertype t) self p).
  { intros p. apply (targets_spec _ _ _ p Htake). }
  destruct (put (bc t cleared) pores' values) as [a|e] eqn:Hput; simpl.
  2:{ repeat split; try done; intros; by apply Hclear. }
  pose proof Hput as Hput'. apply put_Ok_inv in Hput' as (vs & Hvs & ->).
  rewrite bc_set_bc_other, Hother.
  assert (Hkeep : forall i, i ∉ pores' -> ~ has_bc t (set_bc t (scatter (bc t cleared) pores' vs) cleared) i).
  { intros i Hi [q Hq]. rewrite bc_set_bc_same, scatter_lookup_notin in Hq by done.
    apply (Hclear i). by exists q. }
  split; [done|]. split; [|split; [|split]].
  - intros i Hi. apply Hkeep. rewrite Htargets. tauto.
  - intros i Hi. apply Hkeep. rewrite Htargets. tauto.
  - intros inds' Heq p. inversion Heq; subst inds'. apply (inds_spec _ _ _ p Htake).
  - intros v inds' -> _ p Hp Hno. rewrite bc_set_bc_same.
    simpl in Hvs. inversion Hvs; subst vs.
    unfold put in Hput. destruct (forallb _ pores') eqn:Hrange; [|discriminate].
    apply scatter_replicate; [by apply Htargets|].
    rewrite forallb_forall in Hrange. apply Nat.ltb_lt, Hrange.
    apply list_elem_of_In. by apply Htargets.
Qed.

Lemma overwrite_clears_then_merges_witness :
  let self := (set_value_BC (init 3) [0; 1] (Scalar (Some 10%Q)) merge).1 in
  let out := _set_BC self [1; 2] Rate (Scalar (Some 5%Q)) overwrite in
  bc Value out.1 = bc Value self /\ out.2 = Ok [1].
Proof.
  intros self out.
  destruct (overwrite_clears_then_merges self [1; 2] Rate (Scalar (Some 5%Q)))
    as (_ & H & _).
  - left. simpl. lia.
  - split; [exact H|reflexivity].
Defined.

(** ** Settings *)

(** [_validate_settings] raises exactly when a setting holds [None]. *)
Lemma _validate_settings_raises (settings : GenericTransportSettings) :
  raises (_validate_settings settings) <->
  quantity settings = None \/ conductance settings = None \/ phase settings = None.
Proof.
  unfold _validate_settings.
  destruct (quantity settings), (conductance settings), (phase settings);
    simpl; intuition congruence.
Qed.

(** When [_validate_settings] raises, [run] raises the same exception and
    leaves the object as it was. *)
Lemma run_fails_fast
    (health : GenericTransport -> GenericTransport * result unit)
    (solve : coo_matrix -> list Q -> list Q -> list Q * nat)
    (self : GenericTransport) (settings : GenericTransportSettings)
    (conns : list (nat * nat)) (g : list Q) (x0 : option (list Q)) (e : exn) :
  _validate_settings settings = Raise e ->
  run health solve self settings conns g x0 = (self, Raise e).
Proof. intros H. unfold run. by rewrite H. Qed.

(** C6. [run] should fail fast when quantity, conductance or phase is still
    at its unset default. The unset default of the three settings is the
    empty string, and [_validate_settings] only looks for [None]: on the
    settings of a fresh algorithm, where quantity and conductance were never
    configured, it returns without raising, and [run] goes on to the health
    checks. *)
Theorem _validate_settings_misses_defaults
    (health : GenericTransport -> GenericTransport * result unit)
    (solve : coo_matrix -> list Q -> list Q -> list Q * nat)
    (self : GenericTransport) (phase_name : string)
    (conns : list (nat * nat)) (g : list Q) (x0 : option (list Q)) (e : exn) :
  let settings := init_settings phase_name in
  quantity settings = quantity default_settings
  /\ conductance settings = conductance default_settings
  /\ _validate_settings settings = Ok tt
  /\ _validate_settings default_settings = Ok tt
  /\ (health self = (self, Raise e) ->
      run health solve self settings conns g x0 = (self, Raise e)).
Proof.
  repeat split. intros H. unfold run. simpl. by rewrite H.
Qed.

(** ** Rates *)

Lemma length_pos_iff {A : Type} (l : list A) : (0 <? length l) = true <-> l <> [].
Proof. destruct l; simpl; split; intros; done. Qed.

Lemma bind_not_Exception {A B : Type} (r : result A) (k : A -> result B) :
  (forall msg, r <> Raise (Exception msg)) ->
  (forall a msg, k a <> Raise (Exception msg)) ->
  forall msg, bind r k <> Raise (Exception msg).
Proof.
  intros Hr Hk msg. destruct r as [a|e]; simpl; [apply Hk|].
  intros H. apply (Hr msg). by inversion H.
Qed.

Lemma take_not_Exception {A : Type} (a : list A) (idx : list nat) (msg : string) :
  take a idx <> Raise (Exception msg).
Proof.
  induction idx as [|i idx IH]; simpl; [done|].
  destruct (a !! i); [|done]. by destruct (take a idx).
Qed.

Lemma take_ends_not_Exception (quantity : list Q) (P12 : list (nat * nat)) (msg : string) :
  take_ends quantity P12 <> Raise (Exception msg).
Proof.
  unfold take_ends. apply bind_not_Exception; [apply take_not_Exception|].
  intros X1 msg'. apply bind_not_Exception; [apply take_not_Exception|done].
Qed.

Lemma throat_rates_not_Exception (Nt : nat) (g : conductance_array)
    (X12 : list (Q * Q)) (msg : string) :
  throat_rates Nt g X12 <> Raise (Exception msg).
Proof.
  unfold throat_rates. destruct g as [g|g]; simpl; [done|].
  by destruct (Nt =? 0).
Qed.

Lemma add_at_not_Exception (a : list Q) (idx : list nat) (v : list Q) (msg : string) :
  add_at a idx v <> Raise (Exception msg).
Proof. unfold add_at. by destruct (forallb _ idx). Qed.

(** C8. [rate] raises its argument exception when pores and throats are
    both given and when neither is; when exactly one of them is given it
    does not raise an argument exception (what it can still raise is numpy's
    error for an index out of range or a shape that does not fit). *)
Theorem rate_argument_check (N : nat) (P12 : list (nat * nat)) (g : conductance_array)
    (quantity : list Q) (pores throats : list nat) (mode : string) :
  let r := rate N P12 g quantity pores throats mode in
  (pores <> [] /\ throats <> [] ->
     r = Raise (Exception "Must specify either pores or throats, not both"))
  /\ (pores = [] /\ throats = [] ->
     r = Raise (Exception "Must specify either pores or throats"))
  /\ (forall msg, r = Raise (Exception msg) ->
     (pores <> [] /\ throats <> []) \/ (pores = [] /\ throats = [])).
Proof.
  intros r. unfold r, rate. split; [|split].
  - intros [Hp Ht].
    apply length_pos_iff in Hp, Ht. by rewrite Hp, Ht.
  - intros [-> ->]. done.
  - intros msg.
    destruct ((0 <? length throats) && (0 <? length pores)) eqn:Hboth.
    { intros _. left. apply andb_true_iff in Hboth as [Ht Hp].
      by rewrite <- !length_pos_iff. }
    destruct ((length throats =? length pores) && (length pores =? 0)) eqn:Hnone.
    { intros _. right. apply andb_true_iff in Hnone as [Ht Hp].
      apply Nat.eqb_eq in Ht, Hp. rewrite Hp in Ht.
      split; by apply length_zero_iff_nil. }
    intros H. exfalso. revert H.
    apply bind_not_Exception; [apply take_ends_not_Exception|]. intros X12 ?.
    apply bind_not_Exception; [apply throat_rates_not_Exception|]. intros Qt ?.
    destruct (0 <? length throats).
    + apply bind_not_Exception; [|done].
      intros ?. destruct Qt; [done|apply take_not_Exception].
    + apply bind_not_Exception; [apply add_at_not_Exception|]. intros Qp1 ?.
      apply bind_not_Exception; [apply add_at_not_Exception|]. intros Qp2 ?.
      apply bind_not_Exception; [apply take_not_Exception|done].
Qed.

(** C10. Whenever [rate] returns, what it returns is of dimension 1, never
    a bare number: in 'group' mode it is the one-element array holding the
    sum of the rates of the requested pores (or throats), in any other mode
    it is those rates themselves, one per requested pore (or throat). *)
Theorem rate_returns_array (N : nat) (P12 : list (nat * nat)) (g : conductance_array)
    (quantity : list Q) (pores throats : list nat) (mode : string) (r : ndarray) :
  rate N P12 g quantity pores throats mode = Ok r ->
  exists R : list Q,
    rate N P12 g quantity pores throats "single" = Ok (dim1 R)
    /\ length R = length pores + length throats
    /\ (pores = [] \/ throats = [])
    /\ r = dim1 (if String.eqb mode "group" then [Qsum R] else R).
Proof.
  unfold rate.
  destruct ((0 <? length throats) && (0 <? length pores)) eqn:Hboth; [done|].
  destruct ((length throats =? length pores) && (length pores =? 0)); [done|].
  destruct (take_ends quantity P12) as [X12|]; simpl; [|done].
  destruct (throat_rates (length P12) g X12) as [Qt|]; simpl; [|done].
  destruct (0 <? length throats) eqn:Ht.
  - simpl in Hboth. apply Nat.ltb_ge in Hboth.
    assert (pores = []) as -> by (destruct pores; [done|simpl in Hboth; lia]).
    destruct Qt as [q|l]; simpl; [done|].
    destruct (take l throats) as [R|] eqn:HR; simpl; [|done].
    intros H. exists (map Qabs R). split; [done|]. split; [|split; [by left|]].
    + rewrite length_map. by apply take_length in HR.
    + unfold group_if in H. destruct (String.eqb mode "group"); by inversion H.
  - apply Nat.ltb_ge in Ht.
    assert (throats = []) as -> by (destruct throats; [done|simpl in Ht; lia]).
    destruct (add_at _ (map fst P12) _) as [Qp1|]; simpl; [|done].
    destruct (add_at Qp1 (map snd P12) _) as [Qp2|]; simpl; [|done].
    destruct (take Qp2 pores) as [R|] eqn:HR; simpl; [|done].
    intros H. exists R. split; [done|]. split; [|split; [by right|]].
    + apply take_length in HR. simpl. lia.
    + unfold group_if in H. destruct (String.eqb mode "group"); by inversion H.
Qed.

Lemma rate_returns_array_witness :
  exists R : list Q,
    rate 3 [(0, 1); (1, 2)] (per_throat [1%Q; 1%Q]) [10%Q; 5%Q; 0%Q] [0; 2] [] "single"
      = Ok (dim1 R)
    /\ length R = 2.
Proof.
  destruct (rate_returns_array 3 [(0, 1); (1, 2)] (per_throat [1%Q; 1%Q])
              [10%Q; 5%Q; 0%Q] [0; 2] [] "group" (dim1 [0%Q]) eq_refl)
    as (R & H1 & H2 & _).
  exists R. split; [exact H1|exact H2].
Defined.

(** ** Sums of rationals *)

Local Open Scope Q_scope.

Lemma Qsum_app (l1 l2 : list Q) : Qsum (l1 ++ l2) == Qsum l1 + Qsum l2.
Proof.
  induction l1 as [|a l1 IH]; simpl.
  - ring.
  - rewrite IH. ring.
Qed.

Lemma Qsum_ext {A : Type} (f g : A -> Q) (l : list A) :
  (forall a, a ∈ l -> f a == g a) -> Qsum (map f l) == Qsum (map g l).
Proof.
  induction l as [|a l IH]; intros H; simpl.
  - reflexivity.
  - rewrite (H a) by (by left). rewrite IH; [reflexivity|].
    intros b Hb. apply H. by right.
Qed.

Lemma Qsum_zero {A : Type} (f : A -> Q) (l : list A) :
  (forall a, a ∈ l -> f a == 0) -> Qsum (map f l) == 0.
Proof.
  intros H. rewrite (Qsum_ext f (fun _ => 0) l H).
  clear H. induction l as [|a l IH]; simpl; [reflexivity|]. rewrite IH. ring.
Qed.

Lemma Qsum_plus {A : Type} (f g : A -> Q) (l : list A) :
  Qsum (map (fun a => f a + g a) l) == Qsum (map f l) + Qsum (map g l).
Proof.
  induction l as [|a l IH]; simpl.
  - ring.
  - rewrite IH. ring.
Qed.

Lemma Qsum_opp {A : Type} (f : A -> Q) (l : list A) :
  Qsum (map (fun a => - f a) l) == - Qsum (map f l).
Proof.
  induction l as [|a l IH]; simpl.
  - ring.
  - rewrite IH. ring.
Qed.

Lemma Qsum_swap {A B : Type} (F : A -> B -> Q) (la : list A) (lb : list B) :
  Qsum (map (fun a => Qsum (map (F a) lb)) la)
  == Qsum (map (fun b => Qsum (map (fun a => F a b) la)) lb).
Proof.
  induction la as [|a la IH]; simpl.
  - symmetry. by apply Qsum_zero.
  - rewrite IH. symmetry. apply Qsum_plus.
Qed.

Lemma Qsum_filter {A : Type} (f : A -> Q) (p : A -> bool) (l : list A) :
  Qsum (map f (List.filter p l)) == Qsum (map (fun a => if p a then f a else 0) l).
Proof.
  induction l as [|a l IH]; simpl; [reflexivity|].
  destruct (p a); simpl; rewrite IH; ring.
Qed.

(** A sum over [0 .. n-1] that is zero except at one place. *)
Lemma Qsum_pick (n k : nat) (f : nat -> Q) :
  Qsum (map (fun j => if (j =? k)%nat then f j else 0) (seq 0 n))
  == if (k <? n)%nat then f k else 0.
Proof.
  induction n as [|n IH].
  - reflexivity.
  - rewrite seq_S, map_app, Qsum_app, IH. simpl.
    destruct (Nat.eqb_spec n k) as [->|Hne].
    + rewrite Nat.ltb_irrefl.
      assert ((k <? S k)%nat = true) as -> by (apply Nat.ltb_lt; lia). ring.
    + destruct (Nat.ltb_spec k n), (Nat.ltb_spec k (S n)); try lia; ring.
Qed.

Lemma Qsum_nonneg {A : Type} (f : A -> Q) (l : list A) :
  (forall a, a ∈ l -> 0 <= f a) -> 0 <= Qsum (map f l).
Proof.
  induction l as [|a l IH]; intros H; simpl.
  - apply Qle_refl.
  - apply Qle_trans with (0 + 0); [by rewrite Qplus_0_l; apply Qle_refl|].
    apply Qplus_le_compat; [apply H; by left|].
    apply IH. intros b Hb. apply H. by right.
Qed.

(** ** Sparse matrices *)

Lemma sum_at_app (sel : nat -> nat -> bool) (ts1 ts2 : list (nat * nat * Q)) :
  sum_at sel (ts1 ++ ts2) == sum_at sel ts1 + sum_at sel ts2.
Proof. unfold sum_at. rewrite map_app. apply Qsum_app. Qed.

Lemma entry_eliminate_zeros (A : coo_matrix) (i j : nat) :
  entry (eliminate_zeros A) i j == entry A i j.
Proof.
  unfold entry, sum_at, eliminate_zeros; simpl.
  rewrite Qsum_filter. apply Qsum_ext. intros t _.
  destruct (Qeq_bool t.2 0) eqn:Hz; simpl; [|reflexivity].
  apply Qeq_bool_eq in Hz. destruct (_ && _); [by rewrite Hz|reflexivity].
Qed.

Lemma entry_setdiag (A : coo_matrix) (v : list Q) (i j : nat) :
  entry (setdiag A v) i j ==
  if (i =? j)%nat
  then (if (i <? Nat.min (shape A) (length v))%nat then nth i v 0 else entry A i i)
  else entry A i j.
Proof.
  unfold entry, setdiag; simpl. set (mx := Nat.min (shape A) (length v)).
  rewrite sum_at_app. unfold sum_at. rewrite Qsum_filter, map_map. simpl.
  destruct (Nat.eqb_spec i j) as [<-|Hne].
  - rewrite (Qsum_ext _ (fun k => if (k =? i)%nat then nth k v 0 else 0) (seq 0 mx)).
    2:{ intros k _. destruct (Nat.eqb_spec k i); simpl; reflexivity. }
    rewrite Qsum_pick. destruct (Nat.ltb_spec i mx) as [Hlt|Hge].
    + rewrite Qsum_zero; [ring|]. intros t _.
      destruct (Nat.eqb_spec t.1.1 i) as [Hr|]; simpl;
        [destruct (Nat.eqb_spec t.1.2 i) as [Hc|]; simpl|].
      * rewrite Hr, Hc, Nat.eqb_refl. simpl.
        destruct (Nat.leb_spec mx i); [lia|reflexivity].
      * destruct (_ || _); reflexivity.
      * destruct (_ || _); reflexivity.
    + rewrite Qplus_0_r. apply Qsum_ext. intros t _.
      destruct (Nat.eqb_spec t.1.1 i) as [Hr|]; simpl;
        [destruct (Nat.eqb_spec t.1.2 i) as [Hc|]; simpl|].
      * rewrite Hr, Hc, Nat.eqb_refl. simpl.
        destruct (Nat.leb_spec mx i); [reflexivity|lia].
      * destruct (_ || _); reflexivity.
      * destruct (_ || _); reflexivity.
  - rewrite (Qsum_zero _ (seq 0 mx)).
    2:{ intros k _. destruct (Nat.eqb_spec k i), (Nat.eqb_spec k j); simpl;
          try reflexivity. lia. }
    rewrite Qplus_0_r. apply Qsum_ext. intros t _.
    destruct (Nat.eqb_spec t.1.1 i) as [Hr|]; simpl;
      [destruct (Nat.eqb_spec t.1.2 j) as [Hc|]; simpl|].
    + destruct (Nat.eqb_spec t.1.1 t.1.2); [lia|]. reflexivity.
    + destruct (_ || _); reflexivity.
    + destruct (_ || _); reflexivity.
Qed.

Lemma length_diagonal (A : coo_matrix) : length (diagonal A) = shape A.
Proof. unfold diagonal. by rewrite length_map, length_seq. Qed.

Lemma length_sum_axis0 (A : coo_matrix) : length (sum_axis0 A) = shape A.
Proof. unfold sum_axis0. by rewrite length_map, length_seq. Qed.

Lemma nth_map_seq (f : nat -> Q) (n i : nat) :
  (i < n)%nat -> nth i (map f (seq 0 n)) 0 = f i.
Proof.
  intros Hi. rewrite (nth_indep _ 0 (f 0%nat)) by (by rewrite length_map, length_seq).
  rewrite (map_nth f). by rewrite seq_nth.
Qed.

Lemma nth_diagonal (A : coo_matrix) (i : nat) :
  (i < shape A)%nat -> nth i (diagonal A) 0 = entry A i i.
Proof. intros Hi. by apply (nth_map_seq (fun k => entry A k k)). Qed.

(** The sum of row [i] over the columns of the matrix, for a matrix whose
    stored columns are in range. *)
Lemma row_sum (ts : list (nat * nat * Q)) (N i : nat) :
  Forall (fun t => (t.1.2 < N)%nat) ts ->
  Qsum (map (fun j => sum_at (fun r c => (r =? i)%nat && (c =? j)%nat) ts) (seq 0 N))
  == sum_at (fun r _ => (r =? i)%nat) ts.
Proof.
  intros Hin. unfold sum_at. rewrite Qsum_swap. apply Qsum_ext. intros t Ht.
  rewrite Forall_forall in Hin. specialize (Hin t Ht).
  destruct (Nat.eqb_spec t.1.1 i); simpl.
  - rewrite (Qsum_ext _ (fun j => if (j =? t.1.2)%nat then t.2 else 0)).
    + rewrite Qsum_pick. destruct (Nat.ltb_spec t.1.2 N); [reflexivity|lia].
    + intros j _. rewrite Nat.eqb_sym. reflexivity.
  - by apply Qsum_zero.
Qed.

(** ** The adjacency matrix and its Laplacian *)

Lemma create_adjacency_matrix_Ok (N : nat) (conns : list (nat * nat)) (g : list Q)
    (am : coo_matrix) :
  create_adjacency_matrix N conns g = Ok am ->
  shape am = N
  /\ triples am = zip_with (fun e w => (e.1, e.2, w)) conns g
                  ++ zip_with (fun e w => (e.2, e.1, w)) conns g
  /\ Forall (fun e => (e.1 < N)%nat /\ (e.2 < N)%nat) conns.
Proof.
  unfold create_adjacency_matrix. destruct (negb _); [done|].
  destruct (forallb _ conns) eqn:Hin; [|done].
  intros H. inversion H; subst; simpl. repeat split.
  apply Forall_forall. intros e He. rewrite forallb_forall in Hin.
  apply list_elem_of_In, Hin, andb_true_iff in He as [H1 H2].
  by apply Nat.ltb_lt in H1, H2.
Qed.

Lemma create_adjacency_matrix_total (N : nat) (conns : list (nat * nat)) (g : list Q) :
  length g = length conns ->
  Forall (fun e => (e.1 < N)%nat /\ (e.2 < N)%nat) conns ->
  exists am, create_adjacency_matrix N conns g = Ok am.
Proof.
  intros Hlen Hin. unfold create_adjacency_matrix.
  rewrite Hlen, Nat.eqb_refl. simpl.
  replace (forallb _ conns) with true; [by eexists|].
  symmetry. apply forallb_forall. intros e He.
  rewrite Forall_forall in Hin. apply list_elem_of_In, Hin in He as [H1 H2].
  apply andb_true_iff. by rewrite !Nat.ltb_lt.
Qed.

Lemma sum_at_transposed (sel : nat -> nat -> bool) (conns : list (nat * nat)) (g : list Q) :
  sum_at sel (zip_with (fun e w => (e.2, e.1, w)) conns g)
  == sum_at (fun r c => sel c r) (zip_with (fun e w => (e.1, e.2, w)) conns g).
Proof.
  unfold sum_at. revert g. induction conns as [|e conns IH]; intros [|w g]; simpl;
    try reflexivity.
  by rewrite IH.
Qed.

(** Every edge is stored in both directions: a sum over the stored places
    does not change when rows and columns are exchanged. *)
Lemma adjacency_transpose (N : nat) (conns : list (nat * nat)) (g : list Q)
    (am : coo_matrix) (sel : nat -> nat -> bool) :
  create_adjacency_matrix N conns g = Ok am ->
  sum_at sel (triples am) == sum_at (fun r c => sel c r) (triples am).
Proof.
  intros H. apply create_adjacency_matrix_Ok in H as (_ & -> & _).
  rewrite !sum_at_app, sum_at_transposed.
  rewrite (sum_at_transposed (fun r c => sel c r)).
  unfold sum_at. cbv beta. ring.
Qed.

Lemma adjacency_in_range (N : nat) (conns : list (nat * nat)) (g : list Q)
    (am : coo_matrix) :
  create_adjacency_matrix N conns g = Ok am ->
  Forall (fun t => (t.1.2 < N)%nat) (triples am).
Proof.
  intros H. apply create_adjacency_matrix_Ok in H as (_ & -> & Hin).
  apply Forall_app. split; revert g; induction Hin as [|e conns [H1 H2] _ IH];
    intros [|w g]; simpl; try constructor; simpl; auto.
Qed.

Lemma adjacency_nonneg (N : nat) (conns : list (nat * nat)) (g : list Q)
    (am : coo_matrix) :
  create_adjacency_matrix N conns g = Ok am ->
  Forall (fun w => 0 <= w) g ->
  Forall (fun t => 0 <= t.2) (triples am).
Proof.
  intros H Hg. apply create_adjacency_matrix_Ok in H as (_ & -> & _).
  apply Forall_app. split; revert conns; induction Hg as [|w g Hw _ IH];
    intros [|e conns]; simpl; try constructor; simpl; auto.
Qed.

Lemma adjacency_entry (N : nat) (conns : list (nat * nat)) (g : list Q)
    (am : coo_matrix) (i j : nat) :
  create_adjacency_matrix N conns g = Ok am -> i <> j ->
  entry am i j == weight_between conns g i j.
Proof.
  intros H Hne. apply create_adjacency_matrix_Ok in H as (_ & Hts & _).
  unfold entry, weight_between. rewrite Hts, sum_at_app. unfold sum_at.
  clear Hts. revert g. induction conns as [|e conns IH]; intros [|w g]; simpl;
    try ring.
  specialize (IH g). simpl in IH.
  assert (Hhead :
    (if (e.1 =? i)%nat && (e.2 =? j)%nat then w else 0)
    + (if (e.2 =? i)%nat && (e.1 =? j)%nat then w else 0)
    == if (e.1 =? i)%nat && (e.2 =? j)%nat || (e.1 =? j)%nat && (e.2 =? i)%nat
       then w else 0).
  { destruct (Nat.eqb_spec e.1 i), (Nat.eqb_spec e.2 j), (Nat.eqb_spec e.2 i),
      (Nat.eqb_spec e.1 j); simpl; try ring; lia. }
  rewrite <- Hhead, <- IH. ring.
Qed.

Lemma entry_nonneg (A : coo_matrix) (i j : nat) :
  Forall (fun t => 0 <= t.2) (triples A) -> 0 <= entry A i j.
Proof.
  intros H. unfold entry, sum_at. apply Qsum_nonneg. intros t Ht.
  rewrite Forall_forall in H. destruct (_ && _); [by apply H|apply Qle_refl].
Qed.

Lemma nth_zip_with_Qminus (a b : list Q) (i : nat) :
  (i < length a)%nat -> (i < length b)%nat ->
  nth i (zip_with Qminus a b) 0 = nth i a 0 - nth i b 0.
Proof.
  revert b i. induction a as [|x a IH]; intros [|y b] [|i]; simpl; intros; try lia.
  - done.
  - apply IH; lia.
Qed.

(** The entries of the Laplacian: off the diagonal the adjacency negated,
    on the diagonal the column sum without the diagonal. *)
Lemma entry_laplacian (am : coo_matrix) (i j : nat) :
  (i < shape am)%nat ->
  entry (laplacian am) i j ==
  if (i =? j)%nat
  then sum_at (fun _ c => (c =? i)%nat) (triples am) - entry am i i
  else - entry am i j.
Proof.
  intros Hi. unfold laplacian. rewrite entry_setdiag. simpl.
  rewrite length_zip_with, length_sum_axis0, length_diagonal, !Nat.min_id.
  destruct (Nat.eqb_spec i j) as [<-|Hne].
  - destruct (Nat.ltb_spec i (shape am)); [|lia].
    rewrite nth_zip_with_Qminus by (by rewrite ?length_sum_axis0, ?length_diagonal).
    rewrite nth_diagonal by done. unfold sum_axis0.
    rewrite (nth_map_seq (fun j => sum_at (fun _ c => (c =? j)%nat) (triples am))) by done.
    reflexivity.
  - unfold entry, sum_at. simpl. rewrite map_map. simpl.
    rewrite <- Qsum_opp. apply Qsum_ext. intros t _.
    destruct (_ && _); ring.
Qed.

Lemma adjacency_symmetric (N : nat) (conns : list (nat * nat)) (g : list Q)
    (am : coo_matrix) (i j : nat) :
  create_adjacency_matrix N conns g = Ok am -> entry am i j == entry am j i.
Proof.
  intros H. unfold entry.
  rewrite (adjacency_transpose _ _ _ _ _ H). unfold sum_at.
  apply Qsum_ext. intros t _. by rewrite andb_comm.
Qed.

(** In the adjacency matrix the sum of column [i] is the sum of row [i]. *)
Lemma adjacency_column_sum (N : nat) (conns : list (nat * nat)) (g : list Q)
    (am : coo_matrix) (i : nat) :
  create_adjacency_matrix N conns g = Ok am ->
  sum_at (fun _ c => (c =? i)%nat) (triples am)
  == Qsum (map (entry am i) (seq 0 N)).
Proof.
  intros H. rewrite (adjacency_transpose _ _ _ _ _ H).
  unfold entry. rewrite row_sum by (by eapply adjacency_in_range). reflexivity.
Qed.

(** The Laplacian of the adjacency matrix: rows sum to zero, the diagonal
    is the sum of the magnitudes of the rest of the row, the matrix is
    symmetric and holds minus the edge weight off the diagonal. *)
Lemma laplacian_of_adjacency (N : nat) (conns : list (nat * nat)) (g : list Q)
    (am : coo_matrix) (i : nat) :
  create_adjacency_matrix N conns g = Ok am ->
  Forall (fun w => 0 <= w) g ->
  (i < N)%nat ->
  let L := laplacian am in
  Qsum (map (entry L i) (seq 0 N)) == 0
  /\ entry L i i
     == Qsum (map (fun j => if (j =? i)%nat then 0 else Qabs (entry L i j)) (seq 0 N))
  /\ (forall j, j <> i ->
        entry L i j == - weight_between conns g i j /\ entry L i j == entry L j i).
Proof.
  intros H Hg Hi L.
  pose proof (create_adjacency_matrix_Ok _ _ _ _ H) as (Hshape & _ & _).
  pose proof (adjacency_column_sum _ _ _ _ i H) as Hcol.
  assert (HL : forall a b, (a < N)%nat ->
            entry L a b == if (a =? b)%nat
                           then sum_at (fun _ c => (c =? a)%nat) (triples am) - entry am a a
                           else - entry am a b).
  { intros a b Ha. apply entry_laplacian. by rewrite Hshape. }
  split; [|split].
  - rewrite (Qsum_ext _ (fun j => - entry am i j
               + (if (j =? i)%nat
                  then sum_at (fun _ c => (c =? i)%nat) (triples am) else 0))).
    2:{ intros j _. rewrite HL by done. rewrite (Nat.eqb_sym j i).
        destruct (Nat.eqb_spec i j) as [<-|]; ring. }
    rewrite Qsum_plus, Qsum_opp, Qsum_pick.
    destruct (Nat.ltb_spec i N); [|lia]. rewrite Hcol. ring.
  - rewrite HL, Nat.eqb_refl by done.
    rewrite (Qsum_ext _ (fun j => entry am i j
               + - (if (j =? i)%nat then entry am i j else 0))).
    2:{ intros j _. destruct (Nat.eqb_spec j i) as [->|Hne]; [ring|].
        rewrite HL by done. destruct (Nat.eqb_spec i j) as [|_]; [lia|].
        rewrite Qabs_opp, Qabs_pos; [ring|].
        apply entry_nonneg. by eapply adjacency_nonneg. }
    rewrite Qsum_plus, Qsum_opp, Qsum_pick.
    destruct (Nat.ltb_spec i N); [|lia]. rewrite Hcol. ring.
  - intros j Hne. rewrite HL by done.
    destruct (Nat.eqb_spec i j) as [|_]; [lia|]. split.
    + rewrite (adjacency_entry _ _ _ _ i j H) by lia. reflexivity.
    + unfold L, laplacian. rewrite entry_setdiag.
      destruct (Nat.eqb_spec j i) as [|_]; [lia|].
      unfold entry at 2, sum_at. simpl. rewrite map_map. simpl.
      rewrite (adjacency_symmetric _ _ _ _ i j H).
      unfold entry, sum_at. rewrite <- Qsum_opp. apply Qsum_ext. intros t _.
      destruct (_ && _); ring.
Qed.

(** C9. For an edge list whose ends are in range and differ, with one
    non-negative weight per edge, [_build_A] (when it does not reuse a
    cached matrix) returns and leaves in [self.A] a matrix of the size of
    the network in which every row sums to zero, every diagonal entry is the
    sum of the magnitudes of the other entries of its row, and the entry at
    (i, j) off the diagonal is minus the weight of the edges joining i and j,
    the same at (j, i). *)
Theorem _build_A_rows_sum_to_zero (self : GenericTransport) (cache : bool)
    (conns : list (nat * nat)) (g : list Q) :
  cache = false \/ _pure_A self = None ->
  length g = length conns ->
  Forall (fun e => (e.1 < Np self)%nat /\ (e.2 < Np self)%nat /\ e.1 <> e.2) conns ->
  Forall (fun w => 0 <= w) g ->
  exists A : coo_matrix,
    _build_A self cache conns g = (with_A self (Some A) (Some A), Ok tt)
    /\ shape A = Np self
    /\ forall i, (i < Np self)%nat ->
         Qsum (map (entry A i) (seq 0 (Np self))) == 0
         /\ entry A i i
            == Qsum (map (fun j => if (j =? i)%nat then 0 else Qabs (entry A i j))
                         (seq 0 (Np self)))
         /\ (forall j, j <> i ->
               entry A i j == - weight_between conns g i j
               /\ entry A i j == entry A j i).
Proof.
  intros Hcache Hlen Hin Hg.
  destruct (create_adjacency_matrix_total (Np self) conns g Hlen) as [am Ham].
  { eapply Forall_impl; [exact Hin|]. simpl. tauto. }
  exists (laplacian am). split; [|split].
  - unfold _build_A.
    assert ((if cache then _pure_A self else None) = None) as ->.
    { destruct Hcache as [->| ->]; [done|by destruct cache]. }
    by rewrite Ham.
  - apply create_adjacency_matrix_Ok in Ham as (Hs & _). exact Hs.
  - intros i Hi. by apply (laplacian_of_adjacency _ _ _ _ _ Ham).
Qed.

Lemma _build_A_rows_sum_to_zero_witness :
  exists A : coo_matrix,
    _build_A (init 3) true [(0, 1); (1, 2)]%nat [2; 3] = (with_A (init 3) (Some A) (Some A), Ok tt)
    /\ Qsum (map (entry A 1) (seq 0 3)) == 0.
Proof.
  destruct (_build_A_rows_sum_to_zero (init 3) true [(0, 1); (1, 2)]%nat [2; 3])
    as (A & H1 & _ & H3).
  - by right.
  - reflexivity.
  - repeat constructor; simpl; lia.
  - repeat constructor; discriminate.
  - exists A. split; [exact H1|]. apply (H3 1%nat). simpl. lia.
Defined.

(** ** Boundary conditions applied to the matrix *)

Lemma elem_of_compress_seq (mask : list bool) (s p : nat) :
  p ∈ compress (seq s (length mask)) mask
  <-> exists k, p = (s + k)%nat /\ mask !! k = Some true.
Proof.
  revert s. induction mask as [|m mask IH]; intros s; simpl.
  - rewrite elem_of_nil. split; [done|]. intros (k & _ & Hk). done.
  - assert (Htail : p ∈ compress (seq (S s) (length mask)) mask <->
              exists k, p = (s + S k)%nat /\ mask !! k = Some true).
    { rewrite IH. split; intros (k & -> & Hk); exists k; split; (lia || done). }
    destruct m.
    + rewrite elem_of_cons, Htail. split.
      * intros [->|(k & -> & Hk)]; [exists 0%nat|exists (S k)]; split; (lia || done).
      * intros ([|k] & -> & Hk); [left; lia|right; by exists k].
    + rewrite Htail. split.
      * intros (k & -> & Hk). exists (S k). done.
      * intros ([|k] & -> & Hk); [done|by exists k].
Qed.

Lemma elem_of_to_indices (a : list (option Q)) (i : nat) :
  i ∈ to_indices (isfinite a) <-> exists q, a !! i = Some (Some q).
Proof.
  unfold to_indices. rewrite elem_of_compress_seq, <- isfinite_lookup. split.
  - intros (k & -> & Hk). done.
  - intros H. by exists i.
Qed.

Lemma isin_to_indices (a : list (option Q)) (i : nat) :
  isin i (to_indices (isfinite a)) = true <-> exists q, a !! i = Some (Some q).
Proof. unfold isin. by rewrite bool_decide_eq_true, elem_of_to_indices. Qed.

Lemma nth_lookup_Q (l : list Q) (i : nat) (q : Q) : l !! i = Some q -> nth i l 0 = q.
Proof. intros H. by apply nth_lookup_Some. Qed.

(** The entries [_apply_BCs] leaves in the matrix, with [P_bc] the pores
    that hold a value: rows and columns of [P_bc] are zero off the diagonal
    and [f] on it, everything else is as before. *)
Lemma entry__apply_BCs_A (A : coo_matrix) (bc_value : list (option Q)) (i j : nat) :
  length bc_value = shape A -> (i < shape A)%nat -> (j < shape A)%nat ->
  let P_bc := to_indices (isfinite bc_value) in
  entry (_apply_BCs_A A bc_value) i j ==
  if isin i P_bc || isin j P_bc
  then (if (i =? j)%nat then mean (diagonal A) else 0)
  else entry A i j.
Proof.
  intros Hlen Hi Hj P_bc. unfold _apply_BCs_A. fold P_bc.
  set (A1 := {| shape := shape A; triples := _ |}).
  set (datadiag := scatter (diagonal A1) P_bc _).
  assert (HA1 : forall a b, entry A1 a b ==
            if isin a P_bc || isin b P_bc then 0 else entry A a b).
  { intros a b. unfold entry, sum_at, A1. simpl. rewrite map_map.
    destruct (isin a P_bc || isin b P_bc) eqn:Hab.
    - apply Qsum_zero. intros t _.
      destruct (isin t.1.1 P_bc || isin t.1.2 P_bc) eqn:Ht; simpl.
      + by destruct (_ && _).
      + destruct (Nat.eqb_spec t.1.1 a) as [Ha|]; [|done].
        destruct (Nat.eqb_spec t.1.2 b) as [Hb|]; [|done].
        rewrite Ha, Hb, Hab in Ht. done.
    - apply Qsum_ext. intros t _.
      destruct (isin t.1.1 P_bc || isin t.1.2 P_bc) eqn:Ht; simpl; [|reflexivity].
      destruct (Nat.eqb_spec t.1.1 a) as [Ha|]; [|reflexivity].
      destruct (Nat.eqb_spec t.1.2 b) as [Hb|]; [|reflexivity].
      rewrite Ha, Hb, Hab in Ht. done. }
  assert (Hdd : length datadiag = shape A).
  { unfold datadiag. by rewrite length_scatter, length_diagonal. }
  rewrite entry_eliminate_zeros, entry_setdiag. simpl. rewrite Hdd, Nat.min_id.
  destruct (Nat.eqb_spec i j) as [<-|Hne]; [|apply HA1].
  destruct (Nat.ltb_spec i (shape A)); [|lia].
  rewrite orb_diag. destruct (isin i P_bc) eqn:Hin.
  - erewrite nth_lookup_Q; [reflexivity|]. unfold datadiag.
    apply scatter_replicate.
    + unfold isin in Hin. by apply bool_decide_eq_true in Hin.
    + by rewrite length_diagonal.
  - rewrite nth_lookup. unfold datadiag. rewrite scatter_lookup_notin.
    2:{ unfold isin in Hin. by apply bool_decide_eq_false in Hin. }
    rewrite <- nth_lookup, nth_diagonal by done.
    rewrite HA1, orb_diag, Hin. reflexivity.
Qed.

(** C1, as the code has it. After [_apply_BCs] the matrix is symmetric
    whenever it was before (and what [_build_A] makes is), whatever value
    and rate conditions are set. The part that is unchanged, diagonal
    included, is the block of the pores without a value condition: the
    entries [(i, j)] with neither [i] nor [j] a value pore. The rows and
    columns of the pores with a value condition are zero except on the
    diagonal, where they hold [f], the mean of the diagonal the matrix had
    before. *)
Theorem _apply_BCs_keeps_A_symmetric (self : GenericTransport) (A : coo_matrix) :
  length (bc_value self) = shape A ->
  let A' := _apply_BCs_A A (bc_value self) in
  let f := mean (diagonal A) in
  let N := shape A in
  ((forall i j, (i < N)%nat -> (j < N)%nat -> entry A i j == entry A j i) ->
   forall i j, (i < N)%nat -> (j < N)%nat -> entry A' i j == entry A' j i)
  /\ (forall i j, (i < N)%nat -> (j < N)%nat ->
        ~ has_bc Value self i -> ~ has_bc Value self j ->
        entry A' i j == entry A i j)
  /\ (forall i j, (i < N)%nat -> (j < N)%nat -> i <> j ->
        has_bc Value self i \/ has_bc Value self j ->
        entry A' i j == 0)
  /\ (forall i, (i < N)%nat -> has_bc Value self i -> entry A' i i == f).
Proof.
  intros Hlen A' f N.
  set (P_bc := to_indices (isfinite (bc_value self))).
  assert (HP : forall i, isin i P_bc = true <-> has_bc Value self i).
  { intros i. apply isin_to_indices. }
  assert (HPn : forall i, isin i P_bc = false <-> ~ has_bc Value self i).
  { intros i. rewrite <- HP. by destruct (isin i P_bc). }
  assert (HA' : forall i j, (i < N)%nat -> (j < N)%nat ->
            entry A' i j == if isin i P_bc || isin j P_bc
                            then (if (i =? j)%nat then f else 0)
                            else entry A i j).
  { intros i j Hi Hj. by apply entry__apply_BCs_A. }
  split; [|split; [|split]].
  - intros Hsym i j Hi Hj. rewrite !HA' by done.
    rewrite (orb_comm (isin j P_bc)), (Nat.eqb_sym j i).
    destruct (_ || _); [reflexivity|by apply Hsym].
  - intros i j Hi Hj Hni Hnj. rewrite HA' by done.
    apply HPn in Hni, Hnj. rewrite Hni, Hnj. reflexivity.
  - intros i j Hi Hj Hne Hor. rewrite HA' by done.
    assert ((isin i P_bc || isin j P_bc) = true) as ->.
    { apply orb_true_iff. by rewrite !HP. }
    destruct (Nat.eqb_spec i j); [lia|reflexivity].
  - intros i Hi Hbc. rewrite HA' by done.
    apply HP in Hbc. rewrite Hbc, Nat.eqb_refl. reflexivity.
Qed.

Lemma _apply_BCs_keeps_A_symmetric_witness :
  let self := (set_value_BC (init 3) [2%nat] (Scalar (Some 4)) merge).1 in
  let A := laplacian {| shape := 3;
                        triples := [(0%nat, 1%nat, 1); (1%nat, 2%nat, 1);
                                    (1%nat, 0%nat, 1); (2%nat, 1%nat, 1)] |} in
  entry (_apply_BCs_A A (bc_value self)) 1 2 == 0
  /\ entry (_apply_BCs_A A (bc_value self)) 2 2 == mean (diagonal A).
Proof.
  intros self A.
  destruct (_apply_BCs_keeps_A_symmetric self A eq_refl) as (_ & _ & H0 & Hf).
  split.
  - apply H0; [simpl; lia|simpl; lia|lia|]. right. by exists 4.
  - apply Hf; [simpl; lia|]. by exists 4.
Defined.

(** C1, counterexample to the wording. Two pores joined by one throat of
    conductance 1, a value condition on pore 0 only. The entry [(0, 1)] is
    off the diagonal and outside (value pores) x (value pores), since pore 1
    carries no value; it is -1 before [_apply_BCs] and 0 after it, so the
    matrix is not unchanged on the whole complement of that block. *)
Lemma mixed_entry_is_zeroed :
  let self := (set_value_BC (init 2) [0%nat] (Scalar (Some 3)) merge).1 in
  let A := laplacian {| shape := 2;
                        triples := [(0%nat, 1%nat, 1); (1%nat, 0%nat, 1)] |} in
  let A' := _apply_BCs_A A (bc_value self) in
  has_bc Value self 0 /\ ~ has_bc Value self 1
  /\ ~ (has_bc Value self 0 /\ has_bc Value self 1)
  /\ (forall i j, (i < 2)%nat -> (j < 2)%nat -> entry A i j == entry A j i)
  /\ entry A 0 1 == -1
  /\ entry A' 0 1 == 0
  /\ ~ entry A' 0 1 == entry A 0 1.
Proof.
  intros self A A'.
  assert (H1 : ~ has_bc Value self 1).
  { intros [q Hq]. vm_compute in Hq. discriminate. }
  split; [by exists 3|]. split; [exact H1|]. split; [by intros [_ ?]|].
  split; [|split; [reflexivity|split; [reflexivity|]]].
  - intros i j Hi Hj.
    destruct i as [|[|i]]; [| |lia]; (destruct j as [|[|j]]; [| |lia]);
      reflexivity.
  - intros H. vm_compute in H. discriminate.
Qed.

(** ** Boundary conditions applied to the right-hand side *)

Lemma Qsum_scal_r {A : Type} (f : A -> Q) (c : Q) (l : list A) :
  Qsum (map (fun a => f a * c) l) == Qsum (map f l) * c.
Proof.
  induction l as [|a l IH]; simpl.
  - ring.
  - rewrite IH. ring.
Qed.

Lemma assign_where_lookup (ind : list bool) (a v : list Q) (i : nat)
    (m : bool) (x y : Q) :
  ind !! i = Some m -> a !! i = Some x -> v !! i = Some y ->
  assign_where ind a v !! i = Some (if m then y else x).
Proof.
  intros Hm Hx Hy. unfold assign_where.
  rewrite lookup_zip_with, Hm. simpl.
  rewrite lookup_zip_with, Hx. simpl. by rewrite Hy.
Qed.

Lemma dot_lookup (A : coo_matrix) (v : list Q) (i : nat) :
  (i < shape A)%nat ->
  dot A v !! i
  = Some (Qsum (map (fun t => if (t.1.1 =? i)%nat then t.2 * nth t.1.2 v 0 else 0)
                    (triples A))).
Proof.
  intros Hi. unfold dot. rewrite list_lookup_fmap, lookup_seq_lt by done. done.
Qed.

(** The matrix-vector product, entry by entry. *)
Lemma dot_entries (A : coo_matrix) (v : list Q) (i : nat) :
  length v = shape A ->
  Qsum (map (fun t => if (t.1.1 =? i)%nat then t.2 * nth t.1.2 v 0 else 0) (triples A))
  == Qsum (map (fun j => entry A i j * nth j v 0) (seq 0 (shape A))).
Proof.
  intros Hlen. unfold entry, sum_at.
  rewrite (Qsum_ext (fun j => _ * nth j v 0)
             (fun j => Qsum (map (fun t =>
                  (if (t.1.1 =? i)%nat && (t.1.2 =? j)%nat then t.2 else 0) * nth j v 0)
                (triples A)))).
  2:{ intros j _. symmetry. apply Qsum_scal_r. }
  rewrite Qsum_swap. apply Qsum_ext. intros t _.
  destruct (Nat.eqb_spec t.1.1 i); simpl.
  - rewrite (Qsum_ext _ (fun j => if (j =? t.1.2)%nat then t.2 * nth j v 0 else 0)).
    2:{ intros j _. rewrite (Nat.eqb_sym j). destruct (_ =? _)%nat; ring. }
    rewrite Qsum_pick. destruct (Nat.ltb_spec t.1.2 (shape A)); [reflexivity|].
    rewrite nth_overflow by lia. ring.
  - symmetry. apply Qsum_zero. intros j _. ring.
Qed.

(** What [_apply_BCs] leaves at place [i] of the right-hand side. *)
Lemma _apply_BCs_b_lookup (A : coo_matrix) (b : list Q)
    (bc_rate bc_value : list (option Q)) (i : nat) :
  length b = shape A -> length bc_rate = shape A -> length bc_value = shape A ->
  (i < shape A)%nat ->
  exists q,
    _apply_BCs_b A b bc_rate bc_value !! i = Some q
    /\ q == match bc_value !! i with
            | Some (Some v) => v * mean (diagonal A)
            | _ => match bc_rate !! i with
                   | Some (Some r) => r
                   | _ => nth i b 0
                   end - value_terms A bc_value i
            end.
Proof.
  intros Hb Hr Hv Hi. unfold _apply_BCs_b.
  set (f := mean (diagonal A)).
  destruct (lookup_lt_is_Some_2 b i) as [bi Hbi]; [lia|].
  destruct (lookup_lt_is_Some_2 bc_rate i) as [ri Hri]; [lia|].
  destruct (lookup_lt_is_Some_2 bc_value i) as [vi Hvi]; [lia|].
  set (b1 := assign_where (isfinite bc_rate) b (finite_part bc_rate)).
  assert (Hb1 : b1 !! i = Some (if finite ri then default 0 ri else bi)).
  { apply assign_where_lookup; [|done|].
    - unfold isfinite. by rewrite list_lookup_fmap, Hri.
    - unfold finite_part. by rewrite list_lookup_fmap, Hri. }
  set (b2 := assign_where (isfinite bc_value) b1 _).
  assert (Hb2 : b2 !! i = Some (if finite vi then default 0 vi * f
                                else if finite ri then default 0 ri else bi)).
  { apply assign_where_lookup; [|done|].
    - unfold isfinite. by rewrite list_lookup_fmap, Hvi.
    - unfold finite_part. by rewrite !list_lookup_fmap, Hvi. }
  assert (Hlen1 : length b1 = shape A).
  { unfold b1, assign_where, isfinite, finite_part.
    rewrite !length_zip_with, !length_map. lia. }
  assert (Hlen2 : length b2 = shape A).
  { unfold b2, assign_where, isfinite, finite_part.
    rewrite !length_zip_with, !length_map. lia. }
  set (x_BC := assign_where (isfinite bc_value) (replicate (length b2) 0) _).
  assert (Hx : forall j, nth j x_BC 0 = match bc_value !! j with
                                         | Some (Some v) => v
                                         | _ => 0
                                         end).
  { intros j. rewrite nth_lookup. destruct (bc_value !! j) as [vj|] eqn:Hvj.
    - unfold x_BC.
      rewrite (assign_where_lookup _ _ _ j (finite vj) 0 (default 0 vj)).
      + by destruct vj.
      + unfold isfinite. by rewrite list_lookup_fmap, Hvj.
      + apply lookup_replicate_2. apply lookup_lt_Some in Hvj. lia.
      + unfold finite_part. by rewrite list_lookup_fmap, Hvj.
    - unfold x_BC, assign_where. rewrite lookup_zip_with.
      unfold isfinite. by rewrite list_lookup_fmap, Hvj. }
  assert (Hlenx : length x_BC = shape A).
  { unfold x_BC, assign_where, isfinite, finite_part.
    rewrite !length_zip_with, !length_map, length_replicate. lia. }
  eexists. split.
  - apply assign_where_lookup.
    + unfold isfinite. by rewrite !list_lookup_fmap, Hvi.
    + exact Hb2.
    + rewrite lookup_zip_with, Hb2. simpl. rewrite dot_lookup by done. reflexivity.
  - assert (Hterms : Qsum (map (fun j => entry A i j * nth j x_BC 0) (seq 0 (shape A)))
                     == value_terms A bc_value i).
    { unfold value_terms. apply Qsum_ext. intros j _. rewrite Hx.
      destruct (bc_value !! j) as [[v|]|]; ring. }
    rewrite Hvi, Hri.
    destruct vi as [v|]; simpl; [reflexivity|].
    rewrite dot_entries, Hterms by done.
    rewrite (nth_lookup_Q b i bi) by done.
    destruct ri as [r|]; simpl; reflexivity.
Qed.

Lemma length__apply_BCs_b (A : coo_matrix) (b : list Q)
    (bc_rate bc_value : list (option Q)) :
  length b = shape A -> length bc_rate = shape A -> length bc_value = shape A ->
  length (_apply_BCs_b A b bc_rate bc_value) = shape A.
Proof.
  intros Hb Hr Hv. unfold _apply_BCs_b, assign_where, isfinite, finite_part, dot.
  repeat first [ rewrite length_zip_with | rewrite length_map
               | rewrite length_seq | rewrite length_replicate ].
  lia.
Qed.

(** C2, as the code has it. From the zero baseline, with [f] the mean of
    the diagonal of [A]: a pore with a value holds the value times [f];
    every pore without a value is decremented by the sum over the pores [j]
    with a value of [A[i,j] * value[j]], and this includes the pores with a
    rate, which hold the rate less that sum, not the bare rate; a pore with
    no condition holds minus that sum. *)
Theorem _apply_BCs_b_entries (self : GenericTransport) (A : coo_matrix) :
  length (bc_rate self) = shape A -> length (bc_value self) = shape A ->
  let b' := _apply_BCs_b A (replicate (shape A) 0) (bc_rate self) (bc_value self) in
  length b' = shape A
  /\ forall i, (i < shape A)%nat ->
       (forall v, bc_value self !! i = Some (Some v) ->
          nth i b' 0 == v * mean (diagonal A))
       /\ (forall r, ~ has_bc Value self i -> bc_rate self !! i = Some (Some r) ->
          nth i b' 0 == r - value_terms A (bc_value self) i)
       /\ (~ has_bc Value self i -> ~ has_bc Rate self i ->
          nth i b' 0 == 0 - value_terms A (bc_value self) i).
Proof.
  intros Hr Hv b'. split.
  { apply length__apply_BCs_b; [apply length_replicate|done|done]. }
  intros i Hi.
  destruct (_apply_BCs_b_lookup A (replicate (shape A) 0) (bc_rate self)
              (bc_value self) i) as (q & Hq & Heq);
    [apply length_replicate|done|done|done|].
  fold b' in Hq. rewrite (nth_lookup_Q b' i q Hq).
  assert (Hzero : nth i (replicate (shape A) 0) 0 = 0).
  { apply nth_lookup_Q. by apply lookup_replicate_2. }
  rewrite Hzero in Heq.
  split; [|split].
  - intros v Hvi. rewrite Heq, Hvi. reflexivity.
  - intros r Hno Hri. rewrite Heq, Hri.
    destruct (bc_value self !! i) as [[v|]|] eqn:Hvi; [|reflexivity|reflexivity].
    exfalso. apply Hno. by exists v.
  - intros Hnov Hnor. rewrite Heq.
    destruct (bc_value self !! i) as [[v|]|] eqn:Hvi.
    + exfalso. apply Hnov. by exists v.
    + destruct (bc_rate self !! i) as [[r|]|] eqn:Hri; try reflexivity.
      exfalso. apply Hnor. by exists r.
    + destruct (bc_rate self !! i) as [[r|]|] eqn:Hri; try reflexivity.
      exfalso. apply Hnor. by exists r.
Qed.

Lemma _apply_BCs_b_entries_witness :
  let self := (set_value_BC (set_rate_BC (init 2) [0%nat] (by_rates (Scalar (Some 5))) merge).1
                 [1%nat] (Scalar (Some 2)) merge).1 in
  let A := {| shape := 2;
              triples := [(0%nat, 1%nat, -1); (1%nat, 0%nat, -1);
                          (0%nat, 0%nat, 1); (1%nat, 1%nat, 1)] |} in
  nth 0 (_apply_BCs_b A (replicate 2 0) (bc_rate self) (bc_value self)) 0
  == 5 - value_terms A (bc_value self) 0.
Proof.
  intros self A.
  destruct (_apply_BCs_b_entries self A eq_refl eq_refl) as [_ H].
  destruct (H 0%nat) as (_ & Hrate & _); [simpl; lia|].
  apply Hrate; [|reflexivity].
  intros [q Hq]. discriminate.
Defined.

(** C2, counterexample to the wording. Two pores joined by one throat of
    conductance 1, a rate of 5 on pore 0 and a value of 2 on pore 1: the
    right-hand side holds 7 at pore 0, the rate less [A[0,1] * 2], where the
    wording (only pores with no condition are decremented) leaves the rate
    5. *)
Lemma rate_pore_is_decremented :
  let A := {| shape := 2;
              triples := [(0%nat, 1%nat, -1); (1%nat, 0%nat, -1);
                          (0%nat, 0%nat, 1); (1%nat, 1%nat, 1)] |} in
  let bc_rate := [Some 5; None] in
  let bc_value := [None; Some 2] in
  let b := replicate 2 0 in
  nth 0 (_apply_BCs_b A b bc_rate bc_value) 0 == 7
  /\ nth 0 (b_as_specified A b bc_rate bc_value) 0 == 5
  /\ ~ nth 0 (_apply_BCs_b A b bc_rate bc_value) 0
       == nth 0 (b_as_specified A b bc_rate bc_value) 0.
Proof.
  intros A bc_rate bc_value b. split; [reflexivity|]. split; [reflexivity|].
  vm_compute. discriminate.
Qed.

(** ** Rates of pores *)

Lemma take_nth (a : list Q) (idx : list nat) (vs : list Q) :
  take a idx = Ok vs -> vs = map (fun i => nth i a 0) idx.
Proof.
  revert vs. induction idx as [|i idx IH]; intros vs H; simpl in H.
  - by inversion H.
  - destruct (a !! i) as [v|] eqn:Hv; [|discriminate].
    destruct (take a idx) as [ws|]; [|discriminate].
    inversion H; subst. simpl. f_equal; [|by apply IH].
    symmetry. by apply nth_lookup_Q.
Qed.

Lemma add_at_Ok (a : list Q) (idx : list nat) (v : list Q) :
  Forall (fun i => (i < length a)%nat) idx ->
  add_at a idx v
  = Ok (foldl (fun acc iv => <[iv.1 := nth iv.1 acc 0 + iv.2]> acc) a (zip idx v)).
Proof.
  intros H. unfold add_at. replace (forallb _ idx) with true; [done|].
  symmetry. apply forallb_forall. intros i Hi. rewrite Forall_forall in H.
  apply Nat.ltb_lt, H. by apply list_elem_of_In.
Qed.

Lemma add_at_fold (ivs : list (nat * Q)) (a : list Q) :
  Forall (fun iv => (iv.1 < length a)%nat) ivs ->
  let a' := foldl (fun acc iv => <[iv.1 := nth iv.1 acc 0 + iv.2]> acc) a ivs in
  length a' = length a
  /\ forall i, nth i a' 0
               == nth i a 0 + Qsum (map (fun iv => if (iv.1 =? i)%nat then iv.2 else 0) ivs).
Proof.
  revert a. induction ivs as [|[j w] ivs IH]; intros a Hin; simpl.
  - split; [done|]. intros i. ring.
  - inversion Hin as [|? ? Hj Hrest]; subst. simpl in Hj.
    destruct (IH (<[j := nth j a 0 + w]> a)) as [Hlen Hnth].
    { rewrite length_insert. exact Hrest. }
    split; [by rewrite Hlen, length_insert|].
    intros i. rewrite Hnth. rewrite (nth_lookup (<[j:=_]> a)).
    destruct (Nat.eqb_spec j i) as [->|Hne].
    + rewrite list_lookup_insert_eq by done. simpl. ring.
    + rewrite list_lookup_insert_ne by done. rewrite <- nth_lookup. ring.
Qed.

Lemma zip_map_fst_zip {B C : Type} (F : nat * nat * B -> C) (P12 : list (nat * nat))
    (g : list B) (sel : nat * nat -> nat) :
  zip (map sel P12) (map F (zip P12 g)) = map (fun eg => (sel eg.1, F eg)) (zip P12 g).
Proof.
  revert g. induction P12 as [|e P12 IH]; intros [|w g]; simpl; try done.
  by rewrite IH.
Qed.

(** The throat rates, throat by throat. *)
Lemma throat_rates_list (P12 : list (nat * nat)) (g : list Q) (quantity : list Q)
    (X12 : list (Q * Q)) :
  take_ends quantity P12 = Ok X12 ->
  length g = length P12 ->
  exists Qt,
    throat_rates (length P12) (per_throat g) X12 = Ok Qt
    /\ stretch Qt (length P12)
       = map (fun eg => throat_rate quantity eg.1 eg.2) (zip P12 (tile2 g)).
Proof.
  intros HX Hlen. unfold take_ends in HX.
  destruct (take quantity (map fst P12)) as [X1|] eqn:H1; [|discriminate].
  destruct (take quantity (map snd P12)) as [X2|] eqn:H2; [|discriminate].
  simpl in HX. inversion HX; subst X12. clear HX.
  apply take_nth in H1, H2. subst X1 X2.
  unfold throat_rates. simpl.
  set (l := diff1 _).
  assert (Hl : l = map (fun eg => throat_rate quantity eg.1 eg.2) (zip P12 (tile2 g))).
  { unfold l, diff1, flip1, tile2, throat_rate. clear l.
    revert g Hlen. induction P12 as [|e P12 IH]; intros [|w g] Hlen; simpl in *;
      try done.
    f_equal. apply IH. lia. }
  exists (squeeze l). split; [done|].
  rewrite <- Hl.
  assert (Hll : length l = length P12).
  { rewrite Hl, length_map, length_zip. unfold tile2. rewrite length_map. lia. }
  destruct l as [|q [|q' l]]; simpl; try done.
  simpl in Hll. by rewrite <- Hll.
Qed.

(** The balance [Qp] that [rate] accumulates with [np.add.at]. *)
Lemma rate_balance (N : nat) (P12 : list (nat * nat)) (g : list (Q * Q))
    (quantity : list Q) :
  Forall (fun e => (e.1 < N)%nat /\ (e.2 < N)%nat) P12 ->
  let Qt := map (fun eg => throat_rate quantity eg.1 eg.2) (zip P12 g) in
  exists Qp1 Qp2,
    add_at (replicate N 0) (map fst P12) (map Qopp Qt) = Ok Qp1
    /\ add_at Qp1 (map snd P12) Qt = Ok Qp2
    /\ length Qp2 = N
    /\ forall i, nth i Qp2 0 == net_rate P12 g quantity i.
Proof.
  intros Hin Qt.
  assert (Hfst : Forall (fun i => (i < N)%nat) (map fst P12)).
  { apply Forall_fmap. eapply Forall_impl; [exact Hin|]. simpl. tauto. }
  assert (Hsnd : Forall (fun i => (i < N)%nat) (map snd P12)).
  { apply Forall_fmap. eapply Forall_impl; [exact Hin|]. simpl. tauto. }
  set (ivs1 := zip (map fst P12) (map Qopp Qt)).
  set (ivs2 := zip (map snd P12) Qt).
  assert (Hivs1 : ivs1 = map (fun eg => (eg.1.1, - throat_rate quantity eg.1 eg.2))
                             (zip P12 g)).
  { unfold ivs1, Qt. rewrite map_map.
    apply (zip_map_fst_zip (fun eg => - throat_rate quantity eg.1 eg.2) P12 g fst). }
  assert (Hivs2 : ivs2 = map (fun eg => (eg.1.2, throat_rate quantity eg.1 eg.2))
                             (zip P12 g)).
  { unfold ivs2, Qt.
    apply (zip_map_fst_zip (fun eg => throat_rate quantity eg.1 eg.2) P12 g snd). }
  destruct (add_at_fold ivs1 (replicate N 0)) as [Hlen1 Hnth1].
  { rewrite Hivs1, length_replicate. apply Forall_fmap, Forall_forall.
    intros [e w] Hew. simpl. apply elem_of_zip_l in Hew.
    rewrite Forall_forall in Hin. by apply Hin. }
  set (Qp1 := foldl _ (replicate N 0) ivs1) in *.
  rewrite length_replicate in Hlen1.
  destruct (add_at_fold ivs2 Qp1) as [Hlen2 Hnth2].
  { rewrite Hivs2, Hlen1. apply Forall_fmap, Forall_forall.
    intros [e w] Hew. simpl. apply elem_of_zip_l in Hew.
    rewrite Forall_forall in Hin. by apply Hin. }
  set (Qp2 := foldl _ Qp1 ivs2) in *.
  exists Qp1, Qp2. split; [|split; [|split]].
  - apply add_at_Ok. by rewrite length_replicate.
  - apply add_at_Ok. by rewrite Hlen1.
  - lia.
  - intros i. rewrite Hnth2, Hnth1, Hivs1, Hivs2, !map_map. simpl.
    assert (nth i (replicate N 0) 0 = 0) as ->.
    { rewrite nth_lookup. destruct (replicate N 0 !! i) as [q|] eqn:Hq; [|done].
      apply lookup_replicate in Hq as [-> _]. done. }
    unfold net_rate. rewrite Qplus_0_l, <- Qsum_plus. reflexivity.
Qed.

(** For a set of pores, [rate] accumulates a balance per pore in which
    every throat, with its conductance taken for both directions when there
    is one value per throat, adds [g * (x[pore] - x[other end])] to the
    balance of either end. The balances of the requested pores are returned
    as they are, or as their one sum when the mode is 'group'. *)
Lemma rate_of_pores_net_rate (N : nat) (P12 : list (nat * nat)) (g : list Q)
    (quantity : list Q) (pores : list nat) (mode : string) :
  length quantity = N -> length g = length P12 ->
  Forall (fun e => (e.1 < N)%nat /\ (e.2 < N)%nat) P12 ->
  Forall (fun p => (p < N)%nat) pores -> pores <> [] ->
  exists R : list Q,
    rate N P12 (per_throat g) quantity pores [] mode
    = Ok (dim1 (if String.eqb mode "group" then [Qsum R] else R))
    /\ Forall2 Qeq R (map (net_rate P12 (tile2 g) quantity) pores)
    /\ forall i,
         net_rate P12 (tile2 g) quantity i
         == Qsum (map (fun ew : nat * nat * Q =>
                         (if (ew.1.1 =? i)%nat
                          then ew.2 * (nth ew.1.1 quantity 0 - nth ew.1.2 quantity 0)
                          else 0)
                         + (if (ew.1.2 =? i)%nat
                            then ew.2 * (nth ew.1.2 quantity 0 - nth ew.1.1 quantity 0)
                            else 0))
                      (zip P12 g)).
Proof.
  intros Hq Hg Hin Hpores Hne.
  assert (Hfst : forall i, i ∈ map fst P12 -> (i < length quantity)%nat).
  { intros i Hi. apply list_elem_of_fmap in Hi as (e & -> & He).
    rewrite Forall_forall in Hin. rewrite Hq. by apply Hin. }
  assert (Hsnd : forall i, i ∈ map snd P12 -> (i < length quantity)%nat).
  { intros i Hi. apply list_elem_of_fmap in Hi as (e & -> & He).
    rewrite Forall_forall in Hin. rewrite Hq. by apply Hin. }
  destruct (take_total quantity _ Hfst) as [X1 HX1].
  destruct (take_total quantity _ Hsnd) as [X2 HX2].
  assert (HX : take_ends quantity P12 = Ok (zip X1 X2)).
  { unfold take_ends. by rewrite HX1, HX2. }
  destruct (throat_rates_list P12 g quantity _ HX Hg) as (Qt & HQt & Hstretch).
  destruct (rate_balance N P12 (tile2 g) quantity Hin) as (Qp1 & Qp2 & H1 & H2 & Hlen & Hnth).
  destruct (take_total Qp2 pores) as [R HR].
  { intros p Hp. rewrite Forall_forall in Hpores. rewrite Hlen. by apply Hpores. }
  exists R. split; [|split].
  - assert (Hc : ((length (@nil nat) =? length pores) && (length pores =? 0))%nat
                 = false).
    { by destruct pores. }
    unfold rate. rewrite Hc, HX. cbn [bind length Nat.ltb Nat.leb andb].
    rewrite HQt. cbn [bind]. rewrite Hstretch, H1. cbn [bind].
    rewrite H2. cbn [bind]. rewrite HR. cbn [bind].
    unfold group_if. by destruct (String.eqb mode "group").
  - apply take_nth in HR. subst R. clear -Hnth.
    induction pores as [|p pores IH]; simpl; constructor; [apply Hnth|apply IH].
  - intros i. unfold net_rate, tile2.
    clear. revert g. induction P12 as [|e P12 IH]; intros [|w g]; simpl;
      try reflexivity.
    rewrite IH. unfold throat_rate. simpl.
    destruct (e.1 =? i)%nat, (e.2 =? i)%nat; ring.
Qed.

Lemma zip_self_map {B C : Type} (F : nat * nat * B -> C) (P12 : list (nat * nat))
    (g : list B) :
  zip P12 (map F (zip P12 g)) = map (fun ew => (ew.1, F ew)) (zip P12 g).
Proof.
  revert g. induction P12 as [|e P12 IH]; intros [|w g]; simpl; try done.
  by rewrite IH.
Qed.

Lemma nth_balance_as_specified (N : nat) (P12 : list (nat * nat)) (g : list Q)
    (quantity : list Q) (i : nat) :
  (i < N)%nat ->
  nth i (balance_as_specified N P12 (flux_as_specified P12 g quantity)) 0
  == Qsum (map (fun ew : nat * nat * Q =>
                  (if (ew.1.1 =? i)%nat
                   then ew.2 * (nth ew.1.1 quantity 0 - nth ew.1.2 quantity 0)
                   else 0)
                  + (if (ew.1.2 =? i)%nat
                     then ew.2 * (nth ew.1.2 quantity 0 - nth ew.1.1 quantity 0)
                     else 0))
               (zip P12 g)).
Proof.
  intros Hi. unfold balance_as_specified.
  rewrite (nth_map_seq _ N i Hi). unfold flux_as_specified.
  rewrite zip_self_map, map_map. apply Qsum_ext.
  intros [e w] _. cbn [fst snd].
  destruct (e.1 =? i)%nat, (e.2 =? i)%nat; ring.
Qed.

Lemma Forall2_Qeq_map_ext (F F' : nat -> Q) (pores : list nat) (R : list Q) :
  Forall2 Qeq R (map F pores) -> (forall p, p ∈ pores -> F p == F' p) ->
  Forall2 Qeq R (map F' pores).
Proof.
  revert R. induction pores as [|p pores IH]; intros R HR HF; simpl in *.
  - exact HR.
  - inversion HR as [|r ? R' ? Hr HR']; subst. constructor.
    + rewrite Hr. apply HF. by left.
    + apply IH; [exact HR'|]. intros q Hq. apply HF. by right.
Qed.

(** C5. For a set of pores, [rate] returns the balance that is made by
    adding the flux of every throat, [Qt = g * (x[first end] - x[second
    end])] with the one conductance of the throat for both directions, with
    sign +1 at the end the throat leaves from and with sign -1 at the end
    it goes to. The balances of the requested pores are returned as they
    are, or as their one sum when the mode is 'group'. The balance is
    out-flow positive: every throat adds [g * (x[pore] - x[other end])] to
    the balance of either end, so with conductances that are not negative a
    pore whose value is not below that of any neighbour has a balance that
    is not negative. *)
Theorem rate_of_pores (N : nat) (P12 : list (nat * nat)) (g : list Q)
    (quantity : list Q) (pores : list nat) (mode : string) :
  length quantity = N -> length g = length P12 ->
  Forall (fun e => (e.1 < N)%nat /\ (e.2 < N)%nat) P12 ->
  Forall (fun p => (p < N)%nat) pores -> pores <> [] ->
  let Qp := balance_as_specified N P12 (flux_as_specified P12 g quantity) in
  (exists R : list Q,
     rate N P12 (per_throat g) quantity pores [] mode
     = Ok (dim1 (if String.eqb mode "group" then [Qsum R] else R))
     /\ Forall2 Qeq R (map (fun p => nth p Qp 0) pores))
  /\ (forall i, (i < N)%nat ->
        nth i Qp 0
        == Qsum (map (fun ew : nat * nat * Q =>
                        (if (ew.1.1 =? i)%nat
                         then ew.2 * (nth i quantity 0 - nth ew.1.2 quantity 0)
                         else 0)
                        + (if (ew.1.2 =? i)%nat
                           then ew.2 * (nth i quantity 0 - nth ew.1.1 quantity 0)
                           else 0))
                     (zip P12 g)))
  /\ (Forall (fun w => 0 <= w) g ->
      forall i, (i < N)%nat ->
        (forall e, e ∈ P12 ->
           (e.1 = i -> nth e.2 quantity 0 <= nth i quantity 0)
           /\ (e.2 = i -> nth e.1 quantity 0 <= nth i quantity 0)) ->
        0 <= nth i Qp 0).
Proof.
  intros Hq Hg Hin Hpores Hne Qp.
  assert (Hform : forall i, (i < N)%nat ->
            nth i Qp 0
            == Qsum (map (fun ew : nat * nat * Q =>
                            (if (ew.1.1 =? i)%nat
                             then ew.2 * (nth i quantity 0 - nth ew.1.2 quantity 0)
                             else 0)
                            + (if (ew.1.2 =? i)%nat
                               then ew.2 * (nth i quantity 0 - nth ew.1.1 quantity 0)
                               else 0))
                         (zip P12 g))).
  { intros i Hi. unfold Qp. rewrite nth_balance_as_specified by done.
    apply Qsum_ext. intros [e w] _. cbn [fst snd].
    destruct (Nat.eqb_spec e.1 i) as [H1|_], (Nat.eqb_spec e.2 i) as [H2|_];
      rewrite ?H1, ?H2; reflexivity. }
  split; [|split; [exact Hform|]].
  - destruct (rate_of_pores_net_rate N P12 g quantity pores mode Hq Hg Hin Hpores Hne)
      as (R & HR & Hnet & Hsum).
    exists R. split; [exact HR|].
    apply (Forall2_Qeq_map_ext _ _ _ _ Hnet).
    intros p Hp. rewrite Forall_forall in Hpores.
    unfold Qp. rewrite nth_balance_as_specified by (by apply Hpores).
    apply Hsum.
  - intros Hpos i Hi Hhigh. rewrite Hform by done.
    apply Qsum_nonneg. intros [e w] Hew. cbn [fst snd].
    assert (Hw : 0 <= w).
    { apply elem_of_zip_r in Hew. rewrite Forall_forall in Hpos. by apply Hpos. }
    apply elem_of_zip_l in Hew. destruct (Hhigh e Hew) as [H1 H2].
    apply Qle_trans with (0 + 0); [by rewrite Qplus_0_l; apply Qle_refl|].
    apply Qplus_le_compat.
    + destruct (Nat.eqb_spec e.1 i) as [He|_]; [|apply Qle_refl].
      apply Qmult_le_0_compat; [exact Hw|].
      unfold Qminus. rewrite <- Qle_minus_iff. by apply H1.
    + destruct (Nat.eqb_spec e.2 i) as [He|_]; [|apply Qle_refl].
      apply Qmult_le_0_compat; [exact Hw|].
      unfold Qminus. rewrite <- Qle_minus_iff. by apply H2.
Qed.

Lemma rate_of_pores_witness :
  exists R : list Q,
    rate 3 [(0, 1); (1, 2)]%nat (per_throat [1; 1]) [10; 5; 0] [0; 2]%nat [] "single"
    = Ok (dim1 R)
    /\ Forall2 Qeq R
         (map (fun p => nth p (balance_as_specified 3 [(0, 1); (1, 2)]%nat
                                 (flux_as_specified [(0, 1); (1, 2)]%nat [1; 1]
                                                    [10; 5; 0])) 0)
              [0; 2]%nat).
Proof.
  destruct (rate_of_pores 3 [(0, 1); (1, 2)]%nat [1; 1] [10; 5; 0] [0; 2]%nat "single")
    as ((R & H1 & H2) & _).
  - reflexivity.
  - reflexivity.
  - repeat constructor; simpl; lia.
  - repeat constructor; simpl; lia.
  - discriminate.
  - exists R. split; [exact H1|exact H2].
Defined.

(** ** The assembled system *)

Lemma laplacian_symmetric (N : nat) (conns : list (nat * nat)) (g : list Q)
    (am : coo_matrix) (i j : nat) :
  create_adjacency_matrix N conns g = Ok am -> (i < N)%nat -> (j < N)%nat ->
  entry (laplacian am) i j == entry (laplacian am) j i.
Proof.
  intros H Hi Hj.
  pose proof (create_adjacency_matrix_Ok _ _ _ _ H) as (Hshape & _ & _).
  rewrite !entry_laplacian by (by rewrite Hshape).
  rewrite (Nat.eqb_sym j i). destruct (Nat.eqb_spec i j) as [->|_]; [reflexivity|].
  by rewrite (adjacency_symmetric _ _ _ _ i j H).
Qed.

(** [_update_A_and_b] on a network whose throats have their ends in range,
    with one conductance per throat and no cached matrix in use: it returns,
    and the matrix it leaves in [self.A], boundary conditions applied, is
    symmetric. *)
Lemma _update_A_and_b_symmetric (self : GenericTransport)
    (conns : list (nat * nat)) (g : list Q) :
  length (bc_value self) = Np self -> length g = length conns ->
  Forall (fun e => (e.1 < Np self)%nat /\ (e.2 < Np self)%nat) conns ->
  exists self' A',
    _update_A_and_b self false conns g = (self', Ok tt)
    /\ _A self' = Some A'
    /\ bc_value self' = bc_value self
    /\ forall i j, (i < Np self)%nat -> (j < Np self)%nat ->
                   entry A' i j == entry A' j i.
Proof.
  intros Hlen Hg Hin.
  destruct (create_adjacency_matrix_total (Np self) conns g Hg Hin) as [am Ham].
  pose proof (create_adjacency_matrix_Ok _ _ _ _ Ham) as (Hshape & _ & _).
  unfold _update_A_and_b, _build_A. rewrite Ham. simpl.
  eexists _, _. split; [reflexivity|]. simpl. split; [reflexivity|].
  split; [reflexivity|]. intros i j Hi Hj.
  assert (HL : shape (laplacian am) = Np self) by (by rewrite <- Hshape).
  rewrite !entry__apply_BCs_A by (by rewrite HL).
  rewrite (orb_comm (isin j _)), (Nat.eqb_sym j i).
  destruct (_ || _); [reflexivity|].
  by apply (laplacian_symmetric (Np self) conns g).
Qed.

(** * Further properties of the boundary-condition store *)

Local Open Scope nat_scope.

Lemma well_sized_set_bc (n : nat) (t : bctype) (a : list (option Q))
    (self : GenericTransport) :
  well_sized n self -> length a = n -> well_sized n (set_bc t a self).
Proof.
  intros (HN & Hv & Hr) Ha. destruct t; repeat split; simpl; done.
Qed.

Lemma well_sized_bc (n : nat) (t : bctype) (self : GenericTransport) :
  well_sized n self -> length (bc t self) = n.
Proof. intros (_ & Hv & Hr). by destruct t. Qed.

Lemma length_all_nan (n : nat) : length (all_nan n) = n.
Proof. apply length_replicate. Qed.

Lemma well_sized__set_BC (n : nat) (self : GenericTransport) (pores : list nat)
    (t : bctype) (values : ndvalues) (m : mode) :
  well_sized n self -> well_sized n (_set_BC self pores t values m).1.
Proof.
  intros Hwf. unfold _set_BC. destruct (_ && _); [done|].
  set (self1 := match m with merge => self | overwrite => _ end).
  assert (Hwf1 : well_sized n self1).
  { destruct m; [done|]. apply well_sized_set_bc; [done|].
    rewrite length_all_nan. apply Hwf. }
  destruct (take _ pores) as [hit|]; [|done].
  destruct (put _ _ values) as [a|] eqn:Hput; [|done].
  simpl. apply well_sized_set_bc; [done|].
  apply put_length in Hput. rewrite Hput. by apply well_sized_bc.
Qed.

Lemma well_sized_nan_at (n : nat) (self : GenericTransport) (t : bctype)
    (pores : list nat) :
  well_sized n self -> well_sized n (nan_at self t pores).1.
Proof.
  intros Hwf. unfold nan_at.
  destruct (put _ pores _) as [a|] eqn:Hput; [|done].
  simpl. apply well_sized_set_bc; [done|].
  apply put_length in Hput. rewrite Hput. by apply well_sized_bc.
Qed.

Lemma well_sized_after (n : nat) (self : GenericTransport) (c : call) :
  well_sized n self -> well_sized n (after self c).
Proof.
  intros Hwf. destruct c as [pores values m|pores args m|pores sel|bcs results]; simpl.
  - by apply well_sized__set_BC.
  - unfold set_rate_BC. destruct args as [rates|total_rate|rates total_rate].
    + by apply well_sized__set_BC.
    + destruct (length pores =? 0); [done|]. by apply well_sized__set_BC.
    + done.
  - unfold remove_BC.
    set (ps := match pores with Some ps => ps | None => _ end).
    set (sel' := if existsb _ sel then _ else sel).
    assert (H1 : well_sized n (if existsb (bcsel_eqb sel_value) sel'
                               then nan_at self Value ps else (self, Ok tt)).1).
    { destruct (existsb (bcsel_eqb sel_value) sel'); [by apply well_sized_nan_at|done]. }
    destruct (if existsb (bcsel_eqb sel_value) sel' then _ else _) as [s1 [[]|e]];
      [|done].
    destruct (existsb (bcsel_eqb sel_rate) sel'); [by apply well_sized_nan_at|done].
  - destruct Hwf as (HN & Hv & Hr). unfold reset, well_sized. simpl.
    destruct bcs; rewrite ?length_all_nan; done.
Qed.

(** X1. Whatever is called on the algorithm, and whether the calls return or
    raise, the arrays of value and of rate conditions keep one entry per
    pore. *)
Theorem reachable_well_sized (n : nat) (self : GenericTransport) :
  reachable n self -> well_sized n self.
Proof.
  induction 1 as [|self c _ IH].
  - unfold well_sized, init. simpl. by rewrite !length_all_nan.
  - by apply well_sized_after.
Qed.

Lemma reachable_well_sized_witness :
  well_sized 3
    (after (after (init 3) (call_set_value_BC [0; 7] (Scalar (Some 10%Q)) overwrite))
       (call_remove_BC None [sel_rate])).
Proof.
  apply (reachable_well_sized 3).
  apply reachable_call. apply reachable_call. apply reachable_init.
Defined.

(** The explicit result of a call in 'merge' mode with one scalar. *)
Lemma _set_BC_merge_scalar_eq (self : GenericTransport) (pores : list nat)
    (t : bctype) (v : option Q) :
  length (bc t self) = length (bc (othertype t) self) ->
  (forall p, p ∈ pores -> p < length (bc t self)) ->
  exists hit,
    take (isfinite (bc (othertype t) self)) pores = Ok hit
    /\ let inds := compress pores hit in
       let pores' := if 0 <? length inds then setdiff1d pores inds else pores in
       _set_BC self pores t (Scalar v) merge
       = (set_bc t (scatter (bc t self) pores' (replicate (length pores') v)) self,
          Ok inds).
Proof.
  intros Hlen Hrange.
  destruct (take_total (isfinite (bc (othertype t) self)) pores) as [hit Htake].
  { intros p Hp. unfold isfinite. rewrite length_map, <- Hlen. by apply Hrange. }
  exists hit. split; [done|]. intros inds pores'.
  rewrite _set_BC_unfold by (left; simpl; lia). simpl. rewrite Htake.
  fold inds. fold pores'.
  rewrite put_scalar_Ok; [done|].
  intros i Hi. apply Hrange. by apply (targets_spec _ _ _ i Htake) in Hi as [Hi _].
Qed.

Lemma set_bc_set_bc (t : bctype) (a a' : list (option Q)) (self : GenericTransport) :
  set_bc t a (set_bc t a' self) = set_bc t a self.
Proof. by destruct t. Qed.

Lemma scatter_replicate_twice {A : Type} (a : list A) (idx : list nat) (v : A) :
  (forall i, i ∈ idx -> i < length a) ->
  scatter (scatter a idx (replicate (length idx) v)) idx (replicate (length idx) v)
  = scatter a idx (replicate (length idx) v).
Proof.
  intros Hrange. apply list_eq. intros i.
  destruct (decide (i ∈ idx)) as [Hin|Hnin].
  - rewrite !scatter_replicate; try done.
    + by apply Hrange.
    + rewrite length_scatter. by apply Hrange.
  - by rewrite scatter_lookup_notin.
Qed.

(** X2. Setting conditions in 'merge' mode with one scalar on pores in range:
    the call returns; it reports exactly the given pores that carry the
    other kind and leaves them as they are; every other given pore holds the
    scalar, whatever it held of the same kind; nothing else changes. This
    is so for [set_value_BC] and for [set_rate_BC] with [rates]. *)
Theorem merge_scalar_skips_conflicts (n : nat) (self : GenericTransport)
    (pores : list nat) (t : bctype) (v : option Q) :
  well_sized n self -> (forall p, p ∈ pores -> p < n) ->
  exists self' inds,
    match t with
    | Value => set_value_BC self pores (Scalar v) merge
    | Rate => set_rate_BC self pores (by_rates (Scalar v)) merge
    end = (self', Ok inds)
    /\ (forall p, p ∈ inds <-> p ∈ pores /\ has_bc (othertype t) self p)
    /\ bc (othertype t) self' = bc (othertype t) self
    /\ (forall p, p ∈ pores -> ~ has_bc (othertype t) self p -> bc t self' !! p = Some v)
    /\ (forall i, i ∉ pores \/ has_bc (othertype t) self i ->
                  bc t self' !! i = bc t self !! i).
Proof.
  intros Hwf Hrange.
  destruct (_set_BC_merge_scalar self pores t v) as (self' & inds & H).
  - by rewrite !(well_sized_bc n).
  - intros p Hp. rewrite (well_sized_bc n) by done. by apply Hrange.
  - exists self', inds. by destruct t.
Qed.

Lemma merge_scalar_skips_conflicts_witness :
  let self := (set_value_BC (init 3) [0] (Scalar (Some 10%Q)) merge).1 in
  exists self' inds,
    set_rate_BC self [0; 1] (by_rates (Scalar (Some 5%Q))) merge = (self', Ok inds)
    /\ bc_value self' = bc_value self.
Proof.
  intros self.
  destruct (merge_scalar_skips_conflicts 3 self [0; 1] Rate (Some 5%Q))
    as (self' & inds & H1 & _ & H3 & _).
  - repeat split.
  - intros p Hp. repeat (apply elem_of_cons in Hp as [->|Hp]; [lia|]).
    by apply elem_of_nil in Hp.
  - exists self', inds. split; [exact H1|exact H3].
Defined.

(** X3. Repeating a call in 'merge' mode with one scalar changes nothing more:
    the second call leaves the object the first one left and reports the
    same pores. *)
Theorem merge_scalar_idempotent (n : nat) (self : GenericTransport)
    (pores : list nat) (t : bctype) (v : option Q) :
  well_sized n self -> (forall p, p ∈ pores -> p < n) ->
  let first := _set_BC self pores t (Scalar v) merge in
  _set_BC first.1 pores t (Scalar v) merge = first.
Proof.
  intros Hwf Hrange first.
  destruct (_set_BC_merge_scalar_eq self pores t v) as (hit & Htake & Heq).
  { by rewrite !(well_sized_bc n). }
  { intros p Hp. rewrite (well_sized_bc n) by done. by apply Hrange. }
  simpl in Heq. unfold first. rewrite Heq. simpl.
  set (inds := compress pores hit) in *.
  set (pores' := if 0 <? length inds then setdiff1d pores inds else pores) in *.
  set (a := scatter (bc t self) pores' (replicate (length pores') v)).
  destruct (_set_BC_merge_scalar_eq (set_bc t a self) pores t v)
    as (hit' & Htake' & Heq').
  { rewrite bc_set_bc_same, bc_set_bc_other. unfold a.
    by rewrite length_scatter, !(well_sized_bc n). }
  { intros p Hp. rewrite bc_set_bc_same. unfold a.
    rewrite length_scatter, (well_sized_bc n) by done. by apply Hrange. }
  rewrite bc_set_bc_other, Htake in Htake'. inversion Htake'; subst hit'.
  simpl in Heq'. fold inds in Heq'. fold pores' in Heq'. rewrite Heq'.
  rewrite bc_set_bc_same, set_bc_set_bc. unfold a.
  rewrite scatter_replicate_twice; [done|].
  intros i Hi. rewrite (well_sized_bc n) by done. apply Hrange.
  by apply (targets_spec _ _ _ i Htake) in Hi as [Hi _].
Qed.

Lemma merge_scalar_idempotent_witness :
  let self := (set_value_BC (init 3) [0] (Scalar (Some 10%Q)) merge).1 in
  let first := _set_BC self [1; 0; 1] Rate (Scalar (Some 5%Q)) merge in
  _set_BC first.1 [1; 0; 1] Rate (Scalar (Some 5%Q)) merge = first.
Proof.
  intros self.
  apply (merge_scalar_idempotent 3 self [1; 0; 1] Rate (Some 5%Q)).
  - repeat split.
  - intros p Hp. repeat (apply elem_of_cons in Hp as [->|Hp]; [lia|]).
    by apply elem_of_nil in Hp.
Defined.

Lemma scatter_lookup_NoDup {A : Type} (a : list A) (idx : list nat) (vs : list A)
    (k p : nat) (v : A) :
  NoDup idx -> idx !! k = Some p -> vs !! k = Some v -> p < length a ->
  scatter a idx vs !! p = Some v.
Proof.
  revert a vs k. induction idx as [|j idx IH]; intros a vs k Hnd Hk Hv Hp.
  - done.
  - destruct vs as [|w vs]; [done|].
    apply NoDup_cons in Hnd as [Hj Hnd].
    change (scatter (<[j:=w]> a) idx vs !! p = Some v).
    destruct k as [|k]; simpl in Hk, Hv.
    + inversion Hk; inversion Hv; subst.
      rewrite scatter_lookup_notin by done. by apply list_lookup_insert_eq.
    + apply (IH _ _ k); try done. by rewrite length_insert.
Qed.

(** X4. Values given one per pore, on distinct pores in range none of which
    carries the other kind: the call returns without skipping a pore and
    every pore holds its own value afterwards; the pores not given and the
    other kind are as before. *)
Theorem merge_vector_round_trip (n : nat) (self : GenericTransport)
    (pores : list nat) (t : bctype) (vs : list (option Q)) :
  well_sized n self -> length vs = length pores -> NoDup pores ->
  (forall p, p ∈ pores -> p < n /\ ~ has_bc (othertype t) self p) ->
  exists self',
    _set_BC self pores t (Vector vs) merge = (self', Ok [])
    /\ (forall k p v, pores !! k = Some p -> vs !! k = Some v ->
                      bc t self' !! p = Some v)
    /\ (forall i, i ∉ pores -> bc t self' !! i = bc t self !! i)
    /\ bc (othertype t) self' = bc (othertype t) self.
Proof.
  intros Hwf Hlen Hnd Hpores.
  rewrite _set_BC_unfold by (right; done). simpl.
  destruct (take_total (isfinite (bc (othertype t) self)) pores) as [hit Htake].
  { intros p Hp. unfold isfinite. rewrite length_map, (well_sized_bc n) by done.
    by apply Hpores. }
  rewrite Htake.
  assert (Hnil : compress pores hit = []).
  { destruct (compress pores hit) as [|p l] eqn:Hc; [done|].
    assert (Hp : p ∈ compress pores hit) by (rewrite Hc; by left).
    apply (inds_spec _ _ _ p Htake) in Hp as [Hp Hbc].
    by destruct (Hpores p Hp). }
  rewrite Hnil. simpl. unfold put.
  replace (forallb _ pores) with true.
  2:{ symmetry. apply forallb_forall. intros i Hi. apply Nat.ltb_lt.
      rewrite (well_sized_bc n) by done. by apply Hpores, list_elem_of_In. }
  simpl. rewrite Hlen, Nat.eqb_refl. simpl.
  eexists. split; [reflexivity|]. split; [|split].
  - intros k p v Hk Hv. rewrite bc_set_bc_same.
    apply (scatter_lookup_NoDup _ _ _ k); try done.
    rewrite (well_sized_bc n) by done. apply Hpores.
    by eapply list_elem_of_lookup_2.
  - intros i Hi. rewrite bc_set_bc_same. by apply scatter_lookup_notin.
  - apply bc_set_bc_other.
Qed.

Lemma merge_vector_round_trip_witness :
  exists self',
    _set_BC (init 3) [2; 0] Value (Vector [Some 7%Q; Some 9%Q]) merge = (self', Ok [])
    /\ bc Value self' !! 0 = Some (Some 9%Q).
Proof.
  destruct (merge_vector_round_trip 3 (init 3) [2; 0] Value [Some 7%Q; Some 9%Q])
    as (self' & H1 & H2 & _).
  - repeat split.
  - reflexivity.
  - by apply (bool_decide_unpack _).
  - intros p Hp. split.
    + repeat (apply elem_of_cons in Hp as [->|Hp]; [lia|]). by apply elem_of_nil in Hp.
    + intros [q Hq]. simpl in Hq. by apply all_nan_lookup in Hq.
  - exists self'. split; [exact H1|]. by apply (H2 1 0).
Defined.

Lemma take_out_of_range {A : Type} (a : list A) (idx : list nat) (i : nat) :
  i ∈ idx -> length a <= i -> take a idx = Raise IndexError.
Proof.
  intros Hi Hge. induction idx as [|j idx IH]; [by apply elem_of_nil in Hi|].
  simpl. destruct (a !! j) as [v|] eqn:Hj; [|done].
  apply elem_of_cons in Hi as [->|Hi].
  - apply lookup_lt_Some in Hj. lia.
  - by rewrite IH.
Qed.

(** X5. A pore out of range makes [_set_BC] raise numpy's index error. In
    'merge' mode the object is left as it was; in 'overwrite' mode the
    conditions of the targeted kind have already been cleared on all pores
    when the error is raised, and they stay cleared. *)
Theorem _set_BC_out_of_range (n : nat) (self : GenericTransport) (pores : list nat)
    (t : bctype) (values : ndvalues) (p : nat) :
  well_sized n self -> size values <= 1 \/ size values = length pores ->
  p ∈ pores -> n <= p ->
  _set_BC self pores t values merge = (self, Raise IndexError)
  /\ (_set_BC self pores t values overwrite).2 = Raise IndexError
  /\ (forall i, ~ has_bc t (_set_BC self pores t values overwrite).1 i)
  /\ bc (othertype t) (_set_BC self pores t values overwrite).1
     = bc (othertype t) self.
Proof.
  intros Hwf Hsize Hp Hge.
  rewrite !_set_BC_unfold by done. simpl.
  rewrite bc_set_bc_other.
  rewrite (take_out_of_range _ pores p); [|done|].
  2:{ unfold isfinite. by rewrite length_map, (well_sized_bc n). }
  simpl. split; [done|]. split; [done|]. split.
  - intros i [q Hq]. rewrite bc_set_bc_same in Hq. by apply all_nan_lookup in Hq.
  - apply bc_set_bc_other.
Qed.

Lemma _set_BC_out_of_range_witness :
  let self := (set_value_BC (init 2) [0] (Scalar (Some 10%Q)) merge).1 in
  (_set_BC self [1; 5] Value (Scalar (Some 3%Q)) overwrite).2 = Raise IndexError
  /\ ~ has_bc Value (_set_BC self [1; 5] Value (Scalar (Some 3%Q)) overwrite).1 0.
Proof.
  intros self.
  destruct (_set_BC_out_of_range 2 self [1; 5] Value (Scalar (Some 3%Q)) 5)
    as (_ & H2 & H3 & _).
  - repeat split.
  - left. simpl. lia.
  - by apply (bool_decide_unpack _).
  - lia.
  - split; [exact H2|apply H3].
Defined.

Lemma nan_at_eq (self : GenericTransport) (t : bctype) (ps : list nat) :
  (forall p, p ∈ ps -> p < length (bc t self)) ->
  nan_at self t ps
  = (set_bc t (scatter (bc t self) ps (replicate (length ps) None)) self, Ok tt).
Proof. intros H. unfold nan_at. by rewrite put_scalar_Ok. Qed.

Lemma scatter_nan_lookup (a : list (option Q)) (ps : list nat) (i : nat) :
  (forall p, p ∈ ps -> p < length a) ->
  scatter a ps (replicate (length ps) None) !! i
  = if bool_decide (i ∈ ps) then Some None else a !! i.
Proof.
  intros H. destruct (bool_decide_reflect (i ∈ ps)) as [Hin|Hnin].
  - apply scatter_replicate; [done|by apply H].
  - by apply scatter_lookup_notin.
Qed.

Lemma selects_after_all (sel : list bcsel) (t : bctype) :
  existsb (bcsel_eqb match t with Value => sel_value | Rate => sel_rate end)
    (if existsb (bcsel_eqb sel_all) sel then [sel_value; sel_rate] else sel)
  = selects sel t.
Proof.
  unfold selects. destruct (existsb (bcsel_eqb sel_all) sel); [|done].
  by destruct t.
Qed.

(** What [remove_BC] leaves, entry by entry, on pores in range. *)
Lemma remove_BC_lookup (n : nat) (self : GenericTransport)
    (pores : option (list nat)) (sel : list bcsel) :
  well_sized n self ->
  let ps := default (seq 0 n) pores in
  (forall p, p ∈ ps -> p < n) ->
  exists self',
    remove_BC self pores sel = (self', Ok tt)
    /\ forall t i, bc t self' !! i
                   = if selects sel t && bool_decide (i ∈ ps)
                     then Some None else bc t self !! i.
Proof.
  intros Hwf ps Hrange. unfold remove_BC.
  rewrite (selects_after_all sel Value), (selects_after_all sel Rate).
  assert (Hps : match pores with Some ps => ps | None => seq 0 (Np self) end = ps).
  { unfold ps. destruct pores; [done|]. simpl. by destruct Hwf as [-> _]. }
  rewrite Hps.
  assert (Hr : forall s t, well_sized n s -> forall p, p ∈ ps -> p < length (bc t s)).
  { intros s t Hs p Hp. rewrite (well_sized_bc n) by done. by apply Hrange. }
  destruct (selects sel Value) eqn:Hv.
  - rewrite nan_at_eq by (by apply Hr).
    set (s1 := set_bc Value _ self).
    assert (Hwf1 : well_sized n s1).
    { apply well_sized_set_bc; [done|]. rewrite length_scatter. apply Hwf. }
    destruct (selects sel Rate) eqn:Hrt.
    + rewrite nan_at_eq by (by apply Hr). eexists. split; [reflexivity|].
      intros [] i; simpl; rewrite ?Hv, ?Hrt; simpl.
      * apply scatter_nan_lookup. by apply (Hr self Value).
      * apply scatter_nan_lookup. by apply (Hr self Rate).
    + eexists. split; [reflexivity|].
      intros [] i; simpl; rewrite ?Hv, ?Hrt; simpl; [|done].
      apply scatter_nan_lookup. by apply (Hr self Value).
  - destruct (selects sel Rate) eqn:Hrt.
    + rewrite nan_at_eq by (by apply Hr). eexists. split; [reflexivity|].
      intros [] i; simpl; rewrite ?Hv, ?Hrt; simpl; [done|].
      apply scatter_nan_lookup. by apply (Hr self Rate).
    + eexists. split; [reflexivity|].
      intros [] i; simpl; rewrite ?Hv, ?Hrt; done.
Qed.

(** X6. [remove_BC] on pores in range (all pores when none are given): it
    returns; the given pores hold no condition of the selected kinds
    afterwards, whether or not they held one; a kind that is not selected and
    the pores that are not given are as before. With no pores given, no pore
    at all holds a condition of a selected kind. *)
Theorem remove_BC_clears_selected (n : nat) (self : GenericTransport)
    (pores : option (list nat)) (sel : list bcsel) :
  well_sized n self ->
  let ps := default (seq 0 n) pores in
  (forall p, p ∈ ps -> p < n) ->
  exists self',
    remove_BC self pores sel = (self', Ok tt)
    /\ (forall t i, selects sel t = true -> i ∈ ps -> ~ has_bc t self' i)
    /\ (forall t, selects sel t = false -> bc t self' = bc t self)
    /\ (forall t i, i ∉ ps -> bc t self' !! i = bc t self !! i)
    /\ (pores = None -> forall t i, selects sel t = true -> ~ has_bc t self' i).
Proof.
  intros Hwf ps Hrange.
  destruct (remove_BC_lookup n self pores sel Hwf Hrange) as (self' & Heq & Hlk).
  fold ps in Hlk.
  assert (Hclr : forall t i, selects sel t = true -> i ∈ ps -> ~ has_bc t self' i).
  { intros t i Hs Hi [q Hq]. rewrite Hlk, Hs in Hq.
    rewrite bool_decide_eq_true_2 in Hq by done. discriminate. }
  exists self'. split; [done|]. split; [done|]. split; [|split].
  - intros t Hs. apply list_eq. intros i. by rewrite Hlk, Hs.
  - intros t i Hi. rewrite Hlk, bool_decide_eq_false_2 by done.
    by rewrite andb_false_r.
  - intros -> t i Hs [q Hq].
    destruct (decide (i < n)) as [Hlt|Hge].
    + apply (Hclr t i Hs); [|by exists q]. unfold ps. simpl.
      apply elem_of_seq. lia.
    + rewrite Hlk in Hq. unfold ps in Hq. simpl in Hq.
      rewrite bool_decide_eq_false_2, andb_false_r in Hq.
      * apply lookup_lt_Some in Hq. rewrite (well_sized_bc n) in Hq by done. lia.
      * rewrite elem_of_seq. lia.
Qed.

Lemma remove_BC_clears_selected_witness :
  let self := (set_value_BC (init 3) [0; 1] (Scalar (Some 10%Q)) merge).1 in
  exists self',
    remove_BC self (Some [1; 2]) [sel_value] = (self', Ok tt)
    /\ ~ has_bc Value self' 1.
Proof.
  intros self.
  destruct (remove_BC_clears_selected 3 self (Some [1; 2]) [sel_value])
    as (self' & H1 & H2 & _).
  - repeat split.
  - intros p Hp. simpl in Hp.
    repeat (apply elem_of_cons in Hp as [->|Hp]; [lia|]). by apply elem_of_nil in Hp.
  - exists self'. split; [exact H1|]. apply H2; [done|].
    simpl. by apply (bool_decide_unpack _).
Defined.

Lemma put_out_of_range (a : list (option Q)) (idx : list nat) (values : ndvalues)
    (p : nat) :
  p ∈ idx -> length a <= p -> put a idx values = Raise IndexError.
Proof.
  intros Hp Hge. unfold put.
  destruct (forallb _ idx) eqn:Hall; [|done].
  rewrite forallb_forall in Hall. apply list_elem_of_In, Hall, Nat.ltb_lt in Hp. lia.
Qed.

(** X7. [remove_BC] with a pore out of range, when a kind is selected: it
    raises numpy's index error and leaves every condition as it was. *)
Theorem remove_BC_out_of_range (n : nat) (self : GenericTransport)
    (ps : list nat) (sel : list bcsel) (p : nat) :
  well_sized n self -> p ∈ ps -> n <= p ->
  selects sel Value || selects sel Rate = true ->
  remove_BC self (Some ps) sel = (self, Raise IndexError).
Proof.
  intros Hwf Hp Hge Hsel. unfold remove_BC.
  rewrite (selects_after_all sel Value), (selects_after_all sel Rate).
  assert (Hraise : forall t, nan_at self t ps = (self, Raise IndexError)).
  { intros t. unfold nan_at. rewrite (put_out_of_range _ ps _ p); [done|done|].
    by rewrite (well_sized_bc n). }
  destruct (selects sel Value); [by rewrite Hraise|].
  simpl in Hsel. rewrite Hsel. by rewrite Hraise.
Qed.

Lemma remove_BC_out_of_range_witness :
  let self := (set_value_BC (init 2) [0] (Scalar (Some 10%Q)) merge).1 in
  remove_BC self (Some [0; 2]) [sel_all] = (self, Raise IndexError).
Proof.
  intros self. apply (remove_BC_out_of_range 2 self [0; 2] [sel_all] 2).
  - repeat split.
  - by apply (bool_decide_unpack _).
  - lia.
  - reflexivity.
Defined.

Lemma set_bc_same (t : bctype) (self : GenericTransport) :
  set_bc t (bc t self) self = self.
Proof. by destruct t, self. Qed.

(** X8. Setting a condition with one scalar on pores that hold no condition
    and then removing that kind from the same pores gives back the object
    there was before. *)
Theorem set_then_remove_round_trip (n : nat) (self : GenericTransport)
    (pores : list nat) (t : bctype) (v : option Q) :
  well_sized n self ->
  (forall p, p ∈ pores -> p < n /\ ~ has_bc Value self p /\ ~ has_bc Rate self p) ->
  let set := (_set_BC self pores t (Scalar v) merge).1 in
  remove_BC set (Some pores) [match t with Value => sel_value | Rate => sel_rate end]
  = (self, Ok tt).
Proof.
  intros Hwf Hpores set.
  assert (Hrange : forall p, p ∈ pores -> p < length (bc t self)).
  { intros p Hp. rewrite (well_sized_bc n) by done. by apply Hpores. }
  destruct (_set_BC_merge_scalar_eq self pores t v) as (hit & Htake & Heq);
    [by rewrite !(well_sized_bc n)|done|].
  simpl in Heq.
  assert (Hnil : compress pores hit = []).
  { destruct (compress pores hit) as [|p l] eqn:Hc; [done|].
    assert (Hp : p ∈ compress pores hit) by (rewrite Hc; by left).
    apply (inds_spec _ _ _ p Htake) in Hp as [Hp Hbc].
    destruct (Hpores p Hp) as (_ & Hv & Hr). by destruct t. }
  rewrite Hnil in Heq. simpl in Heq. unfold set. rewrite Heq. simpl.
  set (a := scatter (bc t self) pores (replicate (length pores) v)).
  assert (Hback : scatter a pores (replicate (length pores) None) = bc t self).
  { apply list_eq. intros i. rewrite scatter_nan_lookup.
    2:{ intros p Hp. unfold a. rewrite length_scatter. by apply Hrange. }
    destruct (bool_decide_reflect (i ∈ pores)) as [Hin|Hnin].
    - destruct (Hpores i Hin) as (Hi & Hv & Hr).
      destruct (lookup_lt_is_Some_2 (bc t self) i) as [[q|] Hq];
        [by rewrite (well_sized_bc n)| |done].
      exfalso. destruct t; [apply Hv|apply Hr]; by exists q.
    - unfold a. by rewrite scatter_lookup_notin. }
  assert (Hnan : nan_at (set_bc t a self) t pores = (self, Ok tt)).
  { rewrite nan_at_eq.
    - by rewrite bc_set_bc_same, Hback, set_bc_set_bc, set_bc_same.
    - intros p Hp. rewrite bc_set_bc_same. unfold a. rewrite length_scatter.
      by apply Hrange. }
  unfold remove_BC. destruct t; cbn [existsb bcsel_eqb orb]; by rewrite Hnan.
Qed.

Lemma set_then_remove_round_trip_witness :
  remove_BC (_set_BC (init 3) [0; 2] Rate (Scalar (Some 5%Q)) merge).1
    (Some [0; 2]) [sel_rate]
  = (init 3, Ok tt).
Proof.
  apply (set_then_remove_round_trip 3 (init 3) [0; 2] Rate (Some 5%Q)).
  - repeat split.
  - intros p Hp. split; [|split].
    + repeat (apply elem_of_cons in Hp as [->|Hp]; [lia|]). by apply elem_of_nil in Hp.
    + intros [q Hq]. simpl in Hq. by apply all_nan_lookup in Hq.
    + intros [q Hq]. simpl in Hq. by apply all_nan_lookup in Hq.
Defined.

Local Open Scope Q_scope.

Lemma Qsum_const {A : Type} (c : Q) (l : list A) :
  Qsum (map (fun _ => c) l) == inject_Z (Z.of_nat (length l)) * c.
Proof.
  induction l as [|a l IH].
  - simpl. ring.
  - cbn [map Qsum foldr length]. fold (Qsum (map (fun _ : A => c) l)).
    rewrite IH, Nat2Z.inj_succ. unfold Z.succ. rewrite inject_Z_plus. ring.
Qed.

Lemma Qsum_nth_seq (l : list Q) :
  Qsum l == Qsum (map (fun i => nth i l 0) (seq 0 (length l))).
Proof.
  induction l as [|a l IH].
  - reflexivity.
  - cbn [length seq map nth]. rewrite <- seq_shift, map_map.
    change (Qsum (a :: l)) with (a + Qsum l).
    change (Qsum (a :: ?t)) with (a + Qsum t).
    rewrite IH. reflexivity.
Qed.

Lemma Qsum_members (c : Q) (l : list nat) (n : nat) :
  NoDup l -> (forall p, p ∈ l -> (p < n)%nat) ->
  Qsum (map (fun i => if bool_decide (i ∈ l) then c else 0) (seq 0 n))
  == inject_Z (Z.of_nat (length l)) * c.
Proof.
  induction l as [|p l IH]; intros Hnd Hr.
  - rewrite Qsum_zero; [simpl; ring|]. intros i _.
    rewrite bool_decide_eq_false_2; [reflexivity|]. apply not_elem_of_nil.
  - apply NoDup_cons in Hnd as [Hp Hnd].
    rewrite (Qsum_ext _ (fun i => (if (i =? p)%nat then c else 0)
                                  + (if bool_decide (i ∈ l) then c else 0))).
    + rewrite Qsum_plus, (Qsum_pick n p (fun _ => c)), IH.
      * assert ((p <? n)%nat = true) as ->.
        { apply Nat.ltb_lt, Hr. by left. }
        cbn [length]. rewrite Nat2Z.inj_succ. unfold Z.succ.
        rewrite inject_Z_plus. ring.
      * done.
      * intros q Hq. apply Hr. by right.
    + intros i _. destruct (Nat.eqb_spec i p) as [->|Hne].
      * rewrite bool_decide_eq_true_2 by (by left).
        rewrite bool_decide_eq_false_2 by done. ring.
      * destruct (decide (i ∈ l)) as [Hi|Hi].
        -- rewrite !bool_decide_eq_true_2; [ring|done|by right].
        -- rewrite !bool_decide_eq_false_2; [ring|done|].
           intros H. apply elem_of_cons in H as [?|?]; done.
Qed.

(** X9. [set_rate_BC] with [total_rate] on a non-empty list of pores in range:
    the rate written is the total divided by the number of pores given,
    counted before any pore is skipped. Every given pore that carries no
    value holds that share. When the given pores are distinct and none of
    them carries a value, the rates written to them add up to the total;
    and when no other pore held a rate, so does the whole array of rate
    conditions. *)
Theorem total_rate_is_shared (n : nat) (self : GenericTransport)
    (pores : list nat) (total_rate : Q) :
  well_sized n self -> pores <> [] -> (forall p, p ∈ pores -> (p < n)%nat) ->
  let share := total_rate / inject_Z (Z.of_nat (length pores)) in
  exists self' inds,
    set_rate_BC self pores (by_total_rate total_rate) merge = (self', Ok inds)
    /\ (forall p, p ∈ inds <-> p ∈ pores /\ has_bc Value self p)
    /\ (forall p, p ∈ pores -> ~ has_bc Value self p ->
                  bc_rate self' !! p = Some (Some share))
    /\ (NoDup pores -> (forall p, p ∈ pores -> ~ has_bc Value self p) ->
        Qsum (map (fun p => nth p (finite_part (bc_rate self')) 0) pores)
        == total_rate
        /\ ((forall i, i ∉ pores -> ~ has_bc Rate self i) ->
            Qsum (finite_part (bc_rate self')) == total_rate)).
Proof.
  intros Hwf Hne Hrange share.
  destruct (_set_BC_merge_scalar self pores Rate (Some share))
    as (self' & inds & Heq & Hinds & _ & Hset & Hkeep).
  { by rewrite !(well_sized_bc n). }
  { intros p Hp. rewrite (well_sized_bc n) by done. by apply Hrange. }
  assert (Hshare : inject_Z (Z.of_nat (length pores)) * share == total_rate).
  { unfold share. field.
    intros H. destruct pores; [done|].
    unfold Qeq in H. simpl in H. lia. }
  exists self', inds. split; [|split; [done|split; [done|]]].
  - unfold set_rate_BC.
    assert ((length pores =? 0)%nat = false) as ->; [|exact Heq].
    apply Nat.eqb_neq. by destruct pores.
  - intros Hnd Hfree.
    assert (Hin : forall p, p ∈ pores ->
              nth p (finite_part (bc_rate self')) 0 = share).
    { intros p Hp. rewrite nth_lookup. unfold finite_part.
      rewrite list_lookup_fmap. simpl in Hset.
      by rewrite (Hset p Hp (Hfree p Hp)). }
    split.
    + rewrite (Qsum_ext _ (fun _ => share)).
      * by rewrite Qsum_const.
      * intros p Hp. by rewrite Hin.
    + intros Hnone.
      assert (Hlen : length (finite_part (bc_rate self')) = n).
      { pose proof (well_sized__set_BC n self pores Rate (Scalar (Some share)) merge Hwf)
          as Hwf'.
        rewrite Heq in Hwf'. unfold finite_part. rewrite length_map. apply Hwf'. }
      rewrite Qsum_nth_seq, Hlen.
      rewrite (Qsum_ext _ (fun i => if bool_decide (i ∈ pores) then share else 0)).
      * by rewrite Qsum_members.
      * intros i _. destruct (decide (i ∈ pores)) as [Hi|Hi].
        -- rewrite bool_decide_eq_true_2 by done. by rewrite Hin.
        -- rewrite bool_decide_eq_false_2 by done.
           rewrite nth_lookup. unfold finite_part. rewrite list_lookup_fmap.
           simpl in Hkeep. rewrite (Hkeep i) by (by left).
           destruct (bc_rate self !! i) as [[q|]|] eqn:Hq; try reflexivity.
           exfalso. apply (Hnone i Hi). by exists q.
Qed.

Lemma total_rate_is_shared_witness :
  exists self' inds,
    set_rate_BC (init 4) [1; 2; 3]%nat (by_total_rate 6) merge = (self', Ok inds)
    /\ bc_rate self' !! 2%nat = Some (Some (6 / inject_Z (Z.of_nat 3)))
    /\ Qsum (finite_part (bc_rate self')) == 6.
Proof.
  destruct (total_rate_is_shared 4 (init 4) [1; 2; 3]%nat 6)
    as (self' & inds & H1 & _ & H3 & H4).
  - repeat split.
  - discriminate.
  - intros p Hp.
    repeat (apply elem_of_cons in Hp as [->|Hp]; [lia|]). by apply elem_of_nil in Hp.
  - exists self', inds. split; [exact H1|]. split.
    + apply H3.
      * by apply (bool_decide_unpack _).
      * intros [q Hq]. discriminate.
    + apply H4.
      * by apply (bool_decide_unpack _).
      * intros p _ [q Hq]. destruct p as [|[|[|[|p]]]]; discriminate.
      * intros i _ [q Hq]. destruct i as [|[|[|[|i]]]]; discriminate.
Defined.

(** * Further properties of the assembled system *)

Lemma shape__apply_BCs_A (A : coo_matrix) (bc_value : list (option Q)) :
  shape (_apply_BCs_A A bc_value) = shape A.
Proof. done. Qed.

(** Row [i] of the matrix-vector product, from the entries of the matrix. *)
Lemma nth_dot (A : coo_matrix) (v : list Q) (i : nat) :
  length v = shape A -> (i < shape A)%nat ->
  nth i (dot A v) 0 == Qsum (map (fun j => entry A i j * nth j v 0) (seq 0 (shape A))).
Proof.
  intros Hlen Hi. rewrite (nth_lookup_Q _ _ _ (dot_lookup A v i Hi)).
  by apply dot_entries.
Qed.

(** Row [i] of the product with the matrix [_apply_BCs] leaves, for a pore
    with a value condition: [f] times the entry of the vector. *)
Lemma dot_value_row (bc_value : list (option Q)) (A : coo_matrix)
    (x : list Q) (i : nat) (v : Q) :
  length bc_value = shape A -> length x = shape A -> (i < shape A)%nat ->
  bc_value !! i = Some (Some v) ->
  nth i (dot (_apply_BCs_A A bc_value) x) 0 == mean (diagonal A) * nth i x 0.
Proof.
  intros Hv Hx Hi Hvi. rewrite nth_dot by done.
  rewrite (Qsum_ext _ (fun j => if (j =? i)%nat
                                then mean (diagonal A) * nth j x 0 else 0)).
  2:{ intros j Hj. apply elem_of_seq in Hj.
      rewrite entry__apply_BCs_A by (done || (simpl in *; lia)).
      assert (isin i (to_indices (isfinite bc_value)) = true) as ->.
      { apply isin_to_indices. by exists v. }
      simpl. rewrite (Nat.eqb_sym j i). destruct (i =? j)%nat; ring. }
  rewrite Qsum_pick. simpl.
  by destruct (Nat.ltb_spec i (shape A)); [|lia].
Qed.

(** Row [i] of the product with the matrix before the boundary conditions,
    for a pore without a value condition: the row of the matrix
    [_apply_BCs] leaves, plus the terms of the pores with a value. *)
Lemma dot_free_row (bc_value : list (option Q)) (A : coo_matrix)
    (x : list Q) (i : nat) :
  length bc_value = shape A -> length x = shape A -> (i < shape A)%nat ->
  ~ (exists v, bc_value !! i = Some (Some v)) ->
  nth i (dot A x) 0
  == nth i (dot (_apply_BCs_A A bc_value) x) 0
     + Qsum (map (fun j => match bc_value !! j with
                           | Some (Some _) => entry A i j * nth j x 0
                           | _ => 0
                           end)
                 (seq 0 (shape A))).
Proof.
  intros Hv Hx Hi Hno. rewrite !nth_dot by done.
  change (shape (_apply_BCs_A A bc_value)) with (shape A).
  rewrite <- Qsum_plus. apply Qsum_ext. intros j Hj.
  apply elem_of_seq in Hj.
  rewrite entry__apply_BCs_A by (done || (simpl in *; lia)).
  assert (isin i (to_indices (isfinite bc_value)) = false) as ->.
  { apply not_true_is_false. rewrite isin_to_indices. exact Hno. }
  simpl.
  destruct (isin j (to_indices (isfinite bc_value))) eqn:Hin.
  - apply isin_to_indices in Hin as [v Hvj]. rewrite Hvj.
    destruct (Nat.eqb_spec i j) as [->|_]; [|ring].
    exfalso. apply Hno. by exists v.
  - destruct (bc_value !! j) as [[v|]|] eqn:Hvj; try ring.
    exfalso. apply not_true_iff_false in Hin. apply Hin.
    apply isin_to_indices. by exists v.
Qed.

(** The sum of the value terms, for a vector that holds the values. *)
Lemma value_terms_known (bc_value : list (option Q)) (A : coo_matrix)
    (x : list Q) (i : nat) :
  (forall j v, bc_value !! j = Some (Some v) -> nth j x 0 == v) ->
  Qsum (map (fun j => match bc_value !! j with
                      | Some (Some _) => entry A i j * nth j x 0
                      | _ => 0
                      end)
            (seq 0 (shape A)))
  == value_terms A bc_value i.
Proof.
  intros Hknown. unfold value_terms. apply Qsum_ext. intros j _.
  destruct (bc_value !! j) as [[v|]|] eqn:Hvj; try reflexivity.
  by rewrite (Hknown j v Hvj).
Qed.

(** X10. The system [_apply_BCs] leaves fixes the value at every pore with a
    value condition: when the scale [f], the mean of the diagonal of [A], is
    not zero, a vector [x] that satisfies row [i] of the system holds the
    value of pore [i] at place [i]. *)
Theorem value_row_fixes_the_value (self : GenericTransport) (A : coo_matrix)
    (x : list Q) (i : nat) (v : Q) :
  length (bc_rate self) = shape A -> length (bc_value self) = shape A ->
  length x = shape A -> (i < shape A)%nat ->
  bc_value self !! i = Some (Some v) ->
  ~ mean (diagonal A) == 0 ->
  let A' := _apply_BCs_A A (bc_value self) in
  let b' := _apply_BCs_b A (replicate (shape A) 0) (bc_rate self) (bc_value self) in
  nth i (dot A' x) 0 == nth i b' 0 ->
  nth i x 0 == v.
Proof.
  intros Hr Hv Hx Hi Hvi Hf A' b' Hrow.
  unfold A' in Hrow. rewrite (dot_value_row _ _ _ _ v) in Hrow by done.
  destruct (_apply_BCs_b_lookup A (replicate (shape A) 0) (bc_rate self)
              (bc_value self) i) as (q & Hq & Heq);
    [apply length_replicate|done|done|done|].
  fold b' in Hq. rewrite (nth_lookup_Q b' i q Hq), Heq, Hvi in Hrow.
  apply (Qmult_inj_l _ _ (mean (diagonal A))); [done|].
  rewrite Hrow. ring.
Qed.

Lemma value_row_fixes_the_value_witness :
  let self := (set_value_BC (set_rate_BC (init 2) [0%nat] (by_rates (Scalar (Some 5))) merge).1
                 [1%nat] (Scalar (Some 2)) merge).1 in
  let A := {| shape := 2;
              triples := [(0%nat, 1%nat, -1); (1%nat, 0%nat, -1);
                          (0%nat, 0%nat, 1); (1%nat, 1%nat, 1)] |} in
  nth 1 (dot (_apply_BCs_A A (bc_value self)) [7; 2]) 0
  == nth 1 (_apply_BCs_b A (replicate 2 0) (bc_rate self) (bc_value self)) 0
  /\ nth 1 [7; 2] 0 == 2.
Proof.
  intros self A. split; [reflexivity|].
  apply (value_row_fixes_the_value self A [7; 2] 1 2); try reflexivity.
  - simpl. lia.
  - vm_compute. discriminate.
Defined.

(** X11. The rows of the pores without a value condition are the original
    equations with the known values moved to the right-hand side: for a
    vector [x] that holds the values at the pores with a value condition,
    row [i] of the system [_apply_BCs] leaves has the same residual as the
    equation [sum_j A[i,j] * x[j] = rate[i]] (0 without a rate). *)
Theorem free_row_is_the_original_equation (self : GenericTransport) (A : coo_matrix)
    (x : list Q) (i : nat) :
  length (bc_rate self) = shape A -> length (bc_value self) = shape A ->
  length x = shape A -> (i < shape A)%nat ->
  ~ has_bc Value self i ->
  (forall j v, bc_value self !! j = Some (Some v) -> nth j x 0 == v) ->
  let A' := _apply_BCs_A A (bc_value self) in
  let b' := _apply_BCs_b A (replicate (shape A) 0) (bc_rate self) (bc_value self) in
  let rate_i := match bc_rate self !! i with Some (Some r) => r | _ => 0 end in
  nth i (dot A' x) 0 - nth i b' 0 == nth i (dot A x) 0 - rate_i.
Proof.
  intros Hr Hv Hx Hi Hno Hknown A' b' rate_i.
  rewrite (dot_free_row (bc_value self) A x i) by done.
  rewrite value_terms_known by done. fold A'.
  destruct (_apply_BCs_b_lookup A (replicate (shape A) 0) (bc_rate self)
              (bc_value self) i) as (q & Hq & Heq);
    [apply length_replicate|done|done|done|].
  fold b' in Hq. rewrite (nth_lookup_Q b' i q Hq), Heq.
  assert (Hzero : nth i (replicate (shape A) 0) 0 = 0).
  { apply nth_lookup_Q. by apply lookup_replicate_2. }
  rewrite Hzero. fold rate_i.
  destruct (bc_value self !! i) as [[v|]|] eqn:Hvi; try ring.
  exfalso. apply Hno. by exists v.
Qed.

Lemma free_row_is_the_original_equation_witness :
  let self := (set_value_BC (set_rate_BC (init 2) [0%nat] (by_rates (Scalar (Some 5))) merge).1
                 [1%nat] (Scalar (Some 2)) merge).1 in
  let A := {| shape := 2;
              triples := [(0%nat, 1%nat, -1); (1%nat, 0%nat, -1);
                          (0%nat, 0%nat, 1); (1%nat, 1%nat, 1)] |} in
  nth 0 (dot (_apply_BCs_A A (bc_value self)) [7; 2]) 0
  - nth 0 (_apply_BCs_b A (replicate 2 0) (bc_rate self) (bc_value self)) 0
  == nth 0 (dot A [7; 2]) 0 - 5.
Proof.
  intros self A.
  apply (free_row_is_the_original_equation self A [7; 2] 0); try reflexivity.
  - simpl. lia.
  - intros [q Hq]. discriminate.
  - intros [|[|j]] v Hj; try discriminate.
    inversion Hj. reflexivity.
Defined.

(** X12. Once [_update_A_and_b] has returned, the matrix without boundary
    conditions is cached and the boundary conditions were applied to a copy:
    a later [_update_A_and_b] with caching on leaves the very same object,
    whatever throats and conductances it is given then. *)
Theorem cached_matrix_is_reused (self s1 : GenericTransport) (cache : bool)
    (conns conns' : list (nat * nat)) (g g' : list Q) :
  _update_A_and_b self cache conns g = (s1, Ok tt) ->
  _update_A_and_b s1 true conns' g' = (s1, Ok tt).
Proof.
  unfold _update_A_and_b at 1. unfold _build_A.
  destruct (if cache then _pure_A self else None) as [A0|].
  - simpl. intros H. inversion H; subst. reflexivity.
  - destruct (create_adjacency_matrix (Np self) conns g) as [am|e]; simpl;
      intros H; inversion H; subst. reflexivity.
Qed.

Lemma cached_matrix_is_reused_witness :
  let s1 := (_update_A_and_b (init 3) true [(0, 1); (1, 2)]%nat [2; 3]).1 in
  _update_A_and_b s1 true [(0, 2)]%nat [7] = (s1, Ok tt).
Proof.
  intros s1.
  apply (cached_matrix_is_reused (init 3) s1 true [(0, 1); (1, 2)]%nat [(0, 2)]%nat
           [2; 3] [7]).
  reflexivity.
Defined.






(** * Further properties of the rates *)

(** The balances of the requested pores, as [rate] returns them for one
    conductance per throat. *)
Lemma rate_pores_eval (N : nat) (P12 : list (nat * nat)) (g : list Q)
    (quantity : list Q) (pores : list nat) (mode : string) :
  length quantity = N -> length g = length P12 ->
  Forall (fun e => (e.1 < N)%nat /\ (e.2 < N)%nat) P12 ->
  Forall (fun p => (p < N)%nat) pores -> pores <> [] ->
  exists R : list Q,
    rate N P12 (per_throat g) quantity pores [] mode = Ok (array_ndmin1 (group_if mode R))
    /\ Forall2 Qeq R (map (net_rate P12 (tile2 g) quantity) pores).
Proof.
  intros Hq Hg Hin Hpores Hne.
  assert (Hfst : forall i, i ∈ map fst P12 -> (i < length quantity)%nat).
  { intros i Hi. apply list_elem_of_fmap in Hi as (e & -> & He).
    rewrite Forall_forall in Hin. rewrite Hq. by apply Hin. }
  assert (Hsnd : forall i, i ∈ map snd P12 -> (i < length quantity)%nat).
  { intros i Hi. apply list_elem_of_fmap in Hi as (e & -> & He).
    rewrite Forall_forall in Hin. rewrite Hq. by apply Hin. }
  destruct (take_total quantity _ Hfst) as [X1 HX1].
  destruct (take_total quantity _ Hsnd) as [X2 HX2].
  assert (HX : take_ends quantity P12 = Ok (zip X1 X2)).
  { unfold take_ends. by rewrite HX1, HX2. }
  destruct (throat_rates_list P12 g quantity _ HX Hg) as (Qt & HQt & Hstretch).
  destruct (rate_balance N P12 (tile2 g) quantity Hin)
    as (Qp1 & Qp2 & H1 & H2 & Hlen & Hnth).
  destruct (take_total Qp2 pores) as [R HR].
  { intros p Hp. rewrite Forall_forall in Hpores. rewrite Hlen. by apply Hpores. }
  exists R. split.
  - assert (Hc : ((length (@nil nat) =? length pores) && (length pores =? 0))%nat
                 = false).
    { by destruct pores. }
    unfold rate. rewrite Hc, HX. cbn [bind length Nat.ltb Nat.leb andb].
    rewrite HQt. cbn [bind]. rewrite Hstretch, H1. cbn [bind].
    rewrite H2. cbn [bind]. by rewrite HR.
  - apply take_nth in HR. subst R. clear -Hnth.
    induction pores as [|p pores IH]; simpl; constructor; [apply Hnth|apply IH].
Qed.

(** Every throat takes from one end what it gives to the other: the
    balances of all the pores add up to zero. *)
Lemma net_rate_total (N : nat) (P12 : list (nat * nat)) (g : list (Q * Q))
    (quantity : list Q) :
  Forall (fun e => (e.1 < N)%nat /\ (e.2 < N)%nat) P12 ->
  Qsum (map (net_rate P12 g quantity) (seq 0 N)) == 0.
Proof.
  intros Hin. unfold net_rate. rewrite Qsum_swap. apply Qsum_zero.
  intros [e w] Hew. apply elem_of_zip_l in Hew. simpl.
  rewrite Forall_forall in Hin. destruct (Hin e Hew) as [H1 H2].
  rewrite Qsum_plus.
  rewrite (Qsum_ext (fun a => if (e.1 =? a)%nat then _ else 0)
             (fun a => if (a =? e.1)%nat then - throat_rate quantity e w else 0)).
  2:{ intros a _. by rewrite Nat.eqb_sym. }
  rewrite (Qsum_ext (fun a => if (e.2 =? a)%nat then _ else 0)
             (fun a => if (a =? e.2)%nat then throat_rate quantity e w else 0)).
  2:{ intros a _. by rewrite Nat.eqb_sym. }
  rewrite !Qsum_pick.
  destruct (Nat.ltb_spec e.1 N), (Nat.ltb_spec e.2 N); try lia. ring.
Qed.

Lemma Qsum_Forall2 (l k : list Q) : Forall2 Qeq l k -> Qsum l == Qsum k.
Proof.
  induction 1 as [|a b l k Hab _ IH]; simpl; [reflexivity|]. by rewrite Hab, IH.
Qed.

(** X14. Asked for all the pores in 'group' mode, [rate] returns zero: what
    leaves one pore through a throat enters another. *)
Theorem rate_of_all_pores_is_zero (N : nat) (P12 : list (nat * nat)) (g : list Q)
    (quantity : list Q) :
  length quantity = N -> length g = length P12 -> (0 < N)%nat ->
  Forall (fun e => (e.1 < N)%nat /\ (e.2 < N)%nat) P12 ->
  exists q : Q,
    rate N P12 (per_throat g) quantity (seq 0 N) [] "group" = Ok (dim1 [q])
    /\ q == 0.
Proof.
  intros Hq Hg HN Hin.
  destruct (rate_pores_eval N P12 g quantity (seq 0 N) "group") as (R & Heq & HR);
    try done.
  - apply Forall_forall. intros p Hp. apply elem_of_seq in Hp. lia.
  - destruct N; [lia|done].
  - exists (Qsum R). split; [exact Heq|].
    rewrite (Qsum_Forall2 _ _ HR). by apply net_rate_total.
Qed.

Lemma rate_of_all_pores_is_zero_witness :
  exists q : Q,
    rate 3 [(0, 1); (1, 2)]%nat (per_throat [2; 3]) [10; 4; 1] (seq 0 3) [] "group"
    = Ok (dim1 [q])
    /\ q == 0.
Proof.
  apply (rate_of_all_pores_is_zero 3 [(0, 1); (1, 2)]%nat [2; 3] [10; 4; 1]).
  - reflexivity.
  - reflexivity.
  - lia.
  - repeat constructor; simpl; lia.
Defined.

(** The throat rates before and after [squeeze]. *)
Lemma throat_rates_squeeze (P12 : list (nat * nat)) (g : list Q) (quantity : list Q)
    (X12 : list (Q * Q)) :
  take_ends quantity P12 = Ok X12 ->
  length g = length P12 ->
  let Qt := map (fun eg => throat_rate quantity eg.1 eg.2) (zip P12 (tile2 g)) in
  throat_rates (length P12) (per_throat g) X12 = Ok (squeeze Qt)
  /\ length Qt = length P12.
Proof.
  intros HX Hlen Qt. unfold take_ends in HX.
  destruct (take quantity (map fst P12)) as [X1|] eqn:H1; [|discriminate].
  destruct (take quantity (map snd P12)) as [X2|] eqn:H2; [|discriminate].
  simpl in HX. inversion HX; subst X12. clear HX.
  apply take_nth in H1, H2. subst X1 X2.
  unfold throat_rates. simpl. split.
  - do 2 f_equal. unfold Qt, diff1, flip1, tile2, throat_rate.
    clear Qt. revert g Hlen. induction P12 as [|e P12 IH]; intros [|w g] Hlen;
      simpl in *; try done.
    f_equal. apply IH. lia.
  - unfold Qt, tile2. rewrite length_map, length_zip, length_map. lia.
Qed.

(** X15. For a set of throats of a network with more than one throat and one
    conductance per throat, [rate] returns for each requested throat the
    magnitude of [g * (x[second end] - x[first end])]: never negative, the
    same whichever end is listed first; in 'group' mode their sum. *)
Theorem rate_of_throats (N : nat) (P12 : list (nat * nat)) (g : list Q)
    (quantity : list Q) (throats : list nat) (mode : string) :
  length g = length P12 -> length P12 <> 1%nat ->
  Forall (fun e => (e.1 < length quantity)%nat /\ (e.2 < length quantity)%nat) P12 ->
  Forall (fun t => (t < length P12)%nat) throats -> throats <> [] ->
  exists R : list Q,
    rate N P12 (per_throat g) quantity [] throats mode
    = Ok (array_ndmin1 (group_if mode R))
    /\ length R = length throats
    /\ Forall (fun r => 0 <= r) R
    /\ 0 <= Qsum R
    /\ forall k t e w, throats !! k = Some t -> P12 !! t = Some e -> g !! t = Some w ->
         exists r, R !! k = Some r
                   /\ r == Qabs (w * (nth e.2 quantity 0 - nth e.1 quantity 0))
                   /\ r == Qabs (w * (nth e.1 quantity 0 - nth e.2 quantity 0)).
Proof.
  intros Hg Hnt Hin Hthroats Hne.
  assert (Hfst : forall i, i ∈ map fst P12 -> (i < length quantity)%nat).
  { intros i Hi. apply list_elem_of_fmap in Hi as (e & -> & He).
    rewrite Forall_forall in Hin. by apply Hin. }
  assert (Hsnd : forall i, i ∈ map snd P12 -> (i < length quantity)%nat).
  { intros i Hi. apply list_elem_of_fmap in Hi as (e & -> & He).
    rewrite Forall_forall in Hin. by apply Hin. }
  destruct (take_total quantity _ Hfst) as [X1 HX1].
  destruct (take_total quantity _ Hsnd) as [X2 HX2].
  assert (HX : take_ends quantity P12 = Ok (zip X1 X2)).
  { unfold take_ends. by rewrite HX1, HX2. }
  destruct (throat_rates_squeeze P12 g quantity _ HX Hg) as [HQt HlenQt].
  set (Qt := map (fun eg => throat_rate quantity eg.1 eg.2) (zip P12 (tile2 g))) in *.
  assert (Hsq : squeeze Qt = dim1 Qt).
  { destruct Qt as [|q [|q' Qt']]; simpl in *; [done|lia|done]. }
  destruct (take_total Qt throats) as [R0 HR0].
  { intros t Ht. rewrite Forall_forall in Hthroats. rewrite HlenQt.
    by apply Hthroats. }
  exists (map Qabs R0).
  assert (Hall : Forall (fun r => 0 <= r) (map Qabs R0)).
  { apply Forall_fmap, Forall_forall. intros r _. apply Qabs_nonneg. }
  split; [|split; [|split; [|split]]].
  - assert (Hc1 : ((0 <? length throats) && (0 <? length (@nil nat)))%nat = false).
    { apply andb_false_r. }
    assert (Hc2 : ((length throats =? length (@nil nat)) && (length (@nil nat) =? 0))%nat
                  = false).
    { by destruct throats. }
    assert (Hc3 : (0 <? length throats)%nat = true).
    { by destruct throats. }
    unfold rate. rewrite Hc1, Hc2, HX. cbn [bind]. rewrite HQt. cbn [bind].
    rewrite Hc3, Hsq, HR0. done.
  - rewrite length_map. by apply take_length in HR0.
  - exact Hall.
  - rewrite <- (list_fmap_id (map Qabs R0)). apply Qsum_nonneg.
    intros r Hr. rewrite Forall_forall in Hall. by apply Hall.
  - intros k t e w Hk He Hw.
    apply take_nth in HR0. subst R0.
    exists (Qabs (nth t Qt 0)). split.
    + by rewrite !list_lookup_fmap, Hk.
    + assert (Hnth : nth t Qt 0 = throat_rate quantity e (w, w)).
      { apply nth_lookup_Q. unfold Qt, tile2.
        rewrite list_lookup_fmap, lookup_zip_with, He. simpl.
        by rewrite list_lookup_fmap, Hw. }
      rewrite Hnth. unfold throat_rate. cbn [fst snd].
      set (x1 := nth e.1 quantity 0). set (x2 := nth e.2 quantity 0).
      assert (H21 : w * x2 - w * x1 == w * (x2 - x1)) by ring.
      assert (H12 : w * (x1 - x2) == - (w * (x2 - x1))) by ring.
      split.
      * by rewrite H21.
      * by rewrite H12, Qabs_opp, H21.
Qed.

Lemma rate_of_throats_witness :
  exists R : list Q,
    rate 3 [(0, 1); (1, 2)]%nat (per_throat [2; 3]) [10; 4; 1] [] [1%nat] "single"
    = Ok (dim1 R)
    /\ Forall (fun r => 0 <= r) R.
Proof.
  destruct (rate_of_throats 3 [(0, 1); (1, 2)]%nat [2; 3] [10; 4; 1] [1%nat] "single")
    as (R & H1 & _ & H3 & _).
  - reflexivity.
  - simpl. lia.
  - repeat constructor; simpl; lia.
  - repeat constructor; simpl; lia.
  - discriminate.
  - exists R. split; [exact H1|exact H3].
Defined.

(** X16. On a network with a single throat [rate] cannot be asked for throats:
    the throat rates are squeezed to dimension 0 and indexing them raises
    numpy's index error, for every choice of throats. *)
Theorem rate_of_throats_single_throat (N : nat) (e : nat * nat) (w : Q)
    (quantity : list Q) (throats : list nat) (mode : string) :
  throats <> [] ->
  rate N [e] (per_throat [w]) quantity [] throats mode = Raise IndexError.
Proof.
  intros Hne.
  assert (Hc1 : ((0 <? length throats) && (0 <? length (@nil nat)))%nat = false).
  { apply andb_false_r. }
  assert (Hc2 : ((length throats =? length (@nil nat)) && (length (@nil nat) =? 0))%nat
                = false).
  { by destruct throats. }
  assert (Hc3 : (0 <? length throats)%nat = true).
  { by destruct throats. }
  unfold rate. rewrite Hc1, Hc2. unfold take_ends. simpl.
  destruct (quantity !! e.1) as [x1|]; [|done]. simpl.
  destruct (quantity !! e.2) as [x2|]; [|done]. simpl.
  by rewrite Hc3.
Qed.

Lemma rate_of_throats_single_throat_witness :
  rate 2 [(0, 1)]%nat (per_throat [2]) [10; 0] [] [0%nat] "group" = Raise IndexError.
Proof.
  apply (rate_of_throats_single_throat 2 (0, 1)%nat 2 [10; 0] [0%nat] "group").
  discriminate.
Defined.

(** * Rates and the assembled system *)

Lemma create_adjacency_matrix_length (N : nat) (conns : list (nat * nat)) (g : list Q)
    (am : coo_matrix) :
  create_adjacency_matrix N conns g = Ok am -> length g = length conns.
Proof.
  unfold create_adjacency_matrix.
  destruct (length g =? length conns)%nat eqn:Hlen; simpl; [|done].
  intros _. by apply Nat.eqb_eq.
Qed.

(** Row [i] of the product of the matrix without boundary conditions with
    a field is the balance of pore [i] that [rate] computes from that
    field. *)
Lemma laplacian_row_is_net_rate (N : nat) (conns : list (nat * nat)) (g : list Q)
    (am : coo_matrix) (x : list Q) (i : nat) :
  create_adjacency_matrix N conns g = Ok am -> length x = N -> (i < N)%nat ->
  nth i (dot (laplacian am) x) 0 == net_rate conns (tile2 g) x i.
Proof.
  intros Ham Hx Hi.
  pose proof (create_adjacency_matrix_Ok _ _ _ _ Ham) as (Hshape & Hts & _).
  assert (HsL : shape (laplacian am) = N) by (by rewrite <- Hshape).
  rewrite nth_dot by (by rewrite HsL). rewrite HsL.
  (* the row of the Laplacian from the rows of the adjacency matrix *)
  rewrite (Qsum_ext _ (fun j => - (entry am i j * nth j x 0)
             + (if (j =? i)%nat
                then sum_at (fun _ c => (c =? i)%nat) (triples am) * nth j x 0
                else 0))).
  2:{ intros j _. rewrite entry_laplacian by (by rewrite Hshape).
      rewrite (Nat.eqb_sym j i). destruct (Nat.eqb_spec i j) as [<-|]; ring. }
  rewrite Qsum_plus, Qsum_opp, Qsum_pick.
  destruct (Nat.ltb_spec i N); [|lia].
  rewrite (adjacency_column_sum _ _ _ _ i Ham).
  rewrite <- Qsum_scal_r, <- Qsum_opp, <- Qsum_plus.
  (* as a sum over the stored places *)
  set (y := map (fun j => nth i x 0 - nth j x 0) (seq 0 N)).
  rewrite (Qsum_ext _ (fun j => entry am i j * nth j y 0)).
  2:{ intros j Hj. apply elem_of_seq in Hj. unfold y.
      rewrite (nth_map_seq (fun j => nth i x 0 - nth j x 0)) by lia. ring. }
  rewrite <- Hshape at 1. rewrite <- dot_entries.
  2:{ unfold y. by rewrite length_map, length_seq. }
  rewrite (Qsum_ext _ (fun t => if (t.1.1 =? i)%nat
                                then t.2 * (nth i x 0 - nth t.1.2 x 0) else 0)).
  2:{ intros t Ht. destruct (t.1.1 =? i)%nat; [|reflexivity].
      pose proof (adjacency_in_range _ _ _ _ Ham) as Hin.
      rewrite Forall_forall in Hin. specialize (Hin t Ht). unfold y.
      by rewrite (nth_map_seq (fun j => nth i x 0 - nth j x 0)). }
  (* throat by throat *)
  rewrite Hts, map_app, Qsum_app. unfold net_rate, tile2, throat_rate.
  clear. revert g. induction conns as [|e conns IH]; intros [|w g]; simpl;
    try ring.
  specialize (IH g). simpl in IH.
  destruct (Nat.eqb_spec e.1 i) as [H1|H1], (Nat.eqb_spec e.2 i) as [H2|H2];
    rewrite ?H1, ?H2; rewrite <- IH; ring.
Qed.

Lemma _build_A_fresh (self s : GenericTransport) (conns : list (nat * nat))
    (g : list Q) (A : coo_matrix) :
  _build_A self false conns g = (s, Ok tt) -> _A s = Some A ->
  exists am, create_adjacency_matrix (Np self) conns g = Ok am /\ A = laplacian am.
Proof.
  unfold _build_A.
  destruct (create_adjacency_matrix (Np self) conns g) as [am|e]; [|done].
  intros H HA. inversion H; subst. simpl in HA. inversion HA. by exists am.
Qed.

(** X17. The rate [rate] returns for one pore is the row of that pore in the
    matrix [_build_A] makes (no boundary conditions applied) times the
    field: the balance of the pore is what the linear system equates to the
    rate condition of the pore. *)
Theorem rate_is_row_of_A (self s : GenericTransport) (conns : list (nat * nat))
    (g : list Q) (A : coo_matrix) (x : list Q) (i : nat) :
  _build_A self false conns g = (s, Ok tt) -> _A s = Some A ->
  length x = Np self -> (i < Np self)%nat ->
  exists r,
    rate (Np self) conns (per_throat g) x [i] [] "single" = Ok (dim1 [r])
    /\ r == nth i (dot A x) 0.
Proof.
  intros Hbuild HA Hx Hi.
  destruct (_build_A_fresh _ _ _ _ _ Hbuild HA) as (am & Ham & ->).
  pose proof (create_adjacency_matrix_Ok _ _ _ _ Ham) as (_ & _ & Hin).
  pose proof (create_adjacency_matrix_length _ _ _ _ Ham) as Hg.
  destruct (rate_pores_eval (Np self) conns g x [i] "single") as (R & Heq & HR);
    try done.
  { by repeat constructor. }
  inversion HR as [|r ? R' ? Hr HR']; subst. inversion HR'; subst.
  exists r. split; [exact Heq|].
  by rewrite Hr, (laplacian_row_is_net_rate _ _ _ _ _ _ Ham).
Qed.

Lemma rate_is_row_of_A_witness :
  let s := (_build_A (init 3) false [(0, 1); (1, 2)]%nat [2; 3]).1 in
  exists r,
    rate 3 [(0, 1); (1, 2)]%nat (per_throat [2; 3]) [10; 4; 1] [1%nat] [] "single"
    = Ok (dim1 [r])
    /\ r == nth 1 (dot (default {| shape := 0; triples := [] |} (_A s)) [10; 4; 1]) 0.
Proof.
  intros s.
  apply (rate_is_row_of_A (init 3) s [(0, 1); (1, 2)]%nat [2; 3] _ [10; 4; 1] 1);
    try reflexivity.
  simpl. lia.
Defined.

Lemma Qsum_to_indices (F : nat -> Q) (mask : list bool) (s : nat) :
  Qsum (map F (compress (seq s (length mask)) mask))
  == Qsum (map (fun k => if nth k mask false then F (s + k)%nat else 0)
               (seq 0 (length mask))).
Proof.
  revert s. induction mask as [|m mask IH]; intros s.
  - reflexivity.
  - cbn [length seq compress]. rewrite <- (seq_shift (length mask) 0).
    cbn [map Qsum foldr nth]. rewrite map_map. cbn [nth].
    rewrite Nat.add_0_r.
    assert (Htail : Qsum (map F (compress (seq (S s) (length mask)) mask))
                    == Qsum (map (fun k => if nth k mask false
                                           then F (s + S k)%nat else 0)
                                 (seq 0 (length mask)))).
    { rewrite IH. apply Qsum_ext. intros k _.
      by replace (S s + k)%nat with (s + S k)%nat by lia. }
    destruct m; cbn [map Qsum foldr]; rewrite Htail; unfold Qsum; ring.
Qed.

(** X18. Conservation. Let [x] satisfy the system that [_update_A_and_b]
    leaves in [self.A], [self.b] (built afresh, with a scale [f] that is not
    zero). Then the rate [rate] returns in 'group' mode for the pores that
    hold a value is minus the sum of the rates set on the other pores: what
    the rate conditions inject leaves through the pores held at a value. *)
Theorem rate_of_value_pores_balances_rates (n : nat) (self s : GenericTransport)
    (conns : list (nat * nat)) (g : list Q) (A A' : coo_matrix) (b' x : list Q) :
  well_sized n self ->
  _update_A_and_b self false conns g = (s, Ok tt) ->
  _pure_A s = Some A -> _A s = Some A' -> _b s = Some b' ->
  ~ mean (diagonal A) == 0 ->
  length x = n ->
  (forall i, (i < n)%nat -> nth i (dot A' x) 0 == nth i b' 0) ->
  let P_bc := to_indices (isfinite (bc_value self)) in
  P_bc <> [] ->
  exists q,
    rate n conns (per_throat g) x P_bc [] "group" = Ok (dim1 [q])
    /\ q == - Qsum (map (fun i => match bc_value self !! i, bc_rate self !! i with
                                  | Some (Some _), _ => 0
                                  | _, Some (Some r) => r
                                  | _, _ => 0
                                  end)
                        (seq 0 n)).
Proof.
  intros Hwf Hupd HA HA' Hb' Hf Hx Hsolve P_bc Hne.
  destruct Hwf as (HN & Hv & Hr).
  unfold _update_A_and_b, _build_A in Hupd. simpl in Hupd.
  destruct (create_adjacency_matrix (Np self) conns g) as [am|e] eqn:Ham;
    simpl in Hupd; [|discriminate].
  inversion Hupd; subst s; clear Hupd. simpl in HA, HA', Hb'.
  inversion HA; subst A. inversion HA'; subst A'. inversion Hb'; subst b'.
  clear HA HA' Hb'. rewrite HN in *.
  pose proof (create_adjacency_matrix_Ok _ _ _ _ Ham) as (Hshape & _ & Hin).
  pose proof (create_adjacency_matrix_length _ _ _ _ Ham) as Hg.
  set (L := laplacian am) in *.
  assert (HsL : shape L = n) by (unfold L; simpl; done).
  set (base := fun i => match bc_rate self !! i with Some (Some r) => r | _ => 0 end).
  (* the right-hand side, row by row *)
  assert (Hb : forall i, (i < n)%nat ->
            nth i (_apply_BCs_b L (replicate n 0) (bc_rate self) (bc_value self)) 0
            == match bc_value self !! i with
               | Some (Some v) => v * mean (diagonal L)
               | _ => base i - value_terms L (bc_value self) i
               end).
  { intros i Hi.
    destruct (_apply_BCs_b_lookup L (replicate n 0) (bc_rate self) (bc_value self) i)
      as (q & Hq & Heq); rewrite ?HsL, ?length_replicate; try done.
    rewrite (nth_lookup_Q _ i q Hq), Heq.
    assert (nth i (replicate n 0) 0 = 0) as ->; [|reflexivity].
    apply nth_lookup_Q. by apply lookup_replicate_2. }
  (* the pores with a value hold it *)
  assert (Hknown : forall j v, bc_value self !! j = Some (Some v) -> nth j x 0 == v).
  { intros j v Hj.
    assert (Hjn : (j < n)%nat) by (apply lookup_lt_Some in Hj; lia).
    specialize (Hsolve j Hjn).
    rewrite (dot_value_row _ _ _ _ v), Hb, Hj in Hsolve by (rewrite ?HsL; done).
    apply (Qmult_inj_l _ _ (mean (diagonal L))); [done|]. rewrite Hsolve. ring. }
  (* the balance of a pore without a value is its rate *)
  assert (Hfree : forall i, (i < n)%nat -> ~ has_bc Value self i ->
            net_rate conns (tile2 g) x i == base i).
  { intros i Hi Hno.
    rewrite <- (laplacian_row_is_net_rate n conns g am x i Ham Hx Hi). fold L.
    rewrite (dot_free_row (bc_value self)) by (rewrite ?HsL; done).
    rewrite value_terms_known by done. rewrite Hsolve, Hb by done.
    destruct (bc_value self !! i) as [[v|]|] eqn:Hvi; try ring.
    exfalso. apply Hno. by exists v. }
  (* what rate returns *)
  destruct (rate_pores_eval n conns g x P_bc "group") as (R & Heq & HR); try done.
  { apply Forall_forall. intros p Hp. apply elem_of_to_indices in Hp as [q Hq].
    apply lookup_lt_Some in Hq. lia. }
  exists (Qsum R). split; [exact Heq|].
  rewrite (Qsum_Forall2 _ _ HR). unfold P_bc, to_indices.
  rewrite (Qsum_to_indices (net_rate conns (tile2 g) x) _ 0).
  unfold isfinite at 2. rewrite length_map, Hv.
  pose proof (net_rate_total n conns (tile2 g) x Hin) as Htotal.
  set (mine := fun i : nat => if nth i (isfinite (bc_value self)) false
                              then net_rate conns (tile2 g) x i else 0).
  set (others := fun i : nat => match bc_value self !! i, bc_rate self !! i with
                                | Some (Some _), _ => 0
                                | _, Some (Some r) => r
                                | _, _ => 0
                                end).
  assert (Hsum : Qsum (map (net_rate conns (tile2 g) x) (seq 0 n))
                 == Qsum (map mine (seq 0 n)) + Qsum (map others (seq 0 n))).
  { rewrite <- Qsum_plus. apply Qsum_ext. intros i Hi. apply elem_of_seq in Hi.
    unfold mine, others. rewrite nth_lookup. unfold isfinite.
    rewrite list_lookup_fmap.
    destruct (bc_value self !! i) as [[v|]|] eqn:Hvi; simpl.
    - ring.
    - rewrite Hfree; [unfold base; destruct (bc_rate self !! i) as [[r|]|]; ring|lia|].
      intros [q Hq]. simpl in Hq. congruence.
    - apply lookup_ge_None in Hvi. lia. }
  rewrite Hsum in Htotal.
  assert (Hmine : Qsum (map mine (seq 0 n)) == - Qsum (map others (seq 0 n))).
  { rewrite <- (Qplus_0_r (- _)), <- Htotal. ring. }
  exact Hmine.
Qed.

Lemma rate_of_value_pores_balances_rates_witness :
  let self := (set_value_BC (set_rate_BC (init 3) [0%nat] (by_rates (Scalar (Some 5))) merge).1
                 [2%nat] (Scalar (Some 0)) merge).1 in
  exists q,
    rate 3 [(0, 1); (1, 2)]%nat (per_throat [1; 1]) [10; 5; 0] [2%nat] [] "group"
    = Ok (dim1 [q])
    /\ q == - Qsum (map (fun i => match bc_value self !! i, bc_rate self !! i with
                                  | Some (Some _), _ => 0
                                  | _, Some (Some r) => r
                                  | _, _ => 0
                                  end)
                        (seq 0 3)).
Proof.
  intros self.
  set (s := (_update_A_and_b self false [(0, 1); (1, 2)]%nat [1; 1]).1).
  apply (rate_of_value_pores_balances_rates 3 self s [(0, 1); (1, 2)]%nat [1; 1]
           (default {| shape := 0; triples := [] |} (_pure_A s))
           (default {| shape := 0; triples := [] |} (_A s))
           (default [] (_b s)) [10; 5; 0]); try reflexivity.
  - repeat split.
  - vm_compute. discriminate.
  - discriminate.
Defined.

(** * Further properties of the settings and of conflicting arrays *)

Local Open Scope nat_scope.

(** X19. [run] with a setting that holds [None]: it raises the exception of
    [_validate_settings] and the object is as it was; neither the health
    checks nor the solver are reached, whatever they are. *)
Theorem run_rejects_None_settings
    (health : GenericTransport -> GenericTransport * result unit)
    (solve : coo_matrix -> list Q -> list Q -> list Q * nat)
    (self : GenericTransport) (settings : GenericTransportSettings)
    (conns : list (nat * nat)) (g : list Q) (x0 : option (list Q)) :
  quantity settings = None \/ conductance settings = None \/ phase settings = None ->
  exists msg,
    run health solve self settings conns g x0 = (self, Raise (Exception msg))
    /\ _validate_settings settings = Raise (Exception msg).
Proof.
  intros Hnone. apply _validate_settings_raises in Hnone.
  destruct (_validate_settings settings) as [[]|e] eqn:Hval; [done|].
  assert (exists msg, e = Exception msg) as [msg ->].
  { unfold _validate_settings in Hval.
    destruct (quantity settings), (conductance settings), (phase settings);
      inversion Hval; eauto. }
  exists msg. split; [|done]. by apply run_fails_fast.
Qed.

Lemma run_rejects_None_settings_witness :
  let settings := {| prefix := "transport"; phase := Some "phase_01";
                     quantity := Some "pore.pressure"; conductance := None;
                     cache := true; variable_props := [] |} in
  exists msg,
    run (fun s => (s, Ok tt)) (fun _ b _ => (b, 0)) (init 2) settings [(0, 1)] [1%Q] None
    = (init 2, Raise (Exception msg)).
Proof.
  intros settings.
  destruct (run_rejects_None_settings (fun s => (s, Ok tt)) (fun _ b _ => (b, 0))
              (init 2) settings [(0, 1)] [1%Q] None) as (msg & H & _).
  - right. by left.
  - by exists msg.
Defined.

(** X20. Values given one per pore (more than one), on pores in range of which
    one carries the other kind: in 'merge' mode the call raises numpy's
    shape error and nothing is written, also to the pores without
    conflict. *)
Theorem merge_vector_conflict_raises (n : nat) (self : GenericTransport)
    (pores : list nat) (t : bctype) (vs : list (option Q)) (p : nat) :
  well_sized n self -> length vs = length pores -> 1 < length vs ->
  (forall p, p ∈ pores -> p < n) ->
  p ∈ pores -> has_bc (othertype t) self p ->
  _set_BC self pores t (Vector vs) merge = (self, Raise ValueError).
Proof.
  intros Hwf Hlen Hbig Hrange Hp Hbc.
  apply (_set_BC_merge_vector_conflict self pores t vs p); try done.
  - by rewrite !(well_sized_bc n).
  - intros q Hq. rewrite (well_sized_bc n) by done. by apply Hrange.
Qed.

Lemma merge_vector_conflict_raises_witness :
  let self := (set_value_BC (init 4) [2] (Scalar (Some 1%Q)) merge).1 in
  _set_BC self [1; 2; 3] Rate (Vector [Some 5%Q; Some 6%Q; Some 7%Q]) merge
  = (self, Raise ValueError).
Proof.
  intros self.
  apply (merge_vector_conflict_raises 4 self [1; 2; 3] Rate
           [Some 5%Q; Some 6%Q; Some 7%Q] 2).
  - repeat split.
  - reflexivity.
  - simpl. lia.
  - intros p Hp.
    repeat (apply elem_of_cons in Hp as [->|Hp]; [lia|]). by apply elem_of_nil in Hp.
  - by apply (bool_decide_unpack _).
  - by exists 1%Q.
Defined.

(** * Further properties of the matrix of the network *)

Local Open Scope Q_scope.

Lemma Qsum_scal_l {A : Type} (f : A -> Q) (c : Q) (l : list A) :
  Qsum (map (fun a => c * f a) l) == c * Qsum (map f l).
Proof.
  induction l as [|a l IH]; simpl.
  - ring.
  - rewrite IH. ring.
Qed.

Lemma Qsquare_nonneg (a : Q) : 0 <= a * a.
Proof.
  destruct (Qlt_le_dec a 0) as [Hneg|Hpos].
  - assert (H : a * a == (- a) * (- a)) by ring. rewrite H.
    apply Qmult_le_0_compat; apply (Qopp_le_compat a 0), Qlt_le_weak, Hneg.
  - by apply Qmult_le_0_compat.
Qed.

(** The quadratic form of the field with the balances of the pores is the
    sum over the throats of [g * (x[first end] - x[second end])^2]. *)
Lemma net_rate_quadratic_form (N : nat) (conns : list (nat * nat)) (g : list Q)
    (x : list Q) :
  Forall (fun e => (e.1 < N)%nat /\ (e.2 < N)%nat) conns ->
  Qsum (map (fun i => nth i x 0 * net_rate conns (tile2 g) x i) (seq 0 N))
  == Qsum (map (fun ew : nat * nat * Q =>
                  ew.2 * ((nth ew.1.1 x 0 - nth ew.1.2 x 0)
                          * (nth ew.1.1 x 0 - nth ew.1.2 x 0)))
               (zip conns g)).
Proof.
  intros Hin. unfold net_rate.
  rewrite (Qsum_ext _ (fun i => Qsum (map (fun eg : nat * nat * (Q * Q) =>
             nth i x 0 * ((if (eg.1.1 =? i)%nat then - throat_rate x eg.1 eg.2 else 0)
                          + (if (eg.1.2 =? i)%nat then throat_rate x eg.1 eg.2 else 0)))
             (zip conns (tile2 g))))).
  2:{ intros i _. symmetry. apply Qsum_scal_l. }
  rewrite Qsum_swap.
  rewrite (Qsum_ext _ (fun eg : nat * nat * (Q * Q) =>
             throat_rate x eg.1 eg.2 * (nth eg.1.2 x 0 - nth eg.1.1 x 0))).
  2:{ intros [e w] Hew. apply elem_of_zip_l in Hew. simpl.
      rewrite Forall_forall in Hin. destruct (Hin e Hew) as [H1 H2].
      rewrite (Qsum_ext _ (fun i =>
                 (if (i =? e.1)%nat then nth i x 0 * - throat_rate x e w else 0)
                 + (if (i =? e.2)%nat then nth i x 0 * throat_rate x e w else 0))).
      2:{ intros i _. rewrite (Nat.eqb_sym i e.1), (Nat.eqb_sym i e.2).
          destruct (e.1 =? i)%nat, (e.2 =? i)%nat; ring. }
      rewrite Qsum_plus, !Qsum_pick.
      destruct (Nat.ltb_spec e.1 N), (Nat.ltb_spec e.2 N); try lia. ring. }
  unfold tile2, throat_rate. clear.
  revert g. induction conns as [|e conns IH]; intros [|w g]; simpl; try reflexivity.
  rewrite IH. ring.
Qed.

(** X21. The matrix [_build_A] makes from non-negative conductances is positive
    semi-definite: for every field [x], [x . (A x)] is the sum over the
    throats of [g * (x[first end] - x[second end])^2], which is not
    negative. *)
Theorem A_is_positive_semidefinite (self s : GenericTransport)
    (conns : list (nat * nat)) (g : list Q) (A : coo_matrix) (x : list Q) :
  _build_A self false conns g = (s, Ok tt) -> _A s = Some A ->
  length x = Np self -> Forall (fun w => 0 <= w) g ->
  let xAx := Qsum (map (fun i => nth i x 0 * nth i (dot A x) 0) (seq 0 (Np self))) in
  xAx == Qsum (map (fun ew : nat * nat * Q =>
                      ew.2 * ((nth ew.1.1 x 0 - nth ew.1.2 x 0)
                              * (nth ew.1.1 x 0 - nth ew.1.2 x 0)))
                   (zip conns g))
  /\ 0 <= xAx.
Proof.
  intros Hbuild HA Hx Hg xAx.
  destruct (_build_A_fresh _ _ _ _ _ Hbuild HA) as (am & Ham & ->).
  pose proof (create_adjacency_matrix_Ok _ _ _ _ Ham) as (_ & _ & Hin).
  assert (Heq : xAx == Qsum (map (fun ew : nat * nat * Q =>
                      ew.2 * ((nth ew.1.1 x 0 - nth ew.1.2 x 0)
                              * (nth ew.1.1 x 0 - nth ew.1.2 x 0)))
                   (zip conns g))).
  { unfold xAx. rewrite <- (net_rate_quadratic_form (Np self)) by done.
    apply Qsum_ext. intros i Hi. apply elem_of_seq in Hi.
    rewrite (laplacian_row_is_net_rate (Np self) conns g am x i); [reflexivity|done..|lia]. }
  split; [exact Heq|]. rewrite Heq. apply Qsum_nonneg. intros [e w] Hew.
  apply elem_of_zip_r in Hew. rewrite Forall_forall in Hg. simpl.
  apply Qmult_le_0_compat; [by apply Hg|apply Qsquare_nonneg].
Qed.

Lemma A_is_positive_semidefinite_witness :
  let s := (_build_A (init 3) false [(0, 1); (1, 2)]%nat [2; 3]).1 in
  let A := default {| shape := 0; triples := [] |} (_A s) in
  0 <= Qsum (map (fun i => nth i [10; 4; 1] 0 * nth i (dot A [10; 4; 1]) 0) (seq 0 3)).
Proof.
  intros s A.
  destruct (A_is_positive_semidefinite (init 3) s [(0, 1); (1, 2)]%nat [2; 3] A
              [10; 4; 1]) as [_ H]; try reflexivity.
  - repeat constructor; discriminate.
  - exact H.
Defined.

Lemma nth_shift (x : list Q) (c : Q) (i : nat) :
  (i < length x)%nat -> nth i (map (fun v => v + c) x) 0 = nth i x 0 + c.
Proof.
  intros Hi. destruct (lookup_lt_is_Some_2 x i Hi) as [v Hv].
  rewrite (nth_lookup_Q x i v Hv). apply nth_lookup_Q.
  by rewrite list_lookup_fmap, Hv.
Qed.

(** The balance of a pore only depends on differences of the field. *)
Lemma net_rate_shift (conns : list (nat * nat)) (g : list Q) (x : list Q) (c : Q)
    (i : nat) :
  Forall (fun e => (e.1 < length x)%nat /\ (e.2 < length x)%nat) conns ->
  net_rate conns (tile2 g) (map (fun v => v + c) x) i
  == net_rate conns (tile2 g) x i.
Proof.
  intros Hin. unfold net_rate. apply Qsum_ext. intros [e [w1 w2]] Hew.
  pose proof (elem_of_zip_l _ _ _ _ Hew) as He.
  apply elem_of_zip_r in Hew. unfold tile2 in Hew.
  apply list_elem_of_fmap in Hew as (w & Hw & _). inversion Hw; subst w1 w2.
  rewrite Forall_forall in Hin. destruct (Hin e He) as [H1 H2].
  cbn [fst snd]. unfold throat_rate. cbn [fst snd].
  rewrite !nth_shift by done.
  destruct (e.1 =? i)%nat, (e.2 =? i)%nat; ring.
Qed.

Lemma Forall2_Qeq_maps (F F' : nat -> Q) (pores : list nat) (R R' : list Q) :
  (forall p, F' p == F p) ->
  Forall2 Qeq R (map F pores) -> Forall2 Qeq R' (map F' pores) ->
  Forall2 Qeq R R'.
Proof.
  intros HF. revert R R'. induction pores as [|p pores IH]; intros R R' H H';
    simpl in *.
  - inversion H; inversion H'; subst. constructor.
  - inversion H as [|r ? R0 ? Hr HR]; inversion H' as [|r' ? R0' ? Hr' HR']; subst.
    constructor; [|by apply IH]. by rewrite Hr, Hr', HF.
Qed.

(** X22. Adding one constant to the whole field changes neither the product
    of the matrix [_build_A] makes with the field nor the rates [rate]
    returns for pores: only differences of the field matter, and a constant
    field gives zero everywhere. *)
Theorem only_differences_of_the_field_matter (self s : GenericTransport)
    (conns : list (nat * nat)) (g : list Q) (A : coo_matrix) (x : list Q) (c : Q)
    (pores : list nat) :
  _build_A self false conns g = (s, Ok tt) -> _A s = Some A ->
  length x = Np self ->
  Forall (fun p => (p < Np self)%nat) pores -> pores <> [] ->
  let x' := map (fun v => v + c) x in
  (forall i, (i < Np self)%nat -> nth i (dot A x') 0 == nth i (dot A x) 0)
  /\ (forall i, (i < Np self)%nat ->
        nth i (dot A (replicate (Np self) c)) 0 == 0)
  /\ exists R R',
       rate (Np self) conns (per_throat g) x pores [] "single" = Ok (dim1 R)
       /\ rate (Np self) conns (per_throat g) x' pores [] "single" = Ok (dim1 R')
       /\ Forall2 Qeq R R'.
Proof.
  intros Hbuild HA Hx Hpores Hne x'.
  destruct (_build_A_fresh _ _ _ _ _ Hbuild HA) as (am & Ham & ->).
  pose proof (create_adjacency_matrix_Ok _ _ _ _ Ham) as (_ & _ & Hin).
  pose proof (create_adjacency_matrix_length _ _ _ _ Ham) as Hg.
  assert (Hx' : length x' = Np self) by (unfold x'; by rewrite length_map).
  assert (Hinx : Forall (fun e => (e.1 < length x)%nat /\ (e.2 < length x)%nat) conns).
  { by rewrite Hx. }
  split; [|split].
  - intros i Hi.
    rewrite !(laplacian_row_is_net_rate (Np self) conns g am) by done.
    by apply net_rate_shift.
  - intros i Hi.
    rewrite (laplacian_row_is_net_rate (Np self) conns g am);
      [|done|by rewrite length_replicate|done].
    unfold net_rate. apply Qsum_zero. intros [e [w1 w2]] Hew.
    pose proof (elem_of_zip_l _ _ _ _ Hew) as He.
    apply elem_of_zip_r in Hew. unfold tile2 in Hew.
    apply list_elem_of_fmap in Hew as (w & Hw & _). inversion Hw; subst w1 w2.
    rewrite Forall_forall in Hin. destruct (Hin e He) as [H1 H2].
    cbn [fst snd]. unfold throat_rate. cbn [fst snd].
    rewrite !(nth_lookup_Q _ _ c) by (by apply lookup_replicate_2).
    destruct (e.1 =? i)%nat, (e.2 =? i)%nat; ring.
  - destruct (rate_pores_eval (Np self) conns g x pores "single") as (R & Heq & HR);
      try done.
    destruct (rate_pores_eval (Np self) conns g x' pores "single") as (R' & Heq' & HR');
      try done.
    exists R, R'. split; [exact Heq|]. split; [exact Heq'|].
    eapply Forall2_Qeq_maps; [|exact HR|exact HR'].
    intros p. by apply net_rate_shift.
Qed.

Lemma only_differences_of_the_field_matter_witness :
  let s := (_build_A (init 3) false [(0, 1); (1, 2)]%nat [2; 3]).1 in
  let A := default {| shape := 0; triples := [] |} (_A s) in
  nth 1 (dot A (replicate 3 7)) 0 == 0.
Proof.
  intros s A.
  destruct (only_differences_of_the_field_matter (init 3) s [(0, 1); (1, 2)]%nat
              [2; 3] A [10; 4; 1] 7 [0%nat]) as (_ & H & _);
    [reflexivity|reflexivity|reflexivity|repeat constructor; simpl; lia|discriminate|].
  apply (H 1%nat). simpl. lia.
Defined.

(** X23. [_update_A_and_b] on a network whose throats have their ends in
    range, with one conductance per throat and caching off, on an object
    with one value entry per pore: it returns, and the matrix it leaves in
    [self.A], boundary conditions applied, is symmetric; the boundary
    conditions themselves are not touched. *)
Theorem assembled_matrix_is_symmetric (self : GenericTransport)
    (conns : list (nat * nat)) (g : list Q) :
  length (bc_value self) = Np self -> length g = length conns ->
  Forall (fun e => (e.1 < Np self)%nat /\ (e.2 < Np self)%nat) conns ->
  exists self' A',
    _update_A_and_b self false conns g = (self', Ok tt)
    /\ _A self' = Some A'
    /\ bc_value self' = bc_value self /\ bc_rate self' = bc_rate self
    /\ forall i j, (i < Np self)%nat -> (j < Np self)%nat ->
                   entry A' i j == entry A' j i.
Proof.
  intros Hlen Hg Hin.
  destruct (_update_A_and_b_symmetric self conns g Hlen Hg Hin)
    as (self' & A' & Heq & HA & Hv & Hsym).
  exists self', A'. repeat split; try done.
  unfold _update_A_and_b, _build_A in Heq.
  destruct (create_adjacency_matrix (Np self) conns g) as [am|]; simpl in Heq;
    inversion Heq; subst. reflexivity.
Qed.

Lemma assembled_matrix_is_symmetric_witness :
  let self := (set_value_BC (init 3) [2%nat] (Scalar (Some 4)) merge).1 in
  exists self' A',
    _update_A_and_b self false [(0, 1); (1, 2)]%nat [2; 3] = (self', Ok tt)
    /\ _A self' = Some A'
    /\ entry A' 0 1 == entry A' 1 0.
Proof.
  intros self.
  destruct (assembled_matrix_is_symmetric self [(0, 1); (1, 2)]%nat [2; 3])
    as (self' & A' & H1 & H2 & _ & _ & H5).
  - reflexivity.
  - reflexivity.
  - repeat constructor; simpl; lia.
  - exists self', A'. split; [exact H1|]. split; [exact H2|].
    apply H5; simpl; lia.
Defined.


(** * Rates with one conductance per direction *)

(** X24. For a conductance with one value per throat and direction, on a
    network with at least one throat: the balance [rate] returns for a pore
    adds, for every throat, the rate
    [Qt = g[first column] * x[second end] - g[second column] * x[first end]]
    with sign -1 at the first end and +1 at the second end; the requested
    balances are returned as they are, or as their one sum in 'group'
    mode. *)
Theorem rate_of_pores_per_direction (N : nat) (P12 : list (nat * nat))
    (g : list (Q * Q)) (quantity : list Q) (pores : list nat) (mode : string) :
  length quantity = N -> length g = length P12 -> P12 <> [] ->
  Forall (fun e => (e.1 < N)%nat /\ (e.2 < N)%nat) P12 ->
  Forall (fun p => (p < N)%nat) pores -> pores <> [] ->
  exists R : list Q,
    rate N P12 (per_direction g) quantity pores [] mode
    = Ok (dim1 (if String.eqb mode "group" then [Qsum R] else R))
    /\ Forall2 Qeq R (map (net_rate P12 g quantity) pores).
Proof.
  intros Hq Hg HP Hin Hpores Hne.
  assert (Hfst : forall i, i ∈ map fst P12 -> (i < length quantity)%nat).
  { intros i Hi. apply list_elem_of_fmap in Hi as (e & -> & He).
    rewrite Forall_forall in Hin. rewrite Hq. by apply Hin. }
  assert (Hsnd : forall i, i ∈ map snd P12 -> (i < length quantity)%nat).
  { intros i Hi. apply list_elem_of_fmap in Hi as (e & -> & He).
    rewrite Forall_forall in Hin. rewrite Hq. by apply Hin. }
  destruct (take_total quantity _ Hfst) as [X1 HX1].
  destruct (take_total quantity _ Hsnd) as [X2 HX2].
  pose proof (take_nth _ _ _ HX1) as HX1'. pose proof (take_nth _ _ _ HX2) as HX2'.
  set (Qt := map (fun eg => throat_rate quantity eg.1 eg.2) (zip P12 g)).
  assert (HQt : throat_rates (length P12) (per_direction g) (zip X1 X2)
                = Ok (squeeze Qt)).
  { unfold throat_rates.
    assert ((length P12 =? 0)%nat = false) as -> by (by destruct P12).
    cbn [bind]. do 2 f_equal. subst X1 X2.
    unfold Qt, diff1, flip1, throat_rate. clear -Hg.
    revert g Hg. induction P12 as [|e P12 IH]; intros [|w g] Hg; simpl in *;
      try done.
    f_equal. apply IH. lia. }
  assert (Hstretch : stretch (squeeze Qt) (length P12) = Qt).
  { assert (Hlen : length Qt = length P12).
    { unfold Qt. rewrite length_map, length_zip. lia. }
    destruct Qt as [|q [|q' l]]; simpl; try done. simpl in Hlen. by rewrite <- Hlen. }
  destruct (rate_balance N P12 g quantity Hin) as (Qp1 & Qp2 & H1 & H2 & Hlen & Hnth).
  fold Qt in H1, H2.
  destruct (take_total Qp2 pores) as [R HR].
  { intros p Hp. rewrite Forall_forall in Hpores. rewrite Hlen. by apply Hpores. }
  exists R. split.
  - assert (Hc : ((length (@nil nat) =? length pores) && (length pores =? 0))%nat
                 = false).
    { by destruct pores. }
    unfold rate, take_ends. rewrite Hc, HX1, HX2.
    cbn [bind length Nat.ltb Nat.leb andb].
    rewrite HQt. cbn [bind]. rewrite Hstretch, H1. cbn [bind].
    rewrite H2. cbn [bind]. rewrite HR. cbn [bind].
    unfold group_if. by destruct (String.eqb mode "group").
  - apply take_nth in HR. subst R. clear -Hnth.
    induction pores as [|p pores IH]; simpl; constructor; [apply Hnth|apply IH].
Qed.

Lemma rate_of_pores_per_direction_witness :
  exists R : list Q,
    rate 3 [(0, 1); (1, 2)]%nat (per_direction [(1, 2); (3, 1)]) [10; 5; 0]
      [0; 1]%nat [] "single"
    = Ok (dim1 R)
    /\ Forall2 Qeq R (map (net_rate [(0, 1); (1, 2)]%nat [(1, 2); (3, 1)] [10; 5; 0])
                          [0; 1]%nat).
Proof.
  destruct (rate_of_pores_per_direction 3 [(0, 1); (1, 2)]%nat [(1, 2); (3, 1)]
              [10; 5; 0] [0; 1]%nat "single") as (R & H1 & H2);
    [reflexivity|reflexivity|discriminate|repeat constructor; simpl; lia
    |repeat constructor; simpl; lia|discriminate|].
  exists R. split; [exact H1|exact H2].
Defined.
